(** * solid-grab: the JSX tag injector, the DOM ancestry resolver and the
      runtime

    A shallow embedding of [src/vite.ts] (compile-time injection of
    [data-solid-source] / [data-solid-component]) and of [src/inspector.ts]
    (run-time resolution of those attributes), with the properties the
    specification states about them, and of the runtime around them:
    [src/overlay.ts], [src/agent-bridge.ts] and [src/index.ts].

    Conventions of the embedding.
    - A JavaScript string is the list of its code units.  The embedding keeps
      the 8-bit code units U+0000..U+00FF ([ascii]); the few characters of
      the literals of the sources outside that range (the arrow of the
      report, the signs of badge and toasts) are written as their UTF-8 bytes
      and are only ever concatenated and compared as wholes.
    - The runtime is embedded by explicit state passing: a function takes
      the state it reads and returns the state it leaves, together with the
      list of the calls it makes outside that state; what the browser
      decides (layout, timer handles, sockets, the clock) is an argument.
    - Integer-valued Numbers are [Z].  This is exact while the values are
      integers a double holds and prints in plain decimal, so on all of
      absolute value at most 2^53; line and column numbers of a text are of
      that kind.  Where a property depends on what happens beyond, the
      module [IEEE] reads numbers with the rounding of doubles.
    - [null] / [undefined] is [None]. *)

From Stdlib Require Import ZArith NArith Ascii String List Lia.
From stdpp Require Import base option list gmap sets strings.
From Equations Require Import Equations.

#[local] Set Warnings "-register-all".
#[local] Open Scope list_scope.

(** ** JavaScript strings *)

Abbreviation jsstring := (list ascii) (only parsing).

(** String literals of the sources. *)
Definition js (s : string) : jsstring := list_ascii_of_string s.

(** The double quote and the line feed. *)
Definition dquote : ascii := "034"%char.
Definition newline : ascii := "010"%char.

Module Char.

Definition code (c : ascii) : N := N_of_ascii c.

Definition between (lo hi : N) (c : ascii) : bool :=
  ((lo <=? code c) && (code c <=? hi))%N.

Definition is_digit (c : ascii) : bool := between 48 57 c.
Definition is_upper (c : ascii) : bool := between 65 90 c.
Definition is_lower (c : ascii) : bool := between 97 122 c.

(** The regular-expression class [\w] (no [i] or [u] flag): [[A-Za-z0-9_]]. *)
Definition is_word (c : ascii) : bool :=
  is_upper c || is_lower c || is_digit c || (c =? "_")%char.

(** The class [\s], which is also the white space [parseInt] and [trim]
    strip: TAB, LF, VT, FF, CR, SP and NBSP among the 8-bit code units. *)
Definition is_space (c : ascii) : bool :=
  between 9 13 c || (c =? " ")%char || (code c =? 160)%N.

(** [String.prototype.toLowerCase] on one code unit: A-Z, and the Latin-1
    capitals U+00C0..U+00DE except the multiplication sign U+00D7. *)
Definition toLowerCase (c : ascii) : ascii :=
  if is_upper c || (between 192 222 c && negb (code c =? 215)%N)
  then ascii_of_N (code c + 32) else c.

End Char.

Module JS.

Fixpoint take_while (p : ascii → bool) (s : jsstring) : jsstring :=
  match s with
  | c :: s' => if p c then c :: take_while p s' else []
  | [] => []
  end.

Fixpoint drop_while (p : ascii → bool) (s : jsstring) : jsstring :=
  match s with
  | c :: s' => if p c then drop_while p s' else s
  | [] => []
  end.

(** [s.slice(a, b)] for non-negative [a] and [b]: the ends are clamped to
    the string, and the slice is empty when [b <= a]. *)
Definition slice (a b : nat) (s : jsstring) : jsstring :=
  take (b - a) (drop a s).

(** [s.slice(a)]. *)
Definition slice_from (a : nat) (s : jsstring) : jsstring := drop a s.

(** [s.split(sep)] for a one-character separator: never the empty array. *)
Fixpoint split (sep : ascii) (s : jsstring) : list jsstring :=
  match s with
  | [] => [[]]
  | c :: s' =>
      if (c =? sep)%char then [] :: split sep s'
      else match split sep s' with
           | field :: fields => (c :: field) :: fields
           | [] => [[c]]
           end
  end.

(** [parts.join(sep)]. *)
Fixpoint join (sep : jsstring) (parts : list jsstring) : jsstring :=
  match parts with
  | [] => []
  | [p] => p
  | p :: rest => p ++ sep ++ join sep rest
  end.

(** [parts.pop()]: the removed last element ([undefined] on the empty
    array) and the array that is left. *)
Definition pop {A} (parts : list A) : option A * list A :=
  (last parts, removelast parts).

(** [s.startsWith(p)]. *)
Fixpoint startsWith (p s : jsstring) : bool :=
  match p, s with
  | [], _ => true
  | a :: p', b :: s' => (a =? b)%char && startsWith p' s'
  | _ :: _, [] => false
  end.

(** [s.includes(p)]. *)
Fixpoint includes (p s : jsstring) : bool :=
  startsWith p s ||
  match s with
  | [] => false
  | _ :: s' => includes p s'
  end.

(** [s.trim()]. *)
Definition trim (s : jsstring) : jsstring :=
  reverse (drop_while Char.is_space (reverse (drop_while Char.is_space s))).

Definition toLowerCase (s : jsstring) : jsstring := map Char.toLowerCase s.

(** Truthiness of a string: [if (s)] holds for the non-empty ones. *)
Definition truthy (s : jsstring) : bool :=
  match s with [] => false | _ :: _ => true end.

(** *** Numbers *)

Definition digit_value (c : ascii) : Z := Z.of_N (Char.code c) - 48.

Definition digits_value (ds : jsstring) : Z :=
  fold_left (λ acc c, 10 * acc + digit_value c)%Z ds 0%Z.

(** [parseInt(s, 10)]: skip leading white space, read an optional sign,
    then the longest run of decimal digits; [NaN] ([None]) when that run is
    empty.  With the radix given as 10 no [0x] prefix is recognised.  The
    result here is the integer the digits denote, which is the Number
    [parseInt] returns as long as a double holds it; [IEEE.parseInt] adds
    the conversion to a double. *)
Definition parseInt (s : jsstring) : option Z :=
  let s1 := drop_while Char.is_space s in
  let '(sign, s2) :=
    match s1 with
    | c :: r =>
        if (c =? "-")%char then ((-1)%Z, r)
        else if (c =? "+")%char then (1%Z, r)
        else (1%Z, s1)
    | [] => (1%Z, s1)
    end in
  match take_while Char.is_digit s2 with
  | [] => None
  | ds => Some (sign * digits_value ds)%Z
  end.

(** [parseInt(x!, 10)] of a possibly [undefined] array element: the
    argument is converted to the string ["undefined"]. *)
Definition parseInt_arg (x : option jsstring) : option Z :=
  parseInt (default (js "undefined") x).

Definition digit_char (d : N) : ascii := ascii_of_N (48 + d).

(** The decimal digits of [n], most significant first, in front of [acc];
    [fuel] bounds the number of digits. *)
Fixpoint to_digits (fuel : nat) (n : N) (acc : jsstring) : jsstring :=
  let acc' := digit_char (n mod 10) :: acc in
  match fuel with
  | O => acc'
  | S fuel' => if (n <? 10)%N then acc' else to_digits fuel' (n / 10) acc'
  end.

(** [String(n)] ([`${n}`]) of an integer-valued Number of absolute value
    below 10^21: the plain decimal numeral.  From 10^21 on JavaScript prints
    the exponent form, which is not embedded. *)
Definition Number_toString (n : Z) : jsstring :=
  let digits := to_digits (N.to_nat (N.size (Z.abs_N n))) (Z.abs_N n) [] in
  if (n <? 0)%Z then "-"%char :: digits else digits.

End JS.

(** ** [src/types.ts] *)

Record SourceLocation := mkSourceLocation {
  file : jsstring;
  line : Z;
  column : Z;
}.

Record ComponentInfo := mkComponentInfo {
  name : jsstring;
  location : option SourceLocation;
}.

Definition ATTR_SOURCE : jsstring := js "data-solid-source".
Definition ATTR_COMPONENT : jsstring := js "data-solid-component".

(** The attribute value both sides agree on: the template
    [`${file}:${line}:${col}`] of the injector and of the report. *)
Definition formatLocation (f : jsstring) (l c : Z) : jsstring :=
  f ++ js ":" ++ JS.Number_toString l ++ js ":" ++ JS.Number_toString c.

(** ** [src/inspector.ts] *)

Module Inspector.

(** *** Parsing the attribute *)

Definition parseSourceAttr (value : option jsstring) : option SourceLocation :=
  match value with
  | None => None
  | Some value =>
      if negb (JS.truthy value) then None
      else
        let parts := JS.split ":" value in
        if length parts <? 3 then None
        else
          let '(c, parts) := JS.pop parts in
          let col := JS.parseInt_arg c in
          let '(l, parts) := JS.pop parts in
          let line := JS.parseInt_arg l in
          let file := JS.join (js ":") parts in
          match line, col with
          | Some line, Some col => Some (mkSourceLocation file line col)
          | _, _ => None
          end
  end.

Example parseSourceAttr_unix :
  parseSourceAttr (Some (js "src/App.tsx:12:5"))
  = Some (mkSourceLocation (js "src/App.tsx") 12 5).
Proof. reflexivity. Qed.

Example parseSourceAttr_windows :
  parseSourceAttr (Some (js "C:\src\App.tsx:42:8"))
  = Some (mkSourceLocation (js "C:\src\App.tsx") 42 8).
Proof. reflexivity. Qed.

Example Number_toString_samples :
  JS.Number_toString 0 = js "0" ∧ JS.Number_toString 42 = js "42" ∧
  JS.Number_toString (-7) = js "-7" ∧ JS.Number_toString 1000 = js "1000".
Proof. repeat split; reflexivity. Qed.

(** *** The DOM, as far as the resolver reads it

    An element with its attributes and its parent link.  [id] and
    [className] reflect the attributes [id] and [class]; [outerHTML] is the
    browser's serialisation, kept as a given string. *)

Inductive HTMLElement := mkHTMLElement {
  tagName : jsstring;
  outerHTML : jsstring;
  attributes : gmap jsstring jsstring;
  parentElement : option HTMLElement;
}.

Definition getAttribute (el : HTMLElement) (attr : jsstring) : option jsstring :=
  attributes el !! attr.

Definition id (el : HTMLElement) : jsstring :=
  default [] (getAttribute el (js "id")).

Definition className (el : HTMLElement) : jsstring :=
  default [] (getAttribute el (js "class")).

(** The walk [current = current.parentElement] visits these elements, the
    starting one first. *)
Fixpoint ancestors (el : HTMLElement) : list HTMLElement :=
  el :: match parentElement el with
        | Some p => ancestors p
        | None => []
        end.

(** *** Walking the DOM *)

Fixpoint findNearestSource (current : HTMLElement) : option SourceLocation :=
  let next :=
    match parentElement current with
    | Some p => findNearestSource p
    | None => None
    end in
  match getAttribute current ATTR_SOURCE with
  | Some attr => if JS.truthy attr then parseSourceAttr (Some attr) else next
  | None => next
  end.

Definition getElementSource (el : HTMLElement) : option SourceLocation :=
  parseSourceAttr (getAttribute el ATTR_SOURCE).

Fixpoint findNearestComponent (current : HTMLElement) : option jsstring :=
  let next :=
    match parentElement current with
    | Some p => findNearestComponent p
    | None => None
    end in
  match getAttribute current ATTR_COMPONENT with
  | Some name => if JS.truthy name then Some name else next
  | None => next
  end.

(** The deduplication key [`${name}:${source?.file}:${source?.line}`]; an
    absent source prints as [undefined] twice. *)
Definition chainKey (name : jsstring) (source : option SourceLocation) : jsstring :=
  name ++ js ":" ++
  match source with Some s => file s | None => js "undefined" end ++ js ":" ++
  match source with Some s => JS.Number_toString (line s) | None => js "undefined" end.

(** One turn of the [while (current)] loop of [getComponentChain]: the
    updated [chain] and [seen]. *)
Definition chainStep (current : HTMLElement)
    (st : list ComponentInfo * gset jsstring) : list ComponentInfo * gset jsstring :=
  let '(chain, seen) := st in
  match getAttribute current ATTR_COMPONENT with
  | Some name =>
      if JS.truthy name then
        let source := getElementSource current in
        let key := chainKey name source in
        if decide (key ∈ seen) then (chain, seen)
        else (chain ++ [mkComponentInfo name source], {[ key ]} ∪ seen)
      else (chain, seen)
  | None => (chain, seen)
  end.

Fixpoint getComponentChain_loop (current : HTMLElement)
    (st : list ComponentInfo * gset jsstring) : list ComponentInfo :=
  let st' := chainStep current st in
  match parentElement current with
  | Some p => getComponentChain_loop p st'
  | None => st'.1
  end.

Definition getComponentChain (el : HTMLElement) : list ComponentInfo :=
  getComponentChain_loop el ([], ∅).

(** *** The report *)

(** [`${attr}="${value}"`]. *)
Definition quotedAttr (attr value : jsstring) : jsstring :=
  attr ++ js "=" ++ [dquote] ++ value ++ [dquote].

Definition getElementSnippet (el : HTMLElement) (maxLen : nat) : jsstring :=
  let html := outerHTML el in
  if length html <=? maxLen then html
  else JS.slice 0 maxLen html ++ js "...".

Definition getElementSummary (el : HTMLElement) : jsstring :=
  let tag := JS.toLowerCase (tagName el) in
  let parts := [js "<" ++ tag] in
  let parts :=
    if JS.truthy (id el) then parts ++ [quotedAttr (js "id") (id el)] else parts in
  let cls := className el in
  let parts :=
    if JS.truthy cls then
      let trimmed := JS.trim cls in
      if length trimmed <=? 80 then parts ++ [quotedAttr (js "class") trimmed]
      else parts ++ [quotedAttr (js "class") (JS.slice 0 77 trimmed ++ js "...")]
    else parts in
  let parts :=
    match getAttribute el (js "data-testid") with
    | Some testId =>
        if JS.truthy testId then parts ++ [quotedAttr (js "data-testid") testId]
        else parts
    | None => parts
    end in
  JS.join (js " ") parts ++ js ">".

(** [Omit<GrabbedContext, "formatted">]. *)
Record PartialContext := mkPartialContext {
  element : HTMLElement;
  ctxTagName : jsstring;
  elementSource : option SourceLocation;
  components : list ComponentInfo;
  timestamp : Z;
}.

Record GrabbedContext := mkGrabbedContext {
  partial : PartialContext;
  formatted : jsstring;
}.

(** The arrow U+2192 of the report, as its UTF-8 bytes. *)
Definition arrow : jsstring := js "→".

Definition componentLine (comp : ComponentInfo) : jsstring :=
  let loc :=
    match location comp with
    | Some l => js " " ++ arrow ++ js " " ++ formatLocation (file l) (line l) (column l)
    | None => []
    end in
  js "  <" ++ name comp ++ js " />" ++ loc.

(** The array [lines] of [formatContext] just before it is joined. *)
Definition formatContext_lines (ctx : PartialContext) : list jsstring :=
  let lines := [js "--- solid-grab context ---"; []] in
  let lines := lines ++ [js "Element: " ++ getElementSummary (element ctx)] in
  let lines :=
    match elementSource ctx with
    | Some s => lines ++ [js "Source:  " ++ formatLocation (file s) (line s) (column s)]
    | None => lines
    end in
  let lines :=
    if 0 <? length (components ctx) then
      lines ++ [[]; js "Component tree (innermost " ++ arrow ++ js " outermost):"]
            ++ map componentLine (components ctx)
    else lines in
  let lines := lines ++ [[]; js "HTML:"; getElementSnippet (element ctx) 500] in
  lines ++ [[]; js "--- end solid-grab context ---"].

Definition formatContext (ctx : PartialContext) : jsstring :=
  JS.join [newline] (formatContext_lines ctx).

(** [inspect(el)]; [now] is the value [Date.now()] returns. *)
Definition inspect (now : Z) (el : HTMLElement) : GrabbedContext :=
  let elementSource :=
    match getElementSource el with
    | Some s => Some s
    | None => findNearestSource el
    end in
  let components := getComponentChain el in
  let partial :=
    mkPartialContext el (JS.toLowerCase (tagName el)) elementSource components now in
  mkGrabbedContext partial (formatContext partial).

End Inspector.

(** ** Numbers as doubles

    [parseInt] returns a double: the integer it read, rounded to 53
    significant bits, ties to the even neighbour, and an infinity from 2^1024
    on.  The licence of the language specification to read the digits after
    the twentieth as zeros is not used. *)

Module IEEE.

(** A Number that is not [NaN]: an integer-valued double or an infinity. *)
Inductive Number :=
  | Finite (n : Z)
  | Infinity (negative : bool).

(** The double nearest to the integer [n]. *)
Definition toNumber (n : Z) : Number :=
  let a := Z.abs n in
  let e := Z.max 0 (Z.log2 a - 52) in
  let q := (a / 2 ^ e)%Z in
  let r := (a mod 2 ^ e)%Z in
  let up := ((2 ^ e <? 2 * r) || ((2 * r =? 2 ^ e) && Z.odd q))%Z in
  let m := ((if up then q + 1 else q) * 2 ^ e)%Z in
  if (2 ^ 1024 <=? m)%Z then Infinity (n <? 0)%Z
  else Finite (Z.sgn n * m).

Definition parseInt (s : jsstring) : option Number := toNumber <$> JS.parseInt s.

Definition parseInt_arg (x : option jsstring) : option Number :=
  parseInt (default (js "undefined") x).

Record SourceLocation := mkSourceLocation {
  file : jsstring;
  line : Number;
  column : Number;
}.

(** [parseSourceAttr] of [src/inspector.ts], the numbers as doubles. *)
Definition parseSourceAttr (value : option jsstring) : option SourceLocation :=
  match value with
  | None => None
  | Some value =>
      if negb (JS.truthy value) then None
      else
        let parts := JS.split ":" value in
        if length parts <? 3 then None
        else
          let '(c, parts) := JS.pop parts in
          let col := parseInt_arg c in
          let '(l, parts) := JS.pop parts in
          let line := parseInt_arg l in
          let file := JS.join (js ":") parts in
          match line, col with
          | Some line, Some col => Some (mkSourceLocation file line col)
          | _, _ => None
          end
  end.

Example toNumber_samples :
  toNumber 42 = Finite 42
  ∧ toNumber (-7) = Finite (-7)
  ∧ toNumber (2 ^ 53) = Finite (2 ^ 53)
  ∧ toNumber (2 ^ 53 + 1) = Finite (2 ^ 53)
  ∧ toNumber (2 ^ 53 + 2) = Finite (2 ^ 53 + 2)
  ∧ toNumber (2 ^ 53 + 3) = Finite (2 ^ 53 + 4)
  ∧ toNumber (- (2 ^ 53 + 1)) = Finite (- 2 ^ 53)
  ∧ toNumber (10 ^ 21) = Finite (10 ^ 21)
  ∧ toNumber (10 ^ 23) = Finite 99999999999999991611392
  ∧ toNumber (2 ^ 1024 - 2 ^ 971) = Finite (2 ^ 1024 - 2 ^ 971)
  ∧ toNumber (2 ^ 1024 - 2 ^ 970) = Infinity false
  ∧ toNumber (- 10 ^ 400) = Infinity true.
Proof. repeat split; by vm_compute. Qed.

End IEEE.

(** ** [src/vite.ts] *)

Module Vite.

(** *** The candidate pattern [JSX_OPEN_TAG_RE]

    The pattern, with the global flag, is: a look-behind for no word
    character; group 1, [<] and a greedy run of [\s]; group 2, one of
    [[A-Z_a-z]] and a greedy run of [[\w.:-]]; group 3, one [\s], or an
    optional [/] and [>].  The two greedy classes are disjoint from what
    must follow them, so giving back characters of a run can never turn a
    failed attempt into a match: the matcher reads each run to its end and
    decides.  [ViteSpec.match_here_iff] proves that it finds exactly the
    texts of this form, with the only possible split into groups. *)

Record RegExpMatch := mkRegExpMatch {
  index : nat;
  prefix : jsstring;    (* group 1: [<] and the white space after it *)
  tagName : jsstring;   (* group 2 *)
  suffix : jsstring;    (* group 3: a white-space character, [/>] or [>] *)
}.

(** [match[0]]. *)
Definition fullMatch (m : RegExpMatch) : jsstring :=
  prefix m ++ tagName m ++ suffix m.

(** [[A-Z_a-z]]. *)
Definition is_tag_start (c : ascii) : bool :=
  Char.is_upper c || (c =? "_")%char || Char.is_lower c.

(** [[\w.:-]]. *)
Definition is_tag_char (c : ascii) : bool :=
  Char.is_word c || (c =? ".")%char || (c =? ":")%char || (c =? "-")%char.

(** The groups of a match that starts at the head of [s] (look-behind
    apart). *)
Definition match_here (s : jsstring) : option (jsstring * jsstring * jsstring) :=
  match s with
  | lt :: r =>
      if (lt =? "<")%char then
        let ws := JS.take_while Char.is_space r in
        match JS.drop_while Char.is_space r with
        | c :: r2 =>
            if is_tag_start c then
              let tag := c :: JS.take_while is_tag_char r2 in
              match JS.drop_while is_tag_char r2 with
              | d :: r4 =>
                  if Char.is_space d then Some (lt :: ws, tag, [d])
                  else if (d =? "/")%char then
                    match r4 with
                    | e :: _ => if (e =? ">")%char then Some (lt :: ws, tag, [d; e]) else None
                    | [] => None
                    end
                  else if (d =? ">")%char then Some (lt :: ws, tag, [d])
                  else None
              | [] => None
              end
            else None
        | [] => None
        end
      else None
  | [] => None
  end.

(** [(?<!\w)]: the character before the position, if any, is not a word
    character. *)
Definition lookbehind (prev : option ascii) : bool :=
  match prev with
  | Some c => negb (Char.is_word c)
  | None => true
  end.

(** The leftmost match at a position [>= i], where [s] is the text from [i]
    on and [prev] the character before it. *)
Fixpoint exec_from (prev : option ascii) (i : nat) (s : jsstring) : option RegExpMatch :=
  match (if lookbehind prev then match_here s else None) with
  | Some (p, t, x) => Some (mkRegExpMatch i p t x)
  | None =>
      match s with
      | c :: s' => exec_from (Some c) (S i) s'
      | [] => None
      end
  end.

(** [JSX_OPEN_TAG_RE.exec(code)] with the pattern's [lastIndex] as an
    argument; after a match the caller's next [lastIndex] is the end of it. *)
Definition exec (code : jsstring) (lastIndex : nat) : option RegExpMatch :=
  if length code <? lastIndex then None
  else
    exec_from (match lastIndex with O => None | S k => code !! k end)
              lastIndex (drop lastIndex code).

Definition matchEnd (m : RegExpMatch) : nat := index m + length (fullMatch m).

(** [COMPONENT_NAME_RE]: an upper-case first character, or a dot anywhere. *)
Definition COMPONENT_NAME_RE_test (tag : jsstring) : bool :=
  match tag with
  | c :: _ => Char.is_upper c
  | [] => false
  end || existsb (λ c, (c =? ".")%char) tag.

Definition JSX_PRECEDING_KEYWORDS : gset jsstring :=
  list_to_set [js "return"; js "yield"; js "case"; js "default"; js "else"].

(** *** [isLikelyJsx] *)

(** The four characters the backward scan skips. *)
Definition is_blank (c : ascii) : bool :=
  (c =? " ")%char || (c =? "009")%char || (c =? "010")%char || (c =? "013")%char.

(** The loop conditions on [code[i]], which is [undefined] out of range:
    [undefined] equals no character, and [/\w/.test(undefined)] tests the
    string ["undefined"]. *)
Definition blank_at (ch : option ascii) : bool :=
  match ch with Some c => is_blank c | None => false end.

Definition word_at (ch : option ascii) : bool :=
  match ch with Some c => Char.is_word c | None => true end.

(** [while (i >= 0 && p(code[i])) i--], on [k = i + 1]. *)
Fixpoint scan_back (p : option ascii → bool) (code : jsstring) (k : nat) : nat :=
  match k with
  | O => O
  | S i => if p (code !! i) then scan_back p code i else k
  end.

Definition is_closer (c : ascii) : bool :=
  (c =? ")")%char || (c =? "]")%char || (c =? dquote)%char
  || (c =? "'")%char || (c =? "`")%char.

Definition openers : jsstring := js "({[,;:?=!>&|+-*/%^~".

Definition is_opener (c : ascii) : bool := existsb (Ascii.eqb c) openers.

Definition isLikelyJsx (code : jsstring) (ltIndex : nat) : bool :=
  match scan_back blank_at code ltIndex with
  | O => true
  | S i =>
      let ch := code !! i in
      if from_option is_closer false ch then false
      else if from_option is_opener false ch then true
      else if word_at ch then
        let end_ := S i in
        let start := scan_back word_at code (S i) in
        let word := JS.slice start end_ code in
        bool_decide (word ∈ JSX_PRECEDING_KEYWORDS)
      else true
  end.

(** *** What a match of the pattern looks like *)

Lemma take_drop_while (p : ascii → bool) (s : jsstring) :
  JS.take_while p s ++ JS.drop_while p s = s.
Proof.
  induction s as [|c s IH]; simpl; [done|].
  destruct (p c); simpl; [by rewrite IH | done].
Qed.

Lemma match_here_shape s p t x :
  match_here s = Some (p, t, x) →
  ∃ rest, s = p ++ t ++ x ++ rest ∧ 0 < length p ∧ 0 < length t ∧ 0 < length x.
Proof.
  unfold match_here. destruct s as [|lt r]; [done|].
  destruct (lt =? "<")%char; [|done].
  pose proof (take_drop_while Char.is_space r) as Hr.
  destruct (JS.drop_while Char.is_space r) as [|c r2] eqn:Er; [done|].
  destruct (is_tag_start c); [|done].
  pose proof (take_drop_while is_tag_char r2) as Hr2.
  destruct (JS.drop_while is_tag_char r2) as [|d r4] eqn:Er2; [done|].
  assert (Hs : lt :: r = (lt :: JS.take_while Char.is_space r)
                  ++ (c :: JS.take_while is_tag_char r2) ++ d :: r4).
  { rewrite <- Hr at 1. rewrite <- Hr2 at 1. by simpl. }
  destruct (Char.is_space d).
  { intros [= <- <- <-]. exists r4. split; [exact Hs|]. simpl; lia. }
  destruct (d =? "/")%char.
  { destruct r4 as [|e r5]; [done|]. destruct (e =? ">")%char; [|done].
    intros [= <- <- <-]. exists r5. split; [exact Hs|]. simpl; lia. }
  destruct (d =? ">")%char; [|done].
  intros [= <- <- <-]. exists r4. split; [exact Hs|]. simpl; lia.
Qed.

#[local] Arguments match_here : simpl never.

Lemma exec_from_shape prev i s m :
  exec_from prev i s = Some m →
  ∃ pre rest, s = pre ++ fullMatch m ++ rest ∧ index m = i + length pre
              ∧ 0 < length (prefix m) ∧ 0 < length (tagName m)
              ∧ 0 < length (suffix m).
Proof.
  revert prev i. induction s as [|c s IH]; intros prev i; simpl.
  - destruct (lookbehind prev); simpl; done.
  - destruct (if lookbehind prev then match_here (c :: s) else None)
      as [[[p t] x]|] eqn:E.
    + intros [= <-]. destruct (lookbehind prev); [|done].
      apply match_here_shape in E as (rest & -> & Hp & Ht & Hx).
      exists [], rest. unfold fullMatch; simpl. rewrite <- !app_assoc.
      split; [done|]. split; [lia|done].
    + intros H. apply IH in H as (pre & rest & -> & Hi & Hlen).
      exists (c :: pre), rest. simpl. split; [done|]. split; [lia|done].
Qed.

(** A match lies inside the text, at or after [lastIndex], and is not
    empty: the next [lastIndex] is strictly larger. *)
Lemma exec_bounds code lastIndex m :
  exec code lastIndex = Some m →
  lastIndex ≤ index m ∧ index m < matchEnd m ∧ matchEnd m ≤ length code.
Proof.
  unfold exec, matchEnd. destruct (length code <? lastIndex) eqn:E; [done|].
  apply Nat.ltb_ge in E. intros H.
  apply exec_from_shape in H as (pre & rest & Hs & Hi & Hp & _).
  assert (Hl : length (drop lastIndex code) = length code - lastIndex)
    by apply length_drop.
  rewrite Hs in Hl. unfold fullMatch in *. rewrite !length_app in *. lia.
Qed.

(** *** [transformJsx] *)

Record Options := mkOptions {
  jsxLocation : bool;
  componentLocation : bool;
}.

(** [lineStarts]: offset 0 and the offset after every line feed. *)
Fixpoint lineStarts_from (i : nat) (s : jsstring) : list nat :=
  match s with
  | [] => []
  | c :: s' =>
      if (c =? newline)%char then S i :: lineStarts_from (S i) s'
      else lineStarts_from (S i) s'
  end.

Definition lineStarts (code : jsstring) : list nat := 0 :: lineStarts_from 0 code.

(** [lineStarts[mid]! <= offset]; a comparison with [undefined] is false. *)
Definition start_le (starts : list nat) (mid offset : nat) : bool :=
  match starts !! mid with
  | Some s => s <=? offset
  | None => false
  end.

(** The binary search of [getLineCol]; [(lo + hi + 1) >> 1] halves a sum
    that stays far below 2^31. *)
Equations? getLineCol_search (starts : list nat) (offset lo hi : nat) : nat
  by wf (hi - lo) lt :=
  getLineCol_search starts offset lo hi with decide (lo < hi) := {
    | left _ =>
        let mid := Nat.div2 (lo + hi + 1) in
        if start_le starts mid offset
        then getLineCol_search starts offset mid hi
        else getLineCol_search starts offset lo (mid - 1)
    | right _ => lo }.
Proof.
  all: pose proof (Nat.div2_odd (lo + hi + 1)) as Hd;
       destruct (Nat.odd (lo + hi + 1)); simpl in Hd; lia.
Qed.

Definition getLineCol (starts : list nat) (offset : nat) : Z * Z :=
  let lo := getLineCol_search starts offset 0 (length starts - 1) in
  let start := default 0 (starts !! lo) in
  (Z.of_nat lo + 1, Z.of_nat offset - Z.of_nat start + 1)%Z.

(** [fileId.replace(/^\//, "")]. *)
Definition shortFile (fileId : jsstring) : jsstring :=
  match fileId with
  | c :: rest => if (c =? "/")%char then rest else fileId
  | [] => []
  end.

(** The array [attrs] built for one confirmed tag. *)
Definition injectedAttrs (opts : Options) (file : jsstring) (line col : Z)
    (tag : jsstring) : list jsstring :=
  let isComponent := COMPONENT_NAME_RE_test tag in
  let attrs := [] in
  let attrs :=
    if jsxLocation opts
    then attrs ++ [Inspector.quotedAttr ATTR_SOURCE (formatLocation file line col)]
    else attrs in
  if componentLocation opts && isComponent
  then attrs ++ [Inspector.quotedAttr ATTR_COMPONENT tag]
  else attrs.

Section transformJsx.

Variables (code fileId : jsstring) (opts : Options).

(** The body of the [while] loop, on the pair [(result, lastIndex)]. *)
Definition loopBody (m : RegExpMatch) (st : jsstring * nat) : jsstring * nat :=
  let '(result, lastIndex) := st in
  let offset := index m in
  if negb (isLikelyJsx code offset) then (result, lastIndex)
  else
    let '(line, col) := getLineCol (lineStarts code) offset in
    let attrs := injectedAttrs opts (shortFile fileId) line col (tagName m) in
    if length attrs =? 0 then
      (result ++ JS.slice lastIndex (index m + length (fullMatch m)) code,
       index m + length (fullMatch m))
    else
      let attrStr := js " " ++ JS.join (js " ") attrs in
      (result ++ JS.slice lastIndex (index m) code
              ++ prefix m ++ tagName m ++ attrStr ++ suffix m,
       index m + length (fullMatch m)).

Definition exec_eqn (re_lastIndex : nat) :
  { r : option RegExpMatch | exec code re_lastIndex = r } :=
  exist _ (exec code re_lastIndex) eq_refl.

(** [while ((match = JSX_OPEN_TAG_RE.exec(code)) !== null) { ... }] and the
    final [result += code.slice(lastIndex)]; [re_lastIndex] is the
    pattern's own [lastIndex]. *)
Equations? transformJsx_loop (re_lastIndex : nat) (st : jsstring * nat) : jsstring
  by wf (length code - re_lastIndex) lt :=
  transformJsx_loop re_lastIndex st with exec_eqn re_lastIndex := {
    | exist _ (Some m) Hm => transformJsx_loop (matchEnd m) (loopBody m st)
    | exist _ None _ => st.1 ++ JS.slice_from st.2 code }.
Proof. apply exec_bounds in Hm. lia. Qed.

Definition transformJsx : jsstring := transformJsx_loop 0 ([], 0).

End transformJsx.

(** *** The plugin *)

(** [SolidGrabPluginOptions]: every field may be left out. *)
Record SolidGrabPluginOptions := mkPluginOptions {
  opt_jsxLocation : option bool;
  opt_componentLocation : option bool;
  opt_autoImport : option bool;
}.

(** What Vite passes to [configResolved]. *)
Record ResolvedConfig := mkResolvedConfig {
  root : jsstring;
  command : jsstring;
  mode : jsstring;
}.

(** The variables the hooks of one plugin instance close over. *)
Record Plugin := mkPlugin {
  options : Options;
  autoImport : bool;
  projectRoot : jsstring;
  isDev : bool;
}.

(** [solidGrab(options)]: the defaults are all [true]. *)
Definition solidGrab (o : SolidGrabPluginOptions) : Plugin :=
  mkPlugin (mkOptions (default true (opt_jsxLocation o))
                      (default true (opt_componentLocation o)))
           (default true (opt_autoImport o)) [] false.

Definition jsstring_eqb (a b : jsstring) : bool := bool_decide (a = b).

Definition configResolved (config : ResolvedConfig) (p : Plugin) : Plugin :=
  mkPlugin (options p) (autoImport p) (root config)
           (jsstring_eqb (command config) (js "serve")
            || jsstring_eqb (mode config) (js "development")).

(** [s.endsWith(p)]. *)
Definition endsWith (p s : jsstring) : bool :=
  JS.startsWith (reverse p) (reverse s).

(** The test of [id] against the pattern for a [.jsx] / [.tsx] ending. *)
Definition isJsxFile (id : jsstring) : bool :=
  endsWith (js ".jsx") id || endsWith (js ".tsx") id.

(** The [transform] hook: [None] is the [null] that tells Vite nothing
    changed, [Some code'] the object [{ code: code', map: null }]. *)
Definition transform (p : Plugin) (code id : jsstring) : option jsstring :=
  if negb (isDev p) then None
  else if negb (isJsxFile id) then None
  else if JS.includes (js "node_modules") id then None
  else
    let relativePath :=
      if JS.startsWith (projectRoot p) id
      then JS.slice_from (length (projectRoot p) + 1) id
      else id in
    let transformed := transformJsx code relativePath (options p) in
    if jsstring_eqb transformed code then None
    else Some transformed.

End Vite.

(** *** The other hooks of the plugin *)

Module ViteHooks.
Import Vite.

Definition VIRTUAL_INIT : jsstring := js "virtual:solid-grab-init".
Definition RESOLVED_VIRTUAL_INIT : jsstring := "000"%char :: VIRTUAL_INIT.

Definition resolveId (id : jsstring) : option jsstring :=
  if jsstring_eqb id VIRTUAL_INIT then Some RESOLVED_VIRTUAL_INIT else None.

(** The module text [import "solid-grab";]. *)
Definition RUNTIME_IMPORT : jsstring :=
  js "import " ++ [dquote] ++ js "solid-grab" ++ [dquote] ++ js ";".

Definition load (id : jsstring) : option jsstring :=
  if jsstring_eqb id RESOLVED_VIRTUAL_INIT then Some RUNTIME_IMPORT else None.

(** The middleware of [configureServer]: what it makes of [req.url] before
    it calls [next()]. *)
Definition middleware (url : option jsstring) : option jsstring :=
  match url with
  | Some u =>
      if jsstring_eqb u (js "/@solid-grab/init")
      then Some (js "/@id/" ++ VIRTUAL_INIT)
      else Some u
  | None => None
  end.

Record HtmlTagDescriptor := mkHtmlTagDescriptor {
  tag : jsstring;
  attrs : list (jsstring * jsstring);
  injectTo : jsstring;
}.

Definition transformIndexHtml (p : Plugin) : option (list HtmlTagDescriptor) :=
  if negb (autoImport p) || negb (isDev p) then None
  else
    Some [mkHtmlTagDescriptor (js "script")
            [(js "type", js "module"); (js "src", js "/@solid-grab/init")]
            (js "head")].

End ViteHooks.

(** ** Timers of the browser

    [setTimeout] returns a handle, an object or a positive number, which is
    truthy either way; a field that holds a handle or [null] is an
    [option]. *)

Module Timers.

Definition Timer := nat.

Inductive Call :=
| clearTimeout (t : Timer)
| setTimeout (t : Timer) (delay : Z).

(** The timers that are pending, each with its delay, after a call. *)
Definition run (pending : list (Timer * Z)) (c : Call) : list (Timer * Z) :=
  match c with
  | clearTimeout t => filter (λ p, p.1 ≠ t) pending
  | setTimeout t delay => pending ++ [(t, delay)]
  end.

End Timers.

(** ** [src/overlay.ts] *)

Module Overlay.
Import Inspector Timers.

(** The coordinates of the layout are doubles.  The class adds, subtracts
    and compares them and appends [px] to their decimal form; the embedding
    leaves the type of these Numbers open and fixes the operations used. *)
Class JSNumber (N : Type) := {
  num : Z → N;
  plus : N → N → N;
  minus : N → N → N;
  lt : N → N → bool;
  toString : N → jsstring;
}.

(** The integers are one such type, exact while all values are safe
    integers. *)
#[export] Instance Z_JSNumber : JSNumber Z := {|
  num := λ z, z;
  plus := Z.add;
  minus := Z.sub;
  lt := Z.ltb;
  toString := JS.Number_toString;
|}.

(** [a > b] compares as [b < a]; [n + "px"]. *)
Definition gt `{JSNumber Num} (a b : Num) : bool := lt b a.
Definition px `{JSNumber Num} (n : Num) : jsstring := toString n ++ js "px".

Module DOMRect.
Record t (N : Type) := mk {
  top : N;
  left : N;
  bottom : N;
  width : N;
  height : N;
}.
Arguments mk {N}.
Arguments top {N}.
Arguments left {N}.
Arguments bottom {N}.
Arguments width {N}.
Arguments height {N}.
End DOMRect.

(** What the methods read from the layout of the page:
    [el.getBoundingClientRect()], [tooltipEl.offsetWidth] for the markup the
    tooltip holds, and [window.innerWidth]. *)
Record Layout (N : Type) := mkLayout {
  getBoundingClientRect : HTMLElement → DOMRect.t N;
  offsetWidth : jsstring → N;
  innerWidth : N;
}.
Arguments mkLayout {N}.
Arguments getBoundingClientRect {N}.
Arguments offsetWidth {N}.
Arguments innerWidth {N}.

(** The properties of an inline style the class assigns, each holding the
    text last assigned to it; the empty string is a property never set. *)
Module Style.
Record t := mk {
  display : jsstring;
  top : jsstring;
  left : jsstring;
  width : jsstring;
  height : jsstring;
}.
Definition unset : t := mk [] [] [] [] [].
Definition set_display (v : jsstring) (s : t) : t :=
  mk v (top s) (left s) (width s) (height s).
End Style.

(** An [Overlay] object: the state of its elements that the methods write
    after the constructor, and its two private fields.  [ident] is the
    identity of the object; its five elements are the nodes
    [OverlayNode ident part].  The class names of the elements and the text of
    the style sheet are constants. *)
Record t := mk {
  ident : nat;
  overlayEl_style : Style.t;
  tooltipEl_innerHTML : jsstring;
  tooltipEl_style : Style.t;
  toastEl_textContent : jsstring;
  toastEl_classList : list jsstring;
  badgeEl_textContent : jsstring;
  toastTimeout : option Timer;
  _mounted : bool;
}.

Definition set_overlayEl_style (v : Style.t) (o : t) : t :=
  mk (ident o) v (tooltipEl_innerHTML o) (tooltipEl_style o)
     (toastEl_textContent o) (toastEl_classList o) (badgeEl_textContent o)
     (toastTimeout o) (_mounted o).
Definition set_tooltipEl_innerHTML (v : jsstring) (o : t) : t :=
  mk (ident o) (overlayEl_style o) v (tooltipEl_style o)
     (toastEl_textContent o) (toastEl_classList o) (badgeEl_textContent o)
     (toastTimeout o) (_mounted o).
Definition set_tooltipEl_style (v : Style.t) (o : t) : t :=
  mk (ident o) (overlayEl_style o) (tooltipEl_innerHTML o) v
     (toastEl_textContent o) (toastEl_classList o) (badgeEl_textContent o)
     (toastTimeout o) (_mounted o).
Definition set_toastEl_textContent (v : jsstring) (o : t) : t :=
  mk (ident o) (overlayEl_style o) (tooltipEl_innerHTML o) (tooltipEl_style o)
     v (toastEl_classList o) (badgeEl_textContent o)
     (toastTimeout o) (_mounted o).
Definition set_toastEl_classList (v : list jsstring) (o : t) : t :=
  mk (ident o) (overlayEl_style o) (tooltipEl_innerHTML o) (tooltipEl_style o)
     (toastEl_textContent o) v (badgeEl_textContent o)
     (toastTimeout o) (_mounted o).
Definition set_badgeEl_textContent (v : jsstring) (o : t) : t :=
  mk (ident o) (overlayEl_style o) (tooltipEl_innerHTML o) (tooltipEl_style o)
     (toastEl_textContent o) (toastEl_classList o) v
     (toastTimeout o) (_mounted o).
Definition set_toastTimeout (v : option Timer) (o : t) : t :=
  mk (ident o) (overlayEl_style o) (tooltipEl_innerHTML o) (tooltipEl_style o)
     (toastEl_textContent o) (toastEl_classList o) (badgeEl_textContent o)
     v (_mounted o).
Definition set__mounted (v : bool) (o : t) : t :=
  mk (ident o) (overlayEl_style o) (tooltipEl_innerHTML o) (tooltipEl_style o)
     (toastEl_textContent o) (toastEl_classList o) (badgeEl_textContent o)
     (toastTimeout o) v.

(** The text of the badge at rest; its first character, U+26A1, is written
    as its UTF-8 bytes. *)
Definition BADGE : jsstring := js "⚡ solid-grab".

(** [new Overlay()]. *)
Definition new (ident : nat) : t :=
  mk ident
     (Style.set_display (js "none") Style.unset)
     []
     (Style.set_display (js "none") Style.unset)
     []
     [js "solid-grab-toast"]
     BADGE
     None
     false.

(** *** The document

    The children of [document.head] and of [document.body]: nodes of the
    page, and the elements of overlays. *)
Inductive Part := styleEl | overlayEl | tooltipEl | toastEl | badgeEl.

Inductive Node :=
| PageNode (n : nat)
| OverlayNode (owner : nat) (part : Part).

#[export] Instance Part_eq_dec : EqDecision Part.
Proof. solve_decision. Defined.
#[export] Instance Node_eq_dec : EqDecision Node.
Proof. solve_decision. Defined.

Record Document := mkDocument {
  headNodes : list Node;
  bodyNodes : list Node;
}.

(** [node.remove()]: the node leaves its parent, if it has one. *)
Definition remove (n : Node) (d : Document) : Document :=
  mkDocument (filter (λ x, x ≠ n) (headNodes d)) (filter (λ x, x ≠ n) (bodyNodes d)).

(** [appendChild] takes the node from where it is and makes it the last
    child. *)
Definition head_appendChild (n : Node) (d : Document) : Document :=
  let d := remove n d in mkDocument (headNodes d ++ [n]) (bodyNodes d).
Definition body_appendChild (n : Node) (d : Document) : Document :=
  let d := remove n d in mkDocument (headNodes d) (bodyNodes d ++ [n]).

Definition mount (o : t) (d : Document) : t * Document :=
  if _mounted o then (o, d)
  else
    let o := set__mounted true o in
    let d := head_appendChild (OverlayNode (ident o) styleEl) d in
    let d := body_appendChild (OverlayNode (ident o) overlayEl) d in
    let d := body_appendChild (OverlayNode (ident o) tooltipEl) d in
    let d := body_appendChild (OverlayNode (ident o) toastEl) d in
    let d := body_appendChild (OverlayNode (ident o) badgeEl) d in
    (o, d).

Definition unmount (o : t) (d : Document) : t * Document :=
  if negb (_mounted o) then (o, d)
  else
    let o := set__mounted false o in
    let d := remove (OverlayNode (ident o) styleEl) d in
    let d := remove (OverlayNode (ident o) overlayEl) d in
    let d := remove (OverlayNode (ident o) tooltipEl) d in
    let d := remove (OverlayNode (ident o) toastEl) d in
    let d := remove (OverlayNode (ident o) badgeEl) d in
    (o, d).

(** *** Highlight and tooltip *)

Definition highlight `{JSNumber Num} (L : Layout Num) (o : t) (el : HTMLElement) : t :=
  let rect := getBoundingClientRect L el in
  set_overlayEl_style
    (Style.mk (js "block")
       (px (DOMRect.top rect)) (px (DOMRect.left rect))
       (px (DOMRect.width rect)) (px (DOMRect.height rect)))
    o.

Definition clearHighlight (o : t) : t :=
  let o := set_overlayEl_style (Style.set_display (js "none") (overlayEl_style o)) o in
  set_tooltipEl_style (Style.set_display (js "none") (tooltipEl_style o)) o.

(** [<span class="c">]. *)
Definition span (class : jsstring) : jsstring :=
  js "<span class=" ++ [dquote] ++ class ++ [dquote] ++ js ">".

(** The markup of the tooltip. *)
Definition tooltipHtml (el : HTMLElement) (source : option SourceLocation)
    (componentName : option jsstring) : jsstring :=
  let tag := JS.toLowerCase (tagName el) in
  let html := span (js "sg-tag") ++ js "&lt;" ++ tag ++ js "&gt;</span>" in
  let html :=
    match componentName with
    | Some c =>
        if JS.truthy c
        then span (js "sg-component") ++ js "&lt;" ++ c ++ js " /&gt;</span> "
             ++ arrow ++ js " " ++ html
        else html
    | None => html
    end in
  match source with
  | Some s =>
      html ++ js " " ++ span (js "sg-file") ++ file s ++ js ":"
           ++ JS.Number_toString (line s) ++ js "</span>"
  | None => html
  end.

Definition showTooltip `{JSNumber Num} (L : Layout Num) (o : t) (el : HTMLElement)
    (source : option SourceLocation) (componentName : option jsstring) : t :=
  let rect := getBoundingClientRect L el in
  let html := tooltipHtml el source componentName in
  let o := set_tooltipEl_innerHTML html o in
  let o := set_tooltipEl_style (Style.set_display (js "block") (tooltipEl_style o)) o in
  let tooltipHeight := num 32 in
  let gap := num 8 in
  let top := minus (minus (DOMRect.top rect) tooltipHeight) gap in
  let top := if lt top (num 4) then plus (DOMRect.bottom rect) gap else top in
  let left := DOMRect.left rect in
  let tooltipWidth := offsetWidth L html in
  let left :=
    if gt (plus left tooltipWidth) (minus (innerWidth L) (num 8))
    then minus (minus (innerWidth L) tooltipWidth) (num 8)
    else left in
  let left := if lt left (num 4) then num 4 else left in
  let s := tooltipEl_style o in
  set_tooltipEl_style
    (Style.mk (Style.display s) (px top) (px left) (Style.width s) (Style.height s))
    o.

(** *** Toast and badge *)

(** [classList.add] and [classList.remove] of one token. *)
Definition classList_add (c : jsstring) (l : list jsstring) : list jsstring :=
  if decide (c ∈ l) then l else l ++ [c].
Definition classList_remove (c : jsstring) (l : list jsstring) : list jsstring :=
  filter (λ x, x ≠ c) l.

(** [toast(message, duration)]; [timerId] is the handle [setTimeout] returns.
    The result lists the calls made to the timer functions. *)
Definition toast (o : t) (message : jsstring) (duration : option Z) (timerId : Timer)
    : t * list Call :=
  let duration := default 2000%Z duration in
  let cleared :=
    match toastTimeout o with
    | Some t0 => [clearTimeout t0]
    | None => []
    end in
  let o := set_toastEl_textContent message o in
  let o := set_toastEl_classList (classList_add (js "sg-visible") (toastEl_classList o)) o in
  let o := set_toastTimeout (Some timerId) o in
  (o, cleared ++ [setTimeout timerId duration]).

(** The callback [toast] hands to [setTimeout]. *)
Definition toastExpired (o : t) : t :=
  let o := set_toastEl_classList (classList_remove (js "sg-visible") (toastEl_classList o)) o in
  set_toastTimeout None o.

Definition setBadge (o : t) (text : jsstring) : t :=
  set_badgeEl_textContent text o.

End Overlay.

(** ** [src/agent-bridge.ts] *)

Module AgentBridge.
Import Inspector Timers.

(** A [WebSocket] object, by its identity, and its [readyState]. *)
Definition Socket := nat.

Inductive ReadyState := CONNECTING | OPEN | CLOSING | CLOSED.

#[export] Instance ReadyState_eq_dec : EqDecision ReadyState.
Proof. solve_decision. Defined.

Record t := mk {
  ws : option Socket;
  url : jsstring;
  reconnectTimer : option Timer;
  _connected : bool;
}.

(** The object [send] hands to [JSON.stringify]: [type] is
    [solid-grab:context], [payload] is the context without its element. *)
Record Payload := mkPayload {
  tagName : jsstring;
  elementSource : option SourceLocation;
  components : list ComponentInfo;
  formatted : jsstring;
  timestamp : Z;
}.

(** What the methods call outside the object. *)
Inductive Call :=
| new_WebSocket (s : Socket) (url : jsstring)
| console_warn (url : jsstring)
| console_log (url : jsstring)
| close (s : Socket)
| send_json (s : Socket) (type : jsstring) (payload : Payload)
| timer (c : Timers.Call).

(** [new AgentBridge(url)]. *)
Definition new (url : jsstring) : t := mk None url None false.

Definition connected (b : t) : bool := _connected b.

(** [connect()]; [socket] is the object [new WebSocket(url)] returns, or
    [None] when the constructor throws. *)
Definition connect (b : t) (socket : option Socket) : t * list Call :=
  match ws b with
  | Some _ => (b, [])
  | None =>
      match socket with
      | Some s => (mk (Some s) (url b) (reconnectTimer b) (_connected b),
                   [new_WebSocket s (url b)])
      | None => (b, [console_warn (url b)])
      end
  end.

(** The three handlers [connect] puts on the socket.  They refer to the
    bridge, not to the socket they are on. *)
Definition onopen (b : t) : t * list Call :=
  (mk (ws b) (url b) (reconnectTimer b) true, [console_log (url b)]).

Definition onclose (b : t) (timerId : Timer) : t * list Call :=
  (mk None (url b) (Some timerId) false, [timer (setTimeout timerId 3000)]).

Definition onerror (b : t) : t * list Call :=
  (b, match ws b with Some s => [close s] | None => [] end).

Definition disconnect (b : t) : t * list Call :=
  let cleared :=
    match reconnectTimer b with
    | Some t => [timer (clearTimeout t)]
    | None => []
    end in
  let closed :=
    match ws b with
    | Some s => [close s]
    | None => []
    end in
  (mk None (url b) None false, cleared ++ closed).

(** [send(context)]; [readyState] is the state of the sockets when it is
    called. *)
Definition send (b : t) (readyState : Socket → ReadyState) (context : GrabbedContext)
    : list Call :=
  match ws b with
  | Some s =>
      if decide (readyState s = OPEN) then
        let c := partial context in
        [send_json s (js "solid-grab:context")
           (mkPayload (ctxTagName c) (Inspector.elementSource c) (Inspector.components c)
              (Inspector.formatted context) (Inspector.timestamp c))]
      else []
  | None => []
  end.

(** *** The sockets and timers of a bridge

    The bridge together with the state of the sockets it has made and the
    timers it has set. *)
Record World := mkWorld {
  bridge : t;
  sockets : gmap Socket ReadyState;
  timers : list (Timer * Z);
}.

(** The effect of a call: a new socket is connecting; [close()] puts a
    socket that is connecting or open into the closing state, from which the
    browser fires its close event later, and does nothing to one that is
    closing or closed. *)
Definition run (w : gmap Socket ReadyState * list (Timer * Z)) (c : Call)
    : gmap Socket ReadyState * list (Timer * Z) :=
  match c with
  | new_WebSocket s _ => (<[s := CONNECTING]> (w.1), w.2)
  | close s =>
      match w.1 !! s with
      | Some CONNECTING | Some OPEN => (<[s := CLOSING]> (w.1), w.2)
      | _ => w
      end
  | timer c => (w.1, Timers.run (w.2) c)
  | console_warn _ | console_log _ | send_json _ _ _ => w
  end.

Definition after (w : World) (r : t * list Call) : World :=
  let e := foldl run (sockets w, timers w) (r.2) in
  mkWorld (r.1) (e.1) (e.2).

(** The calls of the owner of the bridge. *)
Definition call_connect (w : World) (socket : option Socket) : World :=
  after w (connect (bridge w) socket).
Definition call_disconnect (w : World) : World :=
  after w (disconnect (bridge w)).

(** The events of the browser: a connecting socket opens and runs
    [onopen]; a socket that is not yet closed closes and runs [onclose]; a
    pending timer fires and runs [connect]. *)
Definition socket_opens (w : World) (s : Socket) : World :=
  after (mkWorld (bridge w) (<[s := OPEN]> (sockets w)) (timers w)) (onopen (bridge w)).
Definition socket_closes (w : World) (s : Socket) (t : Timer) : World :=
  after (mkWorld (bridge w) (<[s := CLOSED]> (sockets w)) (timers w)) (onclose (bridge w) t).
Definition timer_fires (w : World) (t : Timer) (socket : option Socket) : World :=
  after (mkWorld (bridge w) (sockets w) (filter (λ p, p.1 ≠ t) (timers w)))
        (connect (bridge w) socket).

(** Two more events: the error event of a socket runs [onerror]; an open
    socket starts closing because the server closes it. *)
Definition socket_errors (w : World) : World :=
  after w (onerror (bridge w)).
Definition socket_closing (w : World) (s : Socket) : World :=
  mkWorld (bridge w) (<[s := CLOSING]> (sockets w)) (timers w).

(** A bridge as [bootstrap] makes it: constructed and connected once. *)
Definition started (url : jsstring) (socket : option Socket) : World :=
  call_connect (mkWorld (new url) ∅ []) socket.

End AgentBridge.

(** ** [src/index.ts] *)

Module Runtime.
Import Inspector Timers.
Export Overlay(JSNumber, Layout).

(** *** Options *)

(** What [onGrab] returns: [false], or anything else. *)
Inductive GrabReturn := returns_false | returns_other.

Module SolidGrabOptions.
Record t := mk {
  key : option jsstring;
  onGrab : option (GrabbedContext → GrabReturn);
  agentUrl : option jsstring;
  showToast : option bool;
}.
(** [{}], the default of the parameter of [initSolidGrab]. *)
Definition empty : t := mk None None None None.
End SolidGrabOptions.

(** The module variable [opts]. *)
Module Opts.
Record t := mk {
  key : jsstring;
  showToast : bool;
  onGrab : option (GrabbedContext → GrabReturn);
  agentUrl : option jsstring;
}.
End Opts.

(** *** Events and listeners *)

Module KeyboardEvent.
Record t := mk { key : jsstring }.
End KeyboardEvent.

(** The target of an event: an [HTMLElement], or something else. *)
Inductive EventTarget :=
| element (el : HTMLElement)
| other.

Module MouseEvent.
Record t := mk { target : option EventTarget }.
End MouseEvent.

(** The functions of the module that are registered as listeners. *)
Inductive Callback :=
| cb_onKeyDown | cb_onKeyUp | cb_onMouseMove | cb_onMouseDown | cb_onBlur
| cb_bootstrap.

Inductive ListenerTarget := on_document | on_window.

Record Listener := mkListener {
  on : ListenerTarget;
  type : jsstring;
  callback : Callback;
  capture : bool;
}.

#[export] Instance Callback_eq_dec : EqDecision Callback.
Proof. solve_decision. Defined.
#[export] Instance ListenerTarget_eq_dec : EqDecision ListenerTarget.
Proof. solve_decision. Defined.
#[export] Instance Listener_eq_dec : EqDecision Listener.
Proof. solve_decision. Defined.

(** A listener is added once however often it is registered. *)
Definition addEventListener (l : Listener) (ls : list Listener) : list Listener :=
  if decide (l ∈ ls) then ls else ls ++ [l].
Definition removeEventListener (l : Listener) (ls : list Listener) : list Listener :=
  filter (λ x, x ≠ l) ls.

Definition keydown_listener := mkListener on_document (js "keydown") cb_onKeyDown true.
Definition keyup_listener := mkListener on_document (js "keyup") cb_onKeyUp true.
Definition mousemove_listener := mkListener on_document (js "mousemove") cb_onMouseMove true.
Definition mousedown_listener := mkListener on_document (js "mousedown") cb_onMouseDown true.
Definition blur_listener := mkListener on_window (js "blur") cb_onBlur false.
Definition DOMContentLoaded_listener :=
  mkListener on_document (js "DOMContentLoaded") cb_bootstrap false.

(** *** The state

    The variables of the module, and the state of the browser the module
    reads and writes: whether [document.readyState] is [loading], the
    listeners of the module, [document.body.style.cursor], and the children
    of head and body.  [objects] counts the [Overlay] objects made so far and
    so names the next one. *)
Record World := mkWorld {
  initialized : bool;
  overlay : option Overlay.t;
  bridge : option AgentBridge.t;
  opts : option Opts.t;
  keyHeld : bool;
  hoveredEl : option HTMLElement;
  loading : bool;
  listeners : list Listener;
  cursor : jsstring;
  document : Overlay.Document;
  objects : nat;
}.

Definition set_initialized (v : bool) (w : World) : World :=
  mkWorld v (overlay w) (bridge w) (opts w) (keyHeld w) (hoveredEl w)
    (loading w) (listeners w) (cursor w) (document w) (objects w).
Definition set_overlay (v : option Overlay.t) (w : World) : World :=
  mkWorld (initialized w) v (bridge w) (opts w) (keyHeld w) (hoveredEl w)
    (loading w) (listeners w) (cursor w) (document w) (objects w).
Definition set_bridge (v : option AgentBridge.t) (w : World) : World :=
  mkWorld (initialized w) (overlay w) v (opts w) (keyHeld w) (hoveredEl w)
    (loading w) (listeners w) (cursor w) (document w) (objects w).
Definition set_opts (v : option Opts.t) (w : World) : World :=
  mkWorld (initialized w) (overlay w) (bridge w) v (keyHeld w) (hoveredEl w)
    (loading w) (listeners w) (cursor w) (document w) (objects w).
Definition set_keyHeld (v : bool) (w : World) : World :=
  mkWorld (initialized w) (overlay w) (bridge w) (opts w) v (hoveredEl w)
    (loading w) (listeners w) (cursor w) (document w) (objects w).
Definition set_hoveredEl (v : option HTMLElement) (w : World) : World :=
  mkWorld (initialized w) (overlay w) (bridge w) (opts w) (keyHeld w) v
    (loading w) (listeners w) (cursor w) (document w) (objects w).
Definition set_loading (v : bool) (w : World) : World :=
  mkWorld (initialized w) (overlay w) (bridge w) (opts w) (keyHeld w) (hoveredEl w)
    v (listeners w) (cursor w) (document w) (objects w).
Definition set_listeners (v : list Listener) (w : World) : World :=
  mkWorld (initialized w) (overlay w) (bridge w) (opts w) (keyHeld w) (hoveredEl w)
    (loading w) v (cursor w) (document w) (objects w).
Definition set_cursor (v : jsstring) (w : World) : World :=
  mkWorld (initialized w) (overlay w) (bridge w) (opts w) (keyHeld w) (hoveredEl w)
    (loading w) (listeners w) v (document w) (objects w).
Definition set_document (v : Overlay.Document) (w : World) : World :=
  mkWorld (initialized w) (overlay w) (bridge w) (opts w) (keyHeld w) (hoveredEl w)
    (loading w) (listeners w) (cursor w) v (objects w).
Definition set_objects (v : nat) (w : World) : World :=
  mkWorld (initialized w) (overlay w) (bridge w) (opts w) (keyHeld w) (hoveredEl w)
    (loading w) (listeners w) (cursor w) (document w) v.

(** What a function of the module calls outside the state. *)
Inductive Effect :=
| preventDefault
| stopPropagation
| call_onGrab (context : GrabbedContext)
| clipboard_writeText (text : jsstring)
| timer (c : Timers.Call)
| socket (c : AgentBridge.Call)
| console_log (text : jsstring).

(** A function of the module returns the new state and its calls, or
    [None] when it throws because it reads a property of a variable that is
    still [undefined]. *)
Definition Result := option (World * list Effect).

(** *** Key handling *)

Definition isActivationKey (w : World) (e : KeyboardEvent.t) : option bool :=
  o ← opts w;
  let pressed k := bool_decide (KeyboardEvent.key e = js k) in
  Some (if decide (Opts.key o = js "Alt") then pressed "Alt"
        else if decide (Opts.key o = js "Control") then pressed "Control"
        else if decide (Opts.key o = js "Meta") then pressed "Meta"
        else if decide (Opts.key o = js "Shift") then pressed "Shift"
        else pressed "Alt").

Definition highlightElement `{JSNumber Num} (L : Layout Num) (w : World) (el : HTMLElement)
    : option World :=
  o ← overlay w;
  let o := Overlay.highlight L o el in
  let source := findNearestSource el in
  let component := findNearestComponent el in
  let o := Overlay.showTooltip L o el source component in
  Some (set_overlay (Some o) w).

Definition onKeyDown `{JSNumber Num} (L : Layout Num) (w : World) (e : KeyboardEvent.t)
    : Result :=
  a ← isActivationKey w e;
  if negb a then Some (w, [])
  else
    let w := set_keyHeld true w in
    o ← overlay w;
    k ← opts w;
    let w :=
      set_overlay
        (Some (Overlay.setBadge o (Overlay.BADGE ++ js " [" ++ Opts.key k ++ js "]"))) w in
    let w := set_cursor (js "crosshair") w in
    match hoveredEl w with
    | Some el => w ← highlightElement L w el; Some (w, [])
    | None => Some (w, [])
    end.

Definition onKeyUp (w : World) (e : KeyboardEvent.t) : Result :=
  a ← isActivationKey w e;
  if negb a then Some (w, [])
  else
    let w := set_keyHeld false w in
    o ← overlay w;
    let o := Overlay.setBadge o Overlay.BADGE in
    let o := Overlay.clearHighlight o in
    let w := set_overlay (Some o) w in
    let w := set_cursor [] w in
    Some (set_hoveredEl None w, []).

(** *** Mouse handling *)

(** The tokens of a class attribute: its maximal runs of characters that
    are not ASCII white space. *)
Definition is_ascii_whitespace (c : ascii) : bool :=
  let n := Char.code c in
  ((n =? 9) || (n =? 10) || (n =? 12) || (n =? 13) || (n =? 32))%N.

Fixpoint tokens_from (token : jsstring) (s : jsstring) : list jsstring :=
  match s with
  | [] => if JS.truthy token then [token] else []
  | c :: s =>
      if is_ascii_whitespace c
      then (if JS.truthy token then [token] else []) ++ tokens_from [] s
      else tokens_from (token ++ [c]) s
  end.

Definition classList (el : HTMLElement) : list jsstring :=
  tokens_from [] (className el).

Definition classList_contains (el : HTMLElement) (c : jsstring) : bool :=
  bool_decide (c ∈ classList el).

Definition findGrabbableTarget (target : option EventTarget) : option HTMLElement :=
  match target with
  | Some (element target) =>
      if classList_contains target (js "solid-grab-overlay")
         || classList_contains target (js "solid-grab-tooltip")
         || classList_contains target (js "solid-grab-toast")
         || classList_contains target (js "solid-grab-badge")
      then None
      else Some target
  | _ => None
  end.

Definition onMouseMove `{JSNumber Num} (L : Layout Num) (w : World) (e : MouseEvent.t)
    : Result :=
  if negb (keyHeld w) then Some (w, [])
  else
    match findGrabbableTarget (MouseEvent.target e) with
    | None => Some (w, [])
    | Some target =>
        let w := set_hoveredEl (Some target) w in
        w ← highlightElement L w target;
        Some (w, [])
    end.

(** [copyToClipboard(text)] up to its [await]: the call of
    [navigator.clipboard.writeText].  The fallback that runs when that
    promise is rejected is outside the embedding. *)
Definition copyToClipboard (text : jsstring) : list Effect :=
  [clipboard_writeText text].

Definition SENT : jsstring := js "✓ Sent to agent".
Definition COPIED : jsstring := js "✓ Copied to clipboard".

(** [onMouseDown(e)]; [now] is what [Date.now()] returns, [t] the handle
    [setTimeout] returns if it is called, [readyState] the state of the
    sockets. *)
Definition onMouseDown (w : World) (e : MouseEvent.t) (now : Z) (t : Timer)
    (readyState : AgentBridge.Socket → AgentBridge.ReadyState) : Result :=
  if negb (keyHeld w) then Some (w, [])
  else
    match findGrabbableTarget (MouseEvent.target e) with
    | None => Some (w, [])
    | Some target =>
        let context := inspect now target in
        k ← opts w;
        let called :=
          match Opts.onGrab k with
          | Some _ => [call_onGrab context]
          | None => []
          end in
        let shouldCopy :=
          match Opts.onGrab k with
          | Some f =>
              match f context with
              | returns_false => false
              | returns_other => true
              end
          | None => true
          end in
        let copied := if shouldCopy then copyToClipboard (formatted context) else [] in
        o ← overlay w;
        let sent :=
          match bridge w with
          | Some b =>
              if AgentBridge.connected b
              then Some (AgentBridge.send b readyState context)
              else None
          | None => None
          end in
        let '(o, toasted) :=
          match sent with
          | Some calls =>
              let '(o, timers) := Overlay.toast o SENT (Some 1500%Z) t in
              (o, map socket calls ++ map timer timers)
          | None =>
              if shouldCopy && Opts.showToast k then
                let '(o, timers) := Overlay.toast o COPIED (Some 1500%Z) t in
                (o, map timer timers)
              else (o, [])
          end in
        let o := Overlay.clearHighlight o in
        Some (set_overlay (Some o) w,
              [preventDefault; stopPropagation] ++ called ++ copied ++ toasted)
    end.

(** *** Blur *)

Definition onBlur (w : World) : Result :=
  if keyHeld w then
    let w := set_keyHeld false w in
    o ← overlay w;
    let w := set_overlay (Some (Overlay.clearHighlight o)) w in
    let w := set_cursor [] w in
    Some (set_hoveredEl None w, [])
  else Some (w, []).

(** *** The public functions *)

Definition HINT (key : jsstring) : jsstring :=
  js "%c" ++ Overlay.BADGE ++ js "%c Hold " ++ key ++ js " + click to grab element context".

(** [bootstrap()]; [newSocket] is what [new WebSocket] returns if it is
    called, [None] when it throws. *)
Definition bootstrap (w : World) (newSocket : option AgentBridge.Socket) : Result :=
  o ← overlay w;
  let '(o, d) := Overlay.mount o (document w) in
  let w := set_document d (set_overlay (Some o) w) in
  let w := set_listeners (addEventListener keydown_listener (listeners w)) w in
  let w := set_listeners (addEventListener keyup_listener (listeners w)) w in
  let w := set_listeners (addEventListener mousemove_listener (listeners w)) w in
  let w := set_listeners (addEventListener mousedown_listener (listeners w)) w in
  let w := set_listeners (addEventListener blur_listener (listeners w)) w in
  k ← opts w;
  let '(w, connecting) :=
    match Opts.agentUrl k with
    | Some u =>
        if JS.truthy u then
          let '(b, calls) := AgentBridge.connect (AgentBridge.new u) newSocket in
          (set_bridge (Some b) w, map socket calls)
        else (w, [])
    | None => (w, [])
    end in
  Some (w, connecting ++ [console_log (HINT (Opts.key k))]).

(** [initSolidGrab(options)]. *)
Definition initSolidGrab (w : World) (options : SolidGrabOptions.t)
    (newSocket : option AgentBridge.Socket) : Result :=
  if initialized w then Some (w, [])
  else
    let w := set_initialized true w in
    let w :=
      set_opts
        (Some (Opts.mk (default (js "Alt") (SolidGrabOptions.key options))
                 (default true (SolidGrabOptions.showToast options))
                 (SolidGrabOptions.onGrab options)
                 (SolidGrabOptions.agentUrl options))) w in
    let w := set_objects (S (objects w)) (set_overlay (Some (Overlay.new (objects w))) w) in
    if loading w
    then Some (set_listeners (addEventListener DOMContentLoaded_listener (listeners w)) w, [])
    else bootstrap w newSocket.

(** [destroySolidGrab()]. *)
Definition destroySolidGrab (w : World) : Result :=
  if negb (initialized w) then Some (w, [])
  else
    let w := set_initialized false w in
    let w := set_listeners (removeEventListener keydown_listener (listeners w)) w in
    let w := set_listeners (removeEventListener keyup_listener (listeners w)) w in
    let w := set_listeners (removeEventListener mousemove_listener (listeners w)) w in
    let w := set_listeners (removeEventListener mousedown_listener (listeners w)) w in
    let w := set_listeners (removeEventListener blur_listener (listeners w)) w in
    o ← overlay w;
    let '(o, d) := Overlay.unmount o (document w) in
    let w := set_document d (set_overlay (Some o) w) in
    let disconnected :=
      match bridge w with
      | Some b => map socket (AgentBridge.disconnect b).2
      | None => []
      end in
    let w := set_bridge None w in
    Some (set_cursor [] w, disconnected).

(** *** The module in the browser *)

(** The state before the module is evaluated, in a browser whose document
    is or is not loading and has the given children and cursor. *)
Definition pristine (loading : bool) (d : Overlay.Document) (cursor : jsstring)
    (objects : nat) : World :=
  mkWorld false None None None false None loading [] cursor d objects.

(** Evaluating the module ends with the call [initSolidGrab()]. *)
Definition load (w : World) : Result :=
  initSolidGrab w SolidGrabOptions.empty None.

(** What happens next: a call of one of the two exported functions, or an
    event of the browser.  An event runs the listener registered for it, if
    one is; the timer of a toast runs its callback on the current overlay,
    the events of a socket run the handlers of the current bridge.

    The state is that of the module variables and of the objects they hold.
    Two things of the browser are therefore outside it.  An overlay or a
    bridge the module no longer holds (after [destroySolidGrab], or after a
    second [bootstrap]) still receives the events of its own timer and
    socket: [AgentBridge.World] follows such a bridge by itself, here its
    events are not actions.  And [DOMContentLoaded] stands for the end of
    parsing together with the dispatch of the event: the moment in between,
    when [document.readyState] is no longer ["loading"] and the listener has
    not run yet, is not a state of a session. *)
Inductive Action {Num : Type} :=
| call_initSolidGrab (options : SolidGrabOptions.t) (newSocket : option AgentBridge.Socket)
| call_destroySolidGrab
| DOMContentLoaded (newSocket : option AgentBridge.Socket)
| keydown (L : Layout Num) (e : KeyboardEvent.t)
| keyup (e : KeyboardEvent.t)
| mousemove (L : Layout Num) (e : MouseEvent.t)
| mousedown (e : MouseEvent.t) (now : Z) (t : Timer)
    (readyState : AgentBridge.Socket → AgentBridge.ReadyState)
| blur
| toast_timer
| socket_open
| socket_close (t : Timer)
| socket_error
| reconnect_timer (newSocket : option AgentBridge.Socket).
Arguments Action : clear implicits.

Definition dispatch (w : World) (l : Listener) (run : Result) : Result :=
  if decide (l ∈ listeners w) then run else Some (w, []).

Definition on_bridge (w : World) (f : AgentBridge.t → AgentBridge.t * list AgentBridge.Call)
    : Result :=
  match bridge w with
  | Some b => let '(b, calls) := f b in Some (set_bridge (Some b) w, map socket calls)
  | None => Some (w, [])
  end.

Definition step `{JSNumber Num} (w : World) (a : Action Num) : Result :=
  match a with
  | call_initSolidGrab options newSocket => initSolidGrab w options newSocket
  | call_destroySolidGrab => destroySolidGrab w
  | DOMContentLoaded newSocket =>
      if loading w then
        let w := set_loading false w in
        dispatch w DOMContentLoaded_listener (bootstrap w newSocket)
      else Some (w, [])
  | keydown L e => dispatch w keydown_listener (onKeyDown L w e)
  | keyup e => dispatch w keyup_listener (onKeyUp w e)
  | mousemove L e => dispatch w mousemove_listener (onMouseMove L w e)
  | mousedown e now t readyState =>
      dispatch w mousedown_listener (onMouseDown w e now t readyState)
  | blur => dispatch w blur_listener (onBlur w)
  | toast_timer =>
      match overlay w with
      | Some o => Some (set_overlay (Some (Overlay.toastExpired o)) w, [])
      | None => Some (w, [])
      end
  | socket_open => on_bridge w AgentBridge.onopen
  | socket_close t => on_bridge w (λ b, AgentBridge.onclose b t)
  | socket_error => on_bridge w AgentBridge.onerror
  | reconnect_timer newSocket => on_bridge w (λ b, AgentBridge.connect b newSocket)
  end.

(** A sequence of actions, with all the calls made on the way. *)
Fixpoint run `{JSNumber Num} (w : World) (actions : list (Action Num)) : Result :=
  match actions with
  | [] => Some (w, [])
  | a :: actions =>
      '(w, effects) ← step w a;
      '(w, more) ← run w actions;
      Some (w, effects ++ more)
  end.

End Runtime.

(** * Properties of the resolver *)

Module InspectorSpec.
Import Inspector.

(** ** Splitting and joining *)

Lemma split_nonempty sep s : JS.split sep s ≠ [].
Proof.
  destruct s as [|c s]; simpl; [done|].
  destruct (c =? sep)%char; [done|]. by destruct (JS.split sep s).
Qed.

Lemma split_app_sep sep a b :
  JS.split sep (a ++ sep :: b) = JS.split sep a ++ JS.split sep b.
Proof.
  induction a as [|c a IH]; simpl.
  - by rewrite Ascii.eqb_refl.
  - destruct (c =? sep)%char; [by rewrite IH|].
    rewrite IH. pose proof (split_nonempty sep a).
    by destruct (JS.split sep a).
Qed.

Lemma split_without_sep sep s :
  Forall (λ c, (c =? sep)%char = false) s → JS.split sep s = [s].
Proof.
  induction 1 as [|c s Hc _ IH]; simpl; [done|]. by rewrite Hc, IH.
Qed.

Lemma join_split sep s : JS.join [sep] (JS.split sep s) = s.
Proof.
  induction s as [|c s IH]; simpl; [done|].
  pose proof (split_nonempty sep s) as Hne.
  destruct (c =? sep)%char eqn:E.
  - apply Ascii.eqb_eq in E as ->.
    destruct (JS.split sep s) as [|p ps]; [done|].
    change (JS.join [sep] ([] :: p :: ps)) with ([sep] ++ JS.join [sep] (p :: ps)).
    by rewrite IH.
  - destruct (JS.split sep s) as [|p ps]; [done|].
    destruct ps as [|q ps]; simpl in *; by rewrite <- IH.
Qed.

(** ** Decimal numerals *)

Lemma code_digit_char d : (d < 10)%N → Char.code (JS.digit_char d) = (48 + d)%N.
Proof.
  intros Hd. unfold Char.code, JS.digit_char.
  apply N_ascii_embedding. lia.
Qed.

Lemma is_digit_digit_char d : (d < 10)%N → Char.is_digit (JS.digit_char d) = true.
Proof.
  intros Hd. unfold Char.is_digit, Char.between. rewrite code_digit_char by done.
  apply andb_true_intro; split; apply N.leb_le; lia.
Qed.

Lemma digit_value_digit_char d : (d < 10)%N → JS.digit_value (JS.digit_char d) = Z.of_N d.
Proof. intros Hd. unfold JS.digit_value. rewrite code_digit_char by done. lia. Qed.

Lemma to_digits_acc fuel n acc :
  JS.to_digits fuel n acc = JS.to_digits fuel n [] ++ acc.
Proof.
  revert n acc. induction fuel as [|fuel IH]; intros n acc; simpl; [done|].
  destruct (n <? 10)%N; [done|].
  rewrite (IH _ (_ :: acc)), (IH _ [_]). by rewrite <- app_assoc.
Qed.

Lemma digits_value_snoc ds c :
  JS.digits_value (ds ++ [c]) = (10 * JS.digits_value ds + JS.digit_value c)%Z.
Proof. unfold JS.digits_value. by rewrite fold_left_app. Qed.

Lemma to_digits_spec fuel n :
  (n < 10 ^ N.of_nat (S fuel))%N →
  Forall (λ c, Char.is_digit c = true) (JS.to_digits fuel n [])
  ∧ JS.to_digits fuel n [] ≠ []
  ∧ JS.digits_value (JS.to_digits fuel n []) = Z.of_N n.
Proof.
  assert (Hone : ∀ m, (m < 10)%N →
    Forall (λ c, Char.is_digit c = true) [JS.digit_char (m mod 10)]
    ∧ [JS.digit_char (m mod 10)] ≠ []
    ∧ JS.digits_value [JS.digit_char (m mod 10)] = Z.of_N m).
  { intros m Hm. rewrite N.mod_small by done. repeat split; [|done|].
    - repeat constructor. by apply is_digit_digit_char.
    - unfold JS.digits_value; simpl. rewrite digit_value_digit_char by done. lia. }
  revert n. induction fuel as [|fuel IH]; intros n Hn.
  - simpl. apply Hone. simpl in Hn. lia.
  - simpl. destruct (n <? 10)%N eqn:E.
    + apply Hone. by apply N.ltb_lt.
    + apply N.ltb_ge in E. rewrite to_digits_acc.
      assert (Hq : (n / 10 < 10 ^ N.of_nat (S fuel))%N).
      { apply N.Div0.div_lt_upper_bound.
        replace (N.of_nat (S (S fuel))) with (N.succ (N.of_nat (S fuel))) in Hn by lia.
        by rewrite N.pow_succ_r' in Hn. }
      destruct (IH _ Hq) as (Hall & Hne & Hval).
      assert (Hr : (n mod 10 < 10)%N) by (apply N.mod_lt; lia).
      repeat split.
      * apply Forall_app; split; [done|].
        repeat constructor. by apply is_digit_digit_char.
      * by destruct (JS.to_digits fuel (n / 10) []).
      * rewrite digits_value_snoc, Hval, digit_value_digit_char by done.
        pose proof (N.div_mod n 10). lia.
Qed.

Lemma size_bound n : (n < 10 ^ N.of_nat (S (N.to_nat (N.size n))))%N.
Proof.
  pose proof (N.size_gt n) as H2.
  replace (N.of_nat (S (N.to_nat (N.size n)))) with (N.succ (N.size n)) by lia.
  rewrite N.pow_succ_r'.
  assert (2 ^ N.size n ≤ 10 ^ N.size n)%N by (apply N.pow_le_mono_l; lia).
  lia.
Qed.

(** The numeral of a non-negative integer: digits only, at least one, and
    read back they give the integer. *)
Lemma Number_toString_nonneg n :
  (0 ≤ n)%Z →
  Forall (λ c, Char.is_digit c = true) (JS.Number_toString n)
  ∧ JS.Number_toString n ≠ []
  ∧ JS.digits_value (JS.Number_toString n) = n.
Proof.
  intros Hn. unfold JS.Number_toString.
  destruct (n <? 0)%Z eqn:E; [apply Z.ltb_lt in E; lia|].
  destruct (to_digits_spec _ _ (size_bound (Z.abs_N n))) as (H1 & H2 & H3).
  repeat split; [done..|]. rewrite H3. lia.
Qed.

Lemma take_while_all p s :
  Forall (λ c, p c = true) s → JS.take_while p s = s.
Proof. induction 1 as [|c s Hc _ IH]; simpl; [done|]. by rewrite Hc, IH. Qed.

Lemma digit_facts c :
  Char.is_digit c = true →
  Char.is_space c = false ∧ (c =? "-")%char = false ∧ (c =? "+")%char = false
  ∧ (c =? ":")%char = false.
Proof. destruct c as [[] [] [] [] [] [] [] []]; vm_compute; intuition congruence. Qed.

Lemma parseInt_digits ds :
  Forall (λ c, Char.is_digit c = true) ds → ds ≠ [] →
  JS.parseInt ds = Some (JS.digits_value ds).
Proof.
  intros Hall Hne. destruct ds as [|d ds]; [done|].
  pose proof (Forall_inv Hall) as Hd. apply digit_facts in Hd as (Hs & Hm & Hp & _).
  unfold JS.parseInt. simpl JS.drop_while. rewrite Hs, Hm, Hp.
  rewrite take_while_all by done. f_equal. lia.
Qed.

Lemma parseInt_Number_toString n :
  (0 ≤ n)%Z → JS.parseInt (JS.Number_toString n) = Some n.
Proof.
  intros Hn. destruct (Number_toString_nonneg n Hn) as (H1 & H2 & H3).
  by rewrite parseInt_digits, H3.
Qed.

(** ** [parseSourceAttr] *)

(** What [parseSourceAttr] does with the fields of its input once there are
    at least three: the last is the column, the one before the line, the
    others joined again the file. *)
Lemma parseSourceAttr_fields v fields l c :
  JS.split ":" v = fields ++ [l; c] → fields ≠ [] →
  parseSourceAttr (Some v) =
    match JS.parseInt l, JS.parseInt c with
    | Some line, Some col => Some (mkSourceLocation (JS.join (js ":") fields) line col)
    | _, _ => None
    end.
Proof.
  intros Hsplit Hne. unfold parseSourceAttr.
  destruct v as [|v0 v]; [by destruct fields as [|? [|? ?]]|].
  cbn [JS.truthy negb]. rewrite Hsplit.
  assert (Hlen : (length (fields ++ [l; c]) <? 3) = false).
  { apply Nat.ltb_ge. rewrite length_app. destruct fields; [done|simpl; lia]. }
  rewrite Hlen. unfold JS.pop.
  replace (fields ++ [l; c]) with ((fields ++ [l]) ++ [c])
    by (rewrite <- app_assoc; done).
  rewrite last_snoc, removelast_last, last_snoc, removelast_last. simpl.
  reflexivity.
Qed.

Lemma split_formatLocation f l c :
  (0 ≤ l)%Z → (0 ≤ c)%Z →
  JS.split ":" (formatLocation f l c)
  = JS.split ":" f ++ [JS.Number_toString l; JS.Number_toString c].
Proof.
  intros Hl Hc. unfold formatLocation. change (js ":") with [":"%char]. simpl.
  assert (Hfield : ∀ n, (0 ≤ n)%Z →
            JS.split ":" (JS.Number_toString n) = [JS.Number_toString n]).
  { intros n Hn. apply split_without_sep.
    destruct (Number_toString_nonneg n Hn) as (Hall & _).
    eapply Forall_impl; [exact Hall|]. intros x Hx.
    by apply digit_facts in Hx as (_ & _ & _ & Hx). }
  by rewrite !split_app_sep, !Hfield.
Qed.

(** Reading back what [formatLocation] wrote. *)
Lemma parse_formatLocation f l c :
  (0 ≤ l)%Z → (0 ≤ c)%Z →
  parseSourceAttr (Some (formatLocation f l c)) = Some (mkSourceLocation f l c).
Proof.
  intros Hl Hc.
  rewrite (parseSourceAttr_fields _ _ _ _ (split_formatLocation f l c Hl Hc)
             (split_nonempty _ _)).
  rewrite !parseInt_Number_toString by done.
  change (js ":") with [":"%char]. by rewrite join_split.
Qed.

(** ** Reading the numbers as doubles *)

(** Up to 2^53 in absolute value every integer is a double. *)
Lemma toNumber_exact n :
  (- 2 ^ 53 ≤ n ≤ 2 ^ 53)%Z → IEEE.toNumber n = IEEE.Finite n.
Proof.
  intros Hn.
  destruct (decide (Z.abs n = 2 ^ 53)%Z) as [Heq|Hne].
  { assert (n = 2 ^ 53 ∨ n = - 2 ^ 53)%Z as [-> | ->] by lia; by vm_compute. }
  assert (Ha : (Z.abs n < 2 ^ 53)%Z) by lia.
  unfold IEEE.toNumber.
  assert (He : Z.max 0 (Z.log2 (Z.abs n) - 52) = 0%Z).
  { destruct (decide (Z.abs n = 0)%Z) as [->|]; [done|].
    assert (Z.log2 (Z.abs n) < 53)%Z by (apply Z.log2_lt_pow2; lia). lia. }
  rewrite He. cbv zeta.
  rewrite Z.pow_0_r, Z.div_1_r, Z.mod_1_r, Z.mul_1_r.
  change ((1 <? 2 * 0)%Z || (2 * 0 =? 1)%Z && Z.odd (Z.abs n)) with false.
  cbv iota.
  assert (Hbig : (2 ^ 1024 <=? Z.abs n)%Z = false).
  { apply Z.leb_gt. eapply Z.lt_trans; [exact Ha|]. by apply Z.pow_lt_mono_r. }
  rewrite Hbig. f_equal. lia.
Qed.

(** A location with its numbers converted to doubles. *)
Definition toIEEE (loc : SourceLocation) : IEEE.SourceLocation :=
  IEEE.mkSourceLocation (file loc) (IEEE.toNumber (line loc)) (IEEE.toNumber (column loc)).

(** The two readings of an attribute differ by that conversion only: they
    return [null] on the same inputs and the same file. *)
Lemma IEEE_parseSourceAttr v :
  IEEE.parseSourceAttr v = toIEEE <$> parseSourceAttr v.
Proof.
  unfold IEEE.parseSourceAttr, parseSourceAttr.
  destruct v as [v|]; [|done]. destruct (negb (JS.truthy v)); [done|].
  destruct (length (JS.split ":" v) <? 3); [done|].
  destruct (JS.pop (JS.split ":" v)) as [c parts].
  destruct (JS.pop parts) as [l parts'].
  unfold IEEE.parseInt_arg, IEEE.parseInt, JS.parseInt_arg.
  destruct (JS.parseInt (default (js "undefined") l)),
    (JS.parseInt (default (js "undefined") c)); done.
Qed.

(** C3: for every file string, colons included, and all integers [line]
    and [column] from 1 to 2^53, the attribute string [file:line:column] is
    the file, a colon, the decimal numeral of the line, a colon and the
    decimal numeral of the column; it splits into the fields of [file]
    followed by the two numerals, and [parseSourceAttr], reading the
    numerals as doubles, recovers exactly [{file, line, column}] from it. *)
Theorem parseSourceAttr_formatLocation_safe f l c :
  (1 ≤ l ≤ 2 ^ 53)%Z → (1 ≤ c ≤ 2 ^ 53)%Z →
  formatLocation f l c
    = f ++ js ":" ++ JS.Number_toString l ++ js ":" ++ JS.Number_toString c
  ∧ JS.split ":" (formatLocation f l c)
    = JS.split ":" f ++ [JS.Number_toString l; JS.Number_toString c]
  ∧ IEEE.parseSourceAttr (Some (formatLocation f l c))
    = Some (IEEE.mkSourceLocation f (IEEE.Finite l) (IEEE.Finite c))
  ∧ parseSourceAttr (Some (formatLocation f l c)) = Some (mkSourceLocation f l c).
Proof.
  intros Hl Hc. split; [done|]. split; [apply split_formatLocation; lia|].
  rewrite IEEE_parseSourceAttr, parse_formatLocation by lia.
  split; [|done]. cbn. unfold toIEEE. cbn.
  by rewrite !toNumber_exact by lia.
Qed.

Lemma parseSourceAttr_formatLocation_safe_windows :
  ((1 ≤ 42 ≤ 2 ^ 53)%Z ∧ (1 ≤ 8 ≤ 2 ^ 53)%Z)
  ∧ formatLocation (js "C:\src\App.tsx") 42 8 = js "C:\src\App.tsx:42:8"
  ∧ IEEE.parseSourceAttr (Some (formatLocation (js "C:\src\App.tsx") 42 8))
    = Some (IEEE.mkSourceLocation (js "C:\src\App.tsx") (IEEE.Finite 42) (IEEE.Finite 8)).
Proof.
  split; [lia|]. split; [reflexivity|].
  apply (parseSourceAttr_formatLocation_safe (js "C:\src\App.tsx") 42 8); lia.
Defined.

(** The bound cannot be raised: the line 2^53 + 1 is written as
    [9007199254740993] and read back as 2^53, the nearest double. *)
Lemma parseSourceAttr_formatLocation_rounds :
  ((1 ≤ 2 ^ 53 + 1)%Z ∧ (1 ≤ 1)%Z)
  ∧ formatLocation (js "src/App.tsx") (2 ^ 53 + 1) 1
    = js "src/App.tsx:9007199254740993:1"
  ∧ IEEE.parseSourceAttr (Some (formatLocation (js "src/App.tsx") (2 ^ 53 + 1) 1))
    = Some (IEEE.mkSourceLocation (js "src/App.tsx") (IEEE.Finite (2 ^ 53)) (IEEE.Finite 1))
  ∧ IEEE.parseSourceAttr (Some (formatLocation (js "src/App.tsx") (2 ^ 53 + 1) 1))
    ≠ Some (IEEE.mkSourceLocation (js "src/App.tsx") (IEEE.Finite (2 ^ 53 + 1))
              (IEEE.Finite 1)).
Proof.
  split; [lia|]. split; [by vm_compute|].
  assert (H : IEEE.parseSourceAttr
                (Some (formatLocation (js "src/App.tsx") (2 ^ 53 + 1) 1))
              = Some (IEEE.mkSourceLocation (js "src/App.tsx") (IEEE.Finite (2 ^ 53))
                        (IEEE.Finite 1)))
    by by vm_compute.
  split; [exact H|]. rewrite H. intros Heq. vm_compute in Heq. discriminate Heq.
Qed.

(** A field [parseInt] can read starts, after white space and at most one
    sign, with a decimal digit. *)
Definition numeric_start (s : jsstring) : Prop :=
  ∃ ws sign d rest,
    s = ws ++ sign ++ d :: rest
    ∧ Forall (λ c, Char.is_space c = true) ws
    ∧ (sign = [] ∨ sign = js "+" ∨ sign = js "-")
    ∧ Char.is_digit d = true.

Lemma take_while_Forall p s : Forall (λ c, p c = true) (JS.take_while p s).
Proof.
  induction s as [|c s IH]; simpl; [constructor|].
  destruct (p c) eqn:E; by constructor.
Qed.

Lemma take_while_head p s d ds :
  JS.take_while p s = d :: ds → ∃ rest, s = d :: rest ∧ p d = true.
Proof.
  destruct s as [|c s]; simpl; [done|].
  destruct (p c) eqn:E; [|done]. intros [= <- _]. eauto.
Qed.

Lemma drop_while_stop p s d rest :
  p d = false → Forall (λ c, p c = true) s →
  JS.drop_while p (s ++ d :: rest) = d :: rest.
Proof.
  intros Hd. induction 1 as [|c s Hc _ IH]; simpl; [by rewrite Hd|by rewrite Hc].
Qed.

Lemma sign_facts :
  Char.is_space "+" = false ∧ Char.is_space "-" = false.
Proof. by vm_compute. Qed.

(** [parseInt] gives a number exactly on the fields with a numeric start. *)
Lemma parseInt_is_Some s : is_Some (JS.parseInt s) ↔ numeric_start s.
Proof.
  split.
  - intros [n Hn]. unfold JS.parseInt in Hn.
    pose proof (Vite.take_drop_while Char.is_space s) as Hs.
    pose proof (take_while_Forall Char.is_space s) as Hws.
    destruct (JS.drop_while Char.is_space s) as [|c r] eqn:E; [done|].
    destruct (c =? "-")%char eqn:Em; [|destruct (c =? "+")%char eqn:Ep].
    + apply Ascii.eqb_eq in Em as ->.
      destruct (JS.take_while Char.is_digit r) as [|d ds] eqn:Ed; [done|].
      apply take_while_head in Ed as (rest & -> & Hd).
      exists (JS.take_while Char.is_space s), (js "-"), d, rest. 
      split; [symmetry; exact Hs|repeat split; auto].
    + apply Ascii.eqb_eq in Ep as ->.
      destruct (JS.take_while Char.is_digit r) as [|d ds] eqn:Ed; [done|].
      apply take_while_head in Ed as (rest & -> & Hd).
      exists (JS.take_while Char.is_space s), (js "+"), d, rest. 
      split; [symmetry; exact Hs|repeat split; auto].
    + destruct (JS.take_while Char.is_digit (c :: r)) as [|d ds] eqn:Ed; [done|].
      apply take_while_head in Ed as (rest & [= -> ->] & Hd).
      exists (JS.take_while Char.is_space s), [], d, rest. 
      split; [symmetry; exact Hs|repeat split; auto].
  - intros (ws & sign & d & rest & -> & Hws & Hsign & Hd).
    pose proof (digit_facts d Hd) as (Hds & Hdm & Hdp & _).
    destruct sign_facts as [Hplus Hminus].
    unfold JS.parseInt.
    destruct Hsign as [-> | [-> | ->]]; simpl.
    + rewrite drop_while_stop by done. rewrite Hdm, Hdp. simpl. rewrite Hd. eauto.
    + rewrite drop_while_stop by done. simpl. rewrite Hd. eauto.
    + rewrite drop_while_stop by done. simpl. rewrite Hd. eauto.
Qed.

(** C4: [parseSourceAttr] returns [null] for [null], for the empty string,
    for every input with fewer than three colon-delimited fields, and for
    every input one of whose last two fields has no numeric start (so also
    when neither has one), as in [file:abc:def]. *)
Theorem parseSourceAttr_null :
  parseSourceAttr None = None
  ∧ parseSourceAttr (Some []) = None
  ∧ (∀ v, length (JS.split ":" v) < 3 → parseSourceAttr (Some v) = None)
  ∧ (∀ v fields l c,
       JS.split ":" v = fields ++ [l; c] →
       ¬ numeric_start l ∨ ¬ numeric_start c →
       parseSourceAttr (Some v) = None)
  ∧ parseSourceAttr (Some (js "file:10")) = None
  ∧ parseSourceAttr (Some (js "file:abc:def")) = None.
Proof.
  assert (Hshort : ∀ v, length (JS.split ":" v) < 3 → parseSourceAttr (Some v) = None).
  { intros v Hlen. unfold parseSourceAttr. destruct (negb (JS.truthy v)); [done|].
    apply Nat.ltb_lt in Hlen. by rewrite Hlen. }
  repeat split; try done.
  intros v fields l c Hsplit Hbad.
  destruct fields as [|f0 fields].
  { apply Hshort. rewrite Hsplit. simpl. lia. }
  rewrite (parseSourceAttr_fields _ _ _ _ Hsplit) by done.
  destruct (JS.parseInt l) as [a|] eqn:El; [|done].
  destruct (JS.parseInt c) as [b|] eqn:Ec; [|done].
  destruct Hbad as [Hbad | Hbad]; exfalso; apply Hbad, parseInt_is_Some; eauto.
Qed.

Lemma parseSourceAttr_null_witness :
  parseSourceAttr (Some (js "C:\x.tsx:12:col")) = None.
Proof.
  refine (proj1 (proj2 (proj2 (proj2 parseSourceAttr_null)))
            (js "C:\x.tsx:12:col") [js "C"; js "\x.tsx"] (js "12") (js "col") _ _).
  - reflexivity.
  - right. intros H. apply parseInt_is_Some in H as [n Hn]. discriminate Hn.
Defined.

(** ** The walk over the ancestors *)

#[local] Arguments parseSourceAttr : simpl never.

(** Induction along the parent links. *)
Lemma HTMLElement_parent_ind (P : HTMLElement → Prop) :
  (∀ el, parentElement el = None → P el) →
  (∀ el p, parentElement el = Some p → P p → P el) →
  ∀ el, P el.
Proof.
  intros Hroot Hchild. fix IH 1. intros [t o a [p|]].
  - apply (Hchild _ p); [done|]. apply IH.
  - by apply Hroot.
Qed.

Lemma ancestors_unfold el :
  ancestors el = el :: from_option ancestors [] (parentElement el).
Proof. by destruct el as [t o a [p|]]. Qed.

Lemma findNearestSource_unfold el :
  findNearestSource el =
    let next := from_option findNearestSource None (parentElement el) in
    match getAttribute el ATTR_SOURCE with
    | Some attr => if JS.truthy attr then parseSourceAttr (Some attr) else next
    | None => next
    end.
Proof. by destruct el as [t o a [p|]]. Qed.

(** An element carries a source attribute the walk stops at when the
    attribute is there and not the empty string. *)
Definition carriesSource (el : HTMLElement) : bool :=
  from_option JS.truthy false (getAttribute el ATTR_SOURCE).

(** [findNearestSource] parses the attribute of the nearest carrier and
    returns the outcome, whatever it is and whatever lies further up. *)
Lemma findNearestSource_nearest el pre e post v :
  ancestors el = pre ++ e :: post →
  Forall (λ x, carriesSource x = false) pre →
  getAttribute e ATTR_SOURCE = Some v → JS.truthy v = true →
  findNearestSource el = parseSourceAttr (Some v).
Proof.
  revert pre. induction el as [el Hp | el p Hp IH] using HTMLElement_parent_ind;
    intros pre Hanc Hpre Hv Ht; rewrite findNearestSource_unfold;
    rewrite ancestors_unfold, Hp in Hanc; simpl in Hanc.
  - destruct pre as [|x [|? ?]]; simplify_eq/=. by rewrite Hv, Ht.
  - destruct pre as [|x pre]; simplify_eq/=; [by rewrite Hv, Ht|].
    apply Forall_cons in Hpre as [Hx Hpre]. unfold carriesSource in Hx.
    rewrite Hp. simpl.
    destruct (getAttribute x ATTR_SOURCE) as [a|]; simpl in Hx; [rewrite Hx|];
      by eapply IH.
Qed.

Lemma findNearestSource_no_carrier el :
  Forall (λ x, carriesSource x = false) (ancestors el) →
  findNearestSource el = None.
Proof.
  induction el as [el Hp | el p Hp IH] using HTMLElement_parent_ind;
    rewrite ancestors_unfold, Hp; simpl; intros [Hx Hrest]%Forall_cons;
    rewrite findNearestSource_unfold, Hp; unfold carriesSource in Hx; simpl;
    destruct (getAttribute el ATTR_SOURCE) as [a|]; simpl in Hx;
    try rewrite Hx; auto.
Qed.

(** The source [inspect] reports is the one [findNearestSource] finds: the
    element's own attribute is the first the walk looks at. *)
Lemma inspect_elementSource now el :
  elementSource (partial (inspect now el)) = findNearestSource el.
Proof.
  unfold inspect; simpl. unfold getElementSource.
  rewrite findNearestSource_unfold; simpl.
  destruct (getAttribute el ATTR_SOURCE) as [a|]; [|done].
  destruct a as [|a0 a]; [done|]. cbn [JS.truthy].
  destruct (parseSourceAttr (Some (a0 :: a))); reflexivity.
Qed.

(** *** A malformed attribute *)

Definition root_App : HTMLElement :=
  mkHTMLElement (js "DIV") (js "<div></div>")
    {[ ATTR_SOURCE := js "src/App.tsx:1:1" ]} None.

(** A child of [root_App] whose own source attribute is [attr]. *)
Definition child_with (attr : option jsstring) : HTMLElement :=
  mkHTMLElement (js "SPAN") (js "<span></span>")
    (from_option (λ v, {[ ATTR_SOURCE := v ]}) ∅ attr) (Some root_App).

(** C5, as stated, fails: a malformed attribute is not treated as absent.
    On the child it ends the walk with [null], although the parent carries
    a valid attribute that the same child without the attribute resolves
    to. *)
Lemma malformed_attribute_ends_walk :
  parseSourceAttr (Some (js "not-a-location")) = None
  ∧ findNearestSource (child_with (Some (js "not-a-location"))) = None
  ∧ findNearestSource (child_with None)
    = Some (mkSourceLocation (js "src/App.tsx") 1 1)
  ∧ elementSource (partial (inspect 0 (child_with (Some (js "not-a-location"))))) = None
  ∧ elementSource (partial (inspect 0 (child_with None)))
    = Some (mkSourceLocation (js "src/App.tsx") 1 1).
Proof. repeat split; by vm_compute. Qed.

(** C5, amended: [findNearestSource] and [inspect] return what
    [parseSourceAttr] makes of the nearest non-empty source attribute of the
    walk, the element's own first; when that value is malformed the result
    is [null], whatever the elements further up carry, and malformed values
    above the nearest carrier play no part.  The functions are total: no
    input makes them throw. *)
Theorem nearest_source_attribute_decides now el pre e post v :
  ancestors el = pre ++ e :: post →
  Forall (λ x, carriesSource x = false) pre →
  getAttribute e ATTR_SOURCE = Some v → v ≠ [] →
  findNearestSource el = parseSourceAttr (Some v)
  ∧ elementSource (partial (inspect now el)) = parseSourceAttr (Some v)
  ∧ (parseSourceAttr (Some v) = None →
       findNearestSource el = None
       ∧ elementSource (partial (inspect now el)) = None).
Proof.
  intros Hanc Hpre Hv Hne.
  assert (Ht : JS.truthy v = true) by by destruct v.
  pose proof (findNearestSource_nearest _ _ _ _ _ Hanc Hpre Hv Ht) as Hfind.
  rewrite inspect_elementSource, Hfind. by intuition.
Qed.

Lemma nearest_source_attribute_decides_witness :
  findNearestSource (child_with (Some (js "src/App.tsx:x:y"))) = None
  ∧ elementSource (partial (inspect 0 (child_with (Some (js "src/App.tsx:x:y"))))) = None.
Proof.
  refine (proj2 (proj2 (nearest_source_attribute_decides 0
            (child_with (Some (js "src/App.tsx:x:y"))) []
            (child_with (Some (js "src/App.tsx:x:y"))) [root_App]
            (js "src/App.tsx:x:y") _ _ _ _)) _).
  - reflexivity.
  - constructor.
  - by vm_compute.
  - discriminate.
  - by vm_compute.
Defined.

(** *** The values a location can take *)

Definition zero_location : HTMLElement :=
  mkHTMLElement (js "DIV") (js "<div></div>")
    {[ ATTR_SOURCE := js "src/App.tsx:0:-4" ]} None.

(** C6, as stated, fails: the resolver accepts whatever integers [parseInt]
    reads, so an attribute [src/App.tsx:0:-4] is returned with line 0 and
    column -4 by all three queries. *)
Lemma source_location_below_one :
  ∃ loc,
    elementSource (partial (inspect 0 zero_location)) = Some loc
    ∧ findNearestSource zero_location = Some loc
    ∧ getElementSource zero_location = Some loc
    ∧ ¬ ((1 ≤ line loc)%Z ∧ (1 ≤ column loc)%Z).
Proof.
  exists (mkSourceLocation (js "src/App.tsx") 0 (-4)).
  repeat split; try by vm_compute. simpl. lia.
Qed.

(** The attribute values the injector writes: [file:line:column] with both
    numbers at least 1. *)
Definition injectorFormat (v : jsstring) : Prop :=
  ∃ f l c, (1 ≤ l)%Z ∧ (1 ≤ c)%Z ∧ v = formatLocation f l c.

Lemma findNearestSource_Some el loc :
  findNearestSource el = Some loc →
  ∃ e v, e ∈ ancestors el ∧ getAttribute e ATTR_SOURCE = Some v
         ∧ parseSourceAttr (Some v) = Some loc.
Proof.
  induction el as [el Hp | el p Hp IH] using HTMLElement_parent_ind;
    rewrite findNearestSource_unfold, ancestors_unfold, Hp; simpl;
    destruct (getAttribute el ATTR_SOURCE) as [a|] eqn:Ea;
    try destruct (JS.truthy a); try done;
    try (intros H; exists el, a; split; [by left|done]).
  all: intros (e & v & He & Hv)%IH; exists e, v; split; [by right|done].
Qed.

(** C6, amended: when every [data-solid-source] attribute on the element
    and its ancestors has the injector's format [file:line:column] with
    [line >= 1] and [column >= 1], a non-null location returned by
    [inspect], [findNearestSource] or [getElementSource] satisfies
    [line >= 1] and [column >= 1].  (For other attribute strings the
    resolver returns the integers it reads, with no lower bound.) *)
Theorem source_location_positive now el loc :
  Forall (λ e, ∀ v, getAttribute e ATTR_SOURCE = Some v → injectorFormat v)
         (ancestors el) →
  elementSource (partial (inspect now el)) = Some loc
  ∨ findNearestSource el = Some loc
  ∨ getElementSource el = Some loc →
  (1 ≤ line loc)%Z ∧ (1 ≤ column loc)%Z.
Proof.
  intros Hall Hloc.
  assert (Hparse : ∃ e v, e ∈ ancestors el ∧ getAttribute e ATTR_SOURCE = Some v
                          ∧ parseSourceAttr (Some v) = Some loc).
  { rewrite inspect_elementSource in Hloc.
    destruct Hloc as [H | [H | H]]; [by apply findNearestSource_Some..|].
    unfold getElementSource in H.
    destruct (getAttribute el ATTR_SOURCE) as [v|] eqn:Ev; [|done].
    exists el, v. split; [|done]. rewrite ancestors_unfold. by left. }
  destruct Hparse as (e & v & He & Hv & Hp).
  rewrite Forall_forall in Hall.
  destruct (Hall e He v Hv) as (f & l & c & Hl & Hc & ->).
  rewrite parse_formatLocation in Hp by lia. by injection Hp as <-.
Qed.

Lemma source_location_positive_witness :
  (1 ≤ line (mkSourceLocation (js "src/App.tsx") 1 1))%Z
  ∧ (1 ≤ column (mkSourceLocation (js "src/App.tsx") 1 1))%Z.
Proof.
  apply (source_location_positive 0 (child_with None)).
  - repeat constructor; intros v Hv; vm_compute in Hv; [done|].
    injection Hv as <-. exists (js "src/App.tsx"), 1%Z, 1%Z.
    repeat split; [lia..|]. reflexivity.
  - right; left. by vm_compute.
Defined.

(** ** The component chain *)

Definition entryKey (c : ComponentInfo) : jsstring :=
  chainKey (name c) (location c).

(** The entry an element contributes when it names a component. *)
Definition candidate (e : HTMLElement) : option ComponentInfo :=
  match getAttribute e ATTR_COMPONENT with
  | Some n => if JS.truthy n then Some (mkComponentInfo n (getElementSource e)) else None
  | None => None
  end.

(** All of them along the walk, innermost first. *)
Definition candidates (el : HTMLElement) : list ComponentInfo :=
  omap candidate (ancestors el).

Lemma chainStep_candidate e chain seen :
  chainStep e (chain, seen) =
    match candidate e with
    | Some c =>
        if decide (entryKey c ∈ seen) then (chain, seen)
        else (chain ++ [c], {[ entryKey c ]} ∪ seen)
    | None => (chain, seen)
    end.
Proof.
  unfold chainStep, candidate.
  destruct (getAttribute e ATTR_COMPONENT) as [n|]; [|done].
  by destruct (JS.truthy n).
Qed.

Lemma getComponentChain_loop_fold el st :
  getComponentChain_loop el st = (foldl (λ st e, chainStep e st) st (ancestors el)).1.
Proof.
  revert st. induction el as [el Hp | el p Hp IH] using HTMLElement_parent_ind;
    intros st; rewrite ancestors_unfold; destruct el as [t o a q];
    simpl in Hp; subst q; simpl; [done|apply IH].
Qed.

(** What the loop maintains: [seen] holds the keys of the collected entries,
    no key twice; the entries are in the order of the walk. *)
Record chainInv (cands : list ComponentInfo)
    (st : list ComponentInfo * gset jsstring) : Prop := {
  inv_seen : ∀ k, k ∈ st.2 ↔ k ∈ entryKey <$> st.1;
  inv_nodup : NoDup (entryKey <$> st.1);
  inv_order : sublist st.1 cands;
  inv_cover : ∀ c, c ∈ cands → entryKey c ∈ entryKey <$> st.1;
}.

Lemma chainInv_step cands e st :
  chainInv cands st →
  chainInv (cands ++ option_list (candidate e)) (chainStep e st).
Proof.
  destruct st as [chain seen]. rewrite chainStep_candidate.
  intros [Hseen Hnd Hord Hcov]; simpl in *.
  destruct (candidate e) as [c|]; simpl.
  - destruct (decide (entryKey c ∈ seen)) as [Hin|Hnin]; split; simpl.
    + done.
    + done.
    + by apply sublist_inserts_r.
    + intros c' [Hc'|Hc']%elem_of_app; [by apply Hcov|].
      apply list_elem_of_singleton in Hc' as ->. by apply Hseen.
    + intros k. rewrite fmap_app, elem_of_app, elem_of_union, elem_of_singleton.
      simpl. rewrite list_elem_of_singleton, Hseen. tauto.
    + rewrite fmap_app. apply NoDup_app. split; [done|]. split.
      * intros k Hk ->%list_elem_of_singleton. by apply Hnin, Hseen.
      * apply NoDup_singleton.
    + by apply sublist_app.
    + intros c' [Hc'|Hc']%elem_of_app; rewrite fmap_app, elem_of_app.
      * left. by apply Hcov.
      * right. apply list_elem_of_singleton in Hc' as ->. by left.
  - rewrite app_nil_r. by split.
Qed.

Lemma chainInv_fold es cands st :
  chainInv cands st →
  chainInv (cands ++ omap candidate es) (foldl (λ st e, chainStep e st) st es).
Proof.
  revert cands st. induction es as [|e es IH]; intros cands st Hinv; simpl.
  - by rewrite app_nil_r.
  - apply (chainInv_step _ e) in Hinv. apply IH in Hinv.
    destruct (candidate e); simpl in *; [by rewrite <- app_assoc in Hinv|].
    by rewrite app_nil_r in Hinv.
Qed.

Lemma getComponentChain_inv el :
  chainInv (candidates el)
    (foldl (λ st e, chainStep e st) ([], ∅) (ancestors el)).
Proof.
  apply (chainInv_fold (ancestors el) [] ([], ∅)).
  split; simpl; [set_solver|constructor|constructor|set_solver].
Qed.

(** Entries with the same name, file and line have the same key. *)
Lemma entryKey_same a b :
  name a = name b → file <$> location a = file <$> location b →
  line <$> location a = line <$> location b → entryKey a = entryKey b.
Proof.
  destruct a as [na [[fa la ca]|]], b as [nb [[fb lb cb]|]];
    unfold entryKey; intros Hn Hf Hl; simpl in Hn, Hf, Hl;
    try discriminate; subst; [|reflexivity].
  injection Hf as ->. injection Hl as ->. reflexivity.
Qed.

(** C10: the list [getComponentChain] returns holds no two entries, at any
    two positions, whose name, location file and location line coincide.
    The deduplication is global over the walk: the keys
    [name:file:line] of the entries are pairwise distinct, every ancestor
    naming a component has its key among them, and the column takes no part
    in the key. *)
Theorem getComponentChain_no_repeat el :
  (∀ i j a b,
     i ≠ j →
     getComponentChain el !! i = Some a → getComponentChain el !! j = Some b →
     ¬ (name a = name b
        ∧ file <$> location a = file <$> location b
        ∧ line <$> location a = line <$> location b))
  ∧ NoDup (entryKey <$> getComponentChain el)
  ∧ (∀ e n, e ∈ ancestors el → getAttribute e ATTR_COMPONENT = Some n → n ≠ [] →
       chainKey n (getElementSource e) ∈ entryKey <$> getComponentChain el)
  ∧ (∀ n f l c1 c2,
       chainKey n (Some (mkSourceLocation f l c1))
       = chainKey n (Some (mkSourceLocation f l c2))).
Proof.
  unfold getComponentChain. rewrite getComponentChain_loop_fold.
  destruct (getComponentChain_inv el) as [_ Hnd _ Hcov].
  repeat split; [|done|].
  - intros i j a b Hij Ha Hb (Hn & Hf & Hl).
    apply Hij. eapply NoDup_lookup; [exact Hnd| |].
    + rewrite list_lookup_fmap, Ha. reflexivity.
    + rewrite list_lookup_fmap, Hb. simpl. f_equal. symmetry. by apply entryKey_same.
  - intros e n He Hn Hne.
    apply (Hcov (mkComponentInfo n (getElementSource e))).
    unfold candidates. apply list_elem_of_omap. exists e. split; [done|].
    unfold candidate. rewrite Hn. by destruct n.
Qed.

(** A list nested in an item of a list: the component [List] recurs, two
    levels up, at the same source position. *)
Definition outer_List : HTMLElement :=
  mkHTMLElement (js "UL") (js "<ul></ul>")
    {[ ATTR_COMPONENT := js "List"; ATTR_SOURCE := js "src/List.tsx:3:5" ]} None.

Definition middle_Item : HTMLElement :=
  mkHTMLElement (js "LI") (js "<li></li>")
    {[ ATTR_COMPONENT := js "Item"; ATTR_SOURCE := js "src/Item.tsx:7:3" ]}
    (Some outer_List).

Definition inner_List : HTMLElement :=
  mkHTMLElement (js "UL") (js "<ul></ul>")
    {[ ATTR_COMPONENT := js "List"; ATTR_SOURCE := js "src/List.tsx:3:5" ]}
    (Some middle_Item).

Definition leaf : HTMLElement :=
  mkHTMLElement (js "SPAN") (js "<span></span>") ∅ (Some inner_List).

Definition entry_List : ComponentInfo :=
  mkComponentInfo (js "List") (Some (mkSourceLocation (js "src/List.tsx") 3 5)).

Definition entry_Item : ComponentInfo :=
  mkComponentInfo (js "Item") (Some (mkSourceLocation (js "src/Item.tsx") 7 3)).

Lemma getComponentChain_no_repeat_witness :
  ¬ (name entry_List = name entry_Item
     ∧ file <$> location entry_List = file <$> location entry_Item
     ∧ line <$> location entry_List = line <$> location entry_Item).
Proof.
  apply (proj1 (getComponentChain_no_repeat leaf) 0 1 entry_List entry_Item).
  - lia.
  - by vm_compute.
  - by vm_compute.
Defined.

(** *** Consecutive duplicates only, as the comment in the loop says

    The reading of the specification: an entry is skipped when the entry
    collected immediately before it has the same name, file and line. *)

Definition sameEntry (a b : ComponentInfo) : bool :=
  bool_decide (name a = name b
               ∧ file <$> location a = file <$> location b
               ∧ line <$> location a = line <$> location b).

Fixpoint collapseConsecutive (prev : option ComponentInfo)
    (cands : list ComponentInfo) : list ComponentInfo :=
  match cands with
  | [] => []
  | c :: rest =>
      if from_option (λ p, sameEntry p c) false prev
      then collapseConsecutive prev rest
      else c :: collapseConsecutive (Some c) rest
  end.

Definition getComponentChain_consecutive (el : HTMLElement) : list ComponentInfo :=
  collapseConsecutive None (candidates el).

(** C2 at the nested list: the walk meets [List], [Item], [List].  The
    code returns two entries, the second [List] dropped although [Item]
    lies between; collapsing consecutive duplicates only keeps all three. *)
Theorem getComponentChain_drops_recurrence :
  candidates leaf = [entry_List; entry_Item; entry_List]
  ∧ getComponentChain leaf = [entry_List; entry_Item]
  ∧ getComponentChain_consecutive leaf = [entry_List; entry_Item; entry_List].
Proof. repeat split; by vm_compute. Qed.

(** The parts of C2 the code does satisfy: the entries come innermost first,
    in the order of the walk, and two elements in a row with the same
    component at the same position give one entry. *)
Lemma getComponentChain_order el :
  sublist (getComponentChain el) (candidates el).
Proof.
  unfold getComponentChain. rewrite getComponentChain_loop_fold.
  apply getComponentChain_inv.
Qed.

(** ** The report *)

Lemma join_head sep x parts : ∃ r, JS.join sep (x :: parts) = x ++ r.
Proof.
  destruct parts as [|y parts]; simpl; [exists []; by rewrite app_nil_r|eauto].
Qed.

(** The summary opens with [<] and the lower-cased tag name and ends with
    [>]. *)
Lemma getElementSummary_shape el :
  ∃ attrs,
    getElementSummary el = js "<" ++ JS.toLowerCase (tagName el) ++ attrs ++ js ">".
Proof.
  unfold getElementSummary.
  set (first := js "<" ++ JS.toLowerCase (tagName el)).
  assert (Hhead : ∀ parts : list jsstring,
            (∃ l, parts = first :: l) →
            ∃ attrs, JS.join (js " ") parts ++ js ">" = first ++ attrs ++ js ">").
  { intros parts [l ->]. destruct (join_head (js " ") first l) as [r ->].
    exists r. by rewrite <- app_assoc. }
  destruct (Hhead
    (let parts := [first] in
     let parts :=
       if JS.truthy (id el) then parts ++ [quotedAttr (js "id") (id el)] else parts in
     let cls := className el in
     let parts :=
       if JS.truthy cls then
         let trimmed := JS.trim cls in
         if length trimmed <=? 80 then parts ++ [quotedAttr (js "class") trimmed]
         else parts ++ [quotedAttr (js "class") (JS.slice 0 77 trimmed ++ js "...")]
       else parts in
     match getAttribute el (js "data-testid") with
     | Some testId =>
         if JS.truthy testId then parts ++ [quotedAttr (js "data-testid") testId]
         else parts
     | None => parts
     end)) as [attrs Hattrs].
  - cbv zeta.
    destruct (JS.truthy (id el)), (JS.truthy (className el)),
      (length (JS.trim (className el)) <=? 80),
      (getAttribute el (js "data-testid")) as [t|];
      try destruct (JS.truthy t); simpl; eauto.
  - exists attrs. subst first. rewrite <- app_assoc in Hattrs. exact Hattrs.
Qed.

(** C9: with [elementSource = null] and [components = []] the report is the
    opening banner, a blank line, the [Element:] line, a blank line, [HTML:]
    with the snippet, a blank line and the closing banner: the array of
    lines holds no [Source:] line and nothing of the component-tree block,
    its blank separator included, and the [Element:] line carries the tag
    name. *)
Theorem formatContext_bare el tag now :
  formatContext_lines (mkPartialContext el tag None [] now)
  = [ js "--- solid-grab context ---"; [];
      js "Element: " ++ getElementSummary el;
      []; js "HTML:"; getElementSnippet el 500;
      []; js "--- end solid-grab context ---" ]
  ∧ formatContext (mkPartialContext el tag None [] now)
    = js "--- solid-grab context ---" ++ [newline; newline]
      ++ js "Element: " ++ getElementSummary el ++ [newline; newline]
      ++ js "HTML:" ++ [newline] ++ getElementSnippet el 500 ++ [newline; newline]
      ++ js "--- end solid-grab context ---"
  ∧ ∃ attrs,
      getElementSummary el = js "<" ++ JS.toLowerCase (tagName el) ++ attrs ++ js ">".
Proof.
  split; [reflexivity|]. split; [|apply getElementSummary_shape].
  unfold formatContext, formatContext_lines. cbn -[getElementSummary getElementSnippet].
  rewrite <- ?app_assoc. reflexivity.
Qed.

(** For contrast: a source adds its line after the [Element:] line, and a
    non-empty chain adds the blank line, the heading and one line per
    entry. *)
Lemma formatContext_lines_full el tag s c cs now :
  formatContext_lines (mkPartialContext el tag (Some s) (c :: cs) now)
  = [ js "--- solid-grab context ---"; [];
      js "Element: " ++ getElementSummary el;
      js "Source:  " ++ formatLocation (file s) (line s) (column s);
      []; js "Component tree (innermost " ++ arrow ++ js " outermost):" ]
    ++ map componentLine (c :: cs)
    ++ [ []; js "HTML:"; getElementSnippet el 500;
         []; js "--- end solid-grab context ---" ].
Proof.
  unfold formatContext_lines. cbn -[getElementSummary getElementSnippet formatLocation].
  rewrite <- ?app_assoc. reflexivity.
Qed.

Example formatContext_span :
  string_of_list_ascii
    (formatContext (mkPartialContext (child_with None) (js "span") None [] 0))
  = "--- solid-grab context ---

Element: <span>

HTML:
<span></span>

--- end solid-grab context ---"%string.
Proof. by vm_compute. Qed.

End InspectorSpec.

(** * Properties of the injector *)

Module ViteSpec.
Import Vite.

(** ** Slices *)

Lemma slice_split a b c (s : jsstring) :
  a ≤ b → b ≤ c → JS.slice a c s = JS.slice a b s ++ JS.slice b c s.
Proof.
  intros Hab Hbc. unfold JS.slice.
  replace (c - a) with ((b - a) + (c - b)) by lia.
  rewrite <- take_take_drop, drop_drop. by replace (a + (b - a)) with b by lia.
Qed.

Lemma slice_drop a b (s : jsstring) :
  a ≤ b → drop a s = JS.slice a b s ++ drop b s.
Proof.
  intros Hab. unfold JS.slice.
  rewrite <- (take_drop (b - a) (drop a s)) at 1.
  rewrite drop_drop. by replace (a + (b - a)) with b by lia.
Qed.

Lemma slice_middle (a b c : jsstring) :
  JS.slice (length a) (length a + length b) (a ++ b ++ c) = b.
Proof.
  unfold JS.slice. rewrite drop_app_length.
  replace (length a + length b - length a) with (length b) by lia.
  apply take_app_length.
Qed.

Lemma length_slice a b (s : jsstring) :
  a ≤ b → b ≤ length s → length (JS.slice a b s) = b - a.
Proof.
  intros Hab Hb. unfold JS.slice. rewrite length_take, length_drop. lia.
Qed.

(** ** The loops, unfolded once *)

Lemma getLineCol_search_step starts offset lo hi :
  getLineCol_search starts offset lo hi =
    if decide (lo < hi) then
      let mid := Nat.div2 (lo + hi + 1) in
      if start_le starts mid offset
      then getLineCol_search starts offset mid hi
      else getLineCol_search starts offset lo (mid - 1)
    else lo.
Proof.
  rewrite getLineCol_search_equation_1. by destruct (decide (lo < hi)).
Qed.

Lemma transformJsx_loop_step code fileId opts re_lastIndex st :
  transformJsx_loop code fileId opts re_lastIndex st =
    match exec code re_lastIndex with
    | Some m =>
        transformJsx_loop code fileId opts (matchEnd m) (loopBody code fileId opts m st)
    | None => st.1 ++ JS.slice_from st.2 code
    end.
Proof.
  rewrite transformJsx_loop_equation_1. unfold exec_eqn.
  assert (Haux : ∀ r (H : exec code re_lastIndex = r),
    transformJsx_loop_unfold_clause_1 code fileId opts re_lastIndex (r ↾ H) st =
    match r with
    | Some m =>
        transformJsx_loop code fileId opts (matchEnd m) (loopBody code fileId opts m st)
    | None => st.1 ++ JS.slice_from st.2 code
    end) by (by intros [m|] H).
  apply Haux.
Qed.

(** ** The matches the loop visits *)

(** The successive results of [exec], each search starting where the match
    before ended, until [exec] returns [null]. *)
Equations? matchAll (code : jsstring) (lastIndex : nat) : list RegExpMatch
  by wf (length code - lastIndex) lt :=
  matchAll code lastIndex with exec_eqn code lastIndex := {
    | exist _ (Some m) Hm => m :: matchAll code (matchEnd m)
    | exist _ None _ => [] }.
Proof. apply exec_bounds in Hm. lia. Qed.

Lemma matchAll_step code lastIndex :
  matchAll code lastIndex =
    match exec code lastIndex with
    | Some m => m :: matchAll code (matchEnd m)
    | None => []
    end.
Proof.
  rewrite matchAll_equation_1. unfold exec_eqn.
  assert (Haux : ∀ r (H : exec code lastIndex = r),
    matchAll_unfold_clause_1 code lastIndex (r ↾ H) =
    match r with
    | Some m => m :: matchAll code (matchEnd m)
    | None => []
    end) by (by intros [m|] H).
  apply Haux.
Qed.

(** Where a match sits in the text. *)
Lemma exec_decompose code lastIndex m :
  exec code lastIndex = Some m →
  ∃ pre rest,
    code = pre ++ (prefix m ++ tagName m) ++ suffix m ++ rest
    ∧ length pre = index m ∧ 0 < length (suffix m).
Proof.
  unfold exec. destruct (length code <? lastIndex) eqn:E; [done|].
  apply Nat.ltb_ge in E. intros H.
  apply exec_from_shape in H as (pre & rest & Hs & Hi & _ & _ & Hx).
  exists (take lastIndex code ++ pre), rest. split; [|split; [|done]].
  - rewrite <- (take_drop lastIndex code) at 1. rewrite Hs. unfold fullMatch.
    by rewrite <- !app_assoc.
  - rewrite length_app, length_take. lia.
Qed.

(** The position right after the tag name. *)
Definition tagEnd (m : RegExpMatch) : nat :=
  index m + length (prefix m) + length (tagName m).

Lemma exec_slices code lastIndex m :
  exec code lastIndex = Some m →
  JS.slice (index m) (tagEnd m) code = prefix m ++ tagName m
  ∧ JS.slice (tagEnd m) (matchEnd m) code = suffix m
  ∧ index m ≤ tagEnd m ∧ tagEnd m < matchEnd m.
Proof.
  intros H. apply exec_decompose in H as (pre & rest & Hcode & Hpre & Hx).
  unfold tagEnd, matchEnd, fullMatch. rewrite !length_app.
  repeat split; [| |lia..].
  - rewrite Hcode at 1. rewrite <- Hpre.
    replace (length pre + length (prefix m) + length (tagName m))
      with (length pre + length (prefix m ++ tagName m)) by (rewrite length_app; lia).
    apply slice_middle.
  - rewrite Hcode at 1. rewrite <- Hpre, app_assoc.
    replace (length pre + length (prefix m) + length (tagName m))
      with (length (pre ++ prefix m ++ tagName m)) by (rewrite !length_app; lia).
    replace (length pre + (length (prefix m) + (length (tagName m) + length (suffix m))))
      with (length (pre ++ prefix m ++ tagName m) + length (suffix m))
      by (rewrite !length_app; lia).
    apply slice_middle.
Qed.

(** ** The output as the input with attributes spliced in *)

(** [code] from [pos] on, with each text of [ins] inserted at its
    position. *)
Fixpoint splice (code : jsstring) (pos : nat) (ins : list (nat * jsstring)) : jsstring :=
  match ins with
  | [] => drop pos code
  | (at_, text) :: rest => JS.slice pos at_ code ++ text ++ splice code at_ rest
  end.

(** The positions of [ins] ascend from [pos] and stay inside [code]. *)
Fixpoint placed (code : jsstring) (pos : nat) (ins : list (nat * jsstring)) : Prop :=
  match ins with
  | [] => pos ≤ length code
  | (at_, _) :: rest => pos ≤ at_ ∧ placed code at_ rest
  end.

Lemma placed_le code pos pos' ins :
  pos ≤ pos' → placed code pos' ins → placed code pos ins.
Proof. destruct ins as [|[a t] r]; simpl; [lia|]. intros ? [? ?]. split; [lia|done]. Qed.

Lemma splice_advance code pos pos' ins :
  pos ≤ pos' → placed code pos' ins →
  splice code pos ins = JS.slice pos pos' code ++ splice code pos' ins.
Proof.
  destruct ins as [|[a t] r]; simpl; intros Hle Hpl.
  - by apply slice_drop.
  - destruct Hpl as [Ha _]. by rewrite (slice_split pos pos' a), <- app_assoc.
Qed.

Lemma length_splice code pos ins :
  placed code pos ins →
  length (splice code pos ins)
  = length code - pos + sum_list (map (λ i, length i.2) ins).
Proof.
  revert pos. induction ins as [|[a t] r IH]; simpl; intros pos Hpl.
  - rewrite length_drop. lia.
  - destruct Hpl as [Ha Hr].
    assert (Hbound : ∀ q l, placed code q l → q ≤ length code).
    { intros q l. revert q. induction l as [|[b u] l IHl]; simpl; [done|].
      intros q [Hq Hl]. apply IHl in Hl. lia. }
    pose proof (Hbound _ _ Hr).
    rewrite !length_app, IH, length_slice by done. lia.
Qed.

(** The attributes built for a match, and what is inserted for it: nothing
    when the classifier rejects it or no attribute is enabled for its tag,
    otherwise a space and the attributes, right after the tag name. *)
Definition attrsFor (code fileId : jsstring) (opts : Options) (m : RegExpMatch)
    : list jsstring :=
  let '(line, col) := getLineCol (lineStarts code) (index m) in
  injectedAttrs opts (shortFile fileId) line col (tagName m).

Definition insertion (code fileId : jsstring) (opts : Options) (m : RegExpMatch)
    : option (nat * jsstring) :=
  if isLikelyJsx code (index m) then
    match attrsFor code fileId opts m with
    | [] => None
    | attrs => Some (tagEnd m, js " " ++ JS.join (js " ") attrs)
    end
  else None.

Definition insertions (code fileId : jsstring) (opts : Options) : list (nat * jsstring) :=
  omap (insertion code fileId opts) (matchAll code 0).

Lemma transformJsx_loop_splice code fileId opts n :
  ∀ re_lastIndex result lastIndex,
    length code - re_lastIndex < n →
    lastIndex ≤ re_lastIndex → re_lastIndex ≤ length code →
    transformJsx_loop code fileId opts re_lastIndex (result, lastIndex)
    = result ++ splice code lastIndex
                  (omap (insertion code fileId opts) (matchAll code re_lastIndex))
    ∧ placed code re_lastIndex
        (omap (insertion code fileId opts) (matchAll code re_lastIndex)).
Proof.
  induction n as [|n IH]; [lia|]. intros li result lastIndex Hn Hlast Hli.
  rewrite transformJsx_loop_step, matchAll_step.
  destruct (exec code li) as [m|] eqn:E; [|by simpl].
  pose proof (exec_bounds _ _ _ E) as (Hidx & Hend & Hlen).
  pose proof (exec_slices _ _ _ E) as (Hpt & Hx & Hte & Htm).
  assert (Hfull : index m + length (fullMatch m) = matchEnd m) by done.
  cbn [omap list_omap]. unfold omap in IH.
  unfold loopBody, insertion, attrsFor. rewrite Hfull.
  destruct (isLikelyJsx code (index m)); cbn [negb].
  - destruct (getLineCol (lineStarts code) (index m)) as [line col].
    destruct (injectedAttrs opts (shortFile fileId) line col (tagName m))
      as [|a attrs] eqn:Ea; cbn [length Nat.eqb].
    + destruct (IH (matchEnd m) (result ++ JS.slice lastIndex (matchEnd m) code)
                  (matchEnd m)) as [-> Hpl]; [lia..|].
      split; [|by apply (placed_le _ _ (matchEnd m)); [lia|]].
      rewrite <- app_assoc. f_equal. symmetry. apply splice_advance; [lia|done].
    + destruct (IH (matchEnd m)
                  (result ++ JS.slice lastIndex (index m) code ++ prefix m ++ tagName m
                     ++ (js " " ++ JS.join (js " ") (a :: attrs)) ++ suffix m)
                  (matchEnd m)) as [-> Hpl]; [lia..|].
      split.
      * cbn [splice]. rewrite (splice_advance code (tagEnd m) (matchEnd m)) by (done || lia).
        rewrite (slice_split lastIndex (index m) (tagEnd m)) by lia.
        rewrite Hpt, Hx. by rewrite <- !app_assoc.
      * cbn [placed]. split; [lia|]. apply (placed_le _ _ (matchEnd m)); [lia|done].
  - destruct (IH (matchEnd m) result lastIndex) as [-> Hpl]; [lia..|].
    split; [done|]. apply (placed_le _ _ (matchEnd m)); [lia|done].
Qed.

(** [transformJsx] returns the text with, for every match that gets
    attributes, the attribute string spliced in right after the tag name,
    and everything else as it was. *)
Lemma transformJsx_splice code fileId opts :
  transformJsx code fileId opts = splice code 0 (insertions code fileId opts)
  ∧ placed code 0 (insertions code fileId opts).
Proof.
  unfold transformJsx, insertions.
  by destruct (transformJsx_loop_splice code fileId opts (S (length code)) 0 [] 0)
    as [-> Hpl]; [lia..|].
Qed.

(** ** Which matches get attributes *)

(** The matches the classifier confirms as markup. *)
Definition confirmed (code : jsstring) : list RegExpMatch :=
  List.filter (λ m, isLikelyJsx code (index m)) (matchAll code 0).

(** Some attribute is enabled for a tag of this name. *)
Definition attributed (opts : Options) (tag : jsstring) : bool :=
  jsxLocation opts || (componentLocation opts && COMPONENT_NAME_RE_test tag).

(** The injection sites: the confirmed matches with an enabled attribute. *)
Definition injectionSites (code : jsstring) (opts : Options) : list RegExpMatch :=
  List.filter (λ m, attributed opts (tagName m)) (confirmed code).

Definition attrString (code fileId : jsstring) (opts : Options) (m : RegExpMatch) : jsstring :=
  js " " ++ JS.join (js " ") (attrsFor code fileId opts m).

Lemma injectedAttrs_nil opts f l c tag :
  injectedAttrs opts f l c tag = [] ↔ attributed opts tag = false.
Proof.
  unfold injectedAttrs, attributed.
  destruct (jsxLocation opts), (componentLocation opts), (COMPONENT_NAME_RE_test tag);
    simpl; split; intros; done.
Qed.

Lemma insertion_site code fileId opts m :
  insertion code fileId opts m =
    if isLikelyJsx code (index m) && attributed opts (tagName m)
    then Some (tagEnd m, attrString code fileId opts m)
    else None.
Proof.
  unfold insertion, attrString, attrsFor.
  destruct (isLikelyJsx code (index m)); [|done]. cbn [andb].
  destruct (getLineCol (lineStarts code) (index m)) as [l c].
  pose proof (injectedAttrs_nil opts (shortFile fileId) l c (tagName m)) as Hnil.
  destruct (injectedAttrs opts (shortFile fileId) l c (tagName m)) as [|a attrs];
    destruct (attributed opts (tagName m)); try reflexivity.
  - destruct Hnil as [Hnil _]. by specialize (Hnil eq_refl).
  - destruct Hnil as [_ Hnil]. by specialize (Hnil eq_refl).
Qed.

Lemma insertions_sites code fileId opts :
  insertions code fileId opts
  = map (λ m, (tagEnd m, attrString code fileId opts m)) (injectionSites code opts).
Proof.
  unfold insertions, injectionSites, confirmed.
  induction (matchAll code 0) as [|m ms IH]; [done|].
  cbn [omap list_omap List.filter]. rewrite insertion_site, IH.
  destruct (isLikelyJsx code (index m)); [|done]. cbn [andb List.filter].
  by destruct (attributed opts (tagName m)).
Qed.

(** Without injection sites the output is the input, the same list of code
    units. *)
Lemma transformJsx_no_sites code fileId opts :
  injectionSites code opts = [] → transformJsx code fileId opts = code.
Proof.
  intros Hnone. destruct (transformJsx_splice code fileId opts) as [-> _].
  by rewrite insertions_sites, Hnone.
Qed.

(** With one the output is longer than the input. *)
Lemma transformJsx_sites code fileId opts :
  injectionSites code opts ≠ [] →
  length code < length (transformJsx code fileId opts).
Proof.
  intros Hsome. destruct (transformJsx_splice code fileId opts) as [-> Hpl].
  rewrite length_splice by done. rewrite insertions_sites.
  destruct (injectionSites code opts) as [|m ms]; [done|].
  simpl. lia.
Qed.

Definition dev_plugin : Plugin :=
  configResolved (mkResolvedConfig (js "/project") (js "serve") (js "development"))
                 (solidGrab (mkPluginOptions None None None)).

(** C7: when the scan confirms no injection site the [transform] hook
    returns [null], the "unchanged" signal, and never the unchanged text; the
    file [const x: Accessor<boolean> = () => true;] is such a file.  When at
    least one attribute is injected (and the hook is active for the file) it
    returns the transformed text, which differs from the input. *)
Theorem transform_unchanged_signal :
  (∀ p code id,
     injectionSites code (options p) = [] → transform p code id = None)
  ∧ (∀ p code id,
       injectionSites code (options p) ≠ [] →
       isDev p = true → isJsxFile id = true →
       JS.includes (js "node_modules") id = false →
       ∃ fileId,
         transform p code id = Some (transformJsx code fileId (options p))
         ∧ transformJsx code fileId (options p) ≠ code)
  ∧ (∀ opts,
       matchAll (js "const x: Accessor<boolean> = () => true;") 0 = []
       ∧ injectionSites (js "const x: Accessor<boolean> = () => true;") opts = [])
  ∧ transform dev_plugin (js "const x: Accessor<boolean> = () => true;")
      (js "/project/src/hooks.tsx") = None.
Proof.
  split; [|split; [|split]].
  - intros p code id Hnone. unfold transform.
    destruct (negb (isDev p)); [done|]. destruct (negb (isJsxFile id)); [done|].
    destruct (JS.includes (js "node_modules") id); [done|].
    rewrite transformJsx_no_sites by done.
    unfold jsstring_eqb. by rewrite bool_decide_eq_true_2.
  - intros p code id Hsome Hdev Hjsx Hnm. unfold transform.
    rewrite Hdev, Hjsx, Hnm. cbn [negb].
    set (fileId := if JS.startsWith (projectRoot p) id
                   then JS.slice_from (length (projectRoot p) + 1) id else id).
    exists fileId.
    assert (Hne : transformJsx code fileId (options p) ≠ code).
    { intros Heq. pose proof (transformJsx_sites code fileId (options p) Hsome) as Hlen.
      rewrite Heq in Hlen. lia. }
    split; [|done]. unfold jsstring_eqb. by rewrite bool_decide_eq_false_2.
  - intros opts.
    assert (Hm : matchAll (js "const x: Accessor<boolean> = () => true;") 0 = [])
      by by vm_compute.
    split; [done|]. unfold injectionSites, confirmed. by rewrite Hm.
  - by vm_compute.
Qed.

Lemma transform_unchanged_signal_witness :
  ∃ fileId,
    transform dev_plugin (js "return <div>hello</div>;") (js "/project/src/App.tsx")
    = Some (transformJsx (js "return <div>hello</div>;") fileId (options dev_plugin))
    ∧ transformJsx (js "return <div>hello</div>;") fileId (options dev_plugin)
      ≠ js "return <div>hello</div>;".
Proof.
  apply (proj1 (proj2 transform_unchanged_signal) dev_plugin
           (js "return <div>hello</div>;") (js "/project/src/App.tsx")).
  - by vm_compute.
  - reflexivity.
  - by vm_compute.
  - by vm_compute.
Defined.

(** ** The backward scan *)

Lemma scan_back_run p (a b c : jsstring) :
  Forall (λ x, p (Some x) = true) b →
  scan_back p (a ++ b ++ c) (length a + length b) = scan_back p (a ++ b ++ c) (length a).
Proof.
  revert c. induction b as [|x b IH] using rev_ind; intros c Hall.
  - by rewrite Nat.add_0_r.
  - apply Forall_app in Hall as [Hb Hx]. apply Forall_inv in Hx.
    rewrite length_app. simpl.
    replace (length a + (length b + 1)) with (S (length a + length b)) by lia.
    cbn [scan_back].
    replace (a ++ (b ++ [x]) ++ c) with ((a ++ b) ++ x :: c)
      by (by rewrite <- !app_assoc).
    rewrite list_lookup_middle by (by rewrite length_app).
    rewrite Hx, <- app_assoc. by apply IH.
Qed.

Lemma scan_back_stop p (code : jsstring) i :
  p (code !! i) = false → scan_back p code (S i) = S i.
Proof. intros H. simpl. by rewrite H. Qed.

#[local] Arguments scan_back : simpl never.

(** The characters and words of the rule, written out. *)
Definition blank (c : ascii) : Prop :=
  c ∈ [" "%char; "009"%char; "010"%char; "013"%char].

Definition closer (c : ascii) : Prop :=
  c ∈ [")"%char; "]"%char; dquote; "'"%char; "`"%char].

Definition opener (c : ascii) : Prop := c ∈ js "({[,;:?=!>&|+-*/%^~".

Definition keywords : list jsstring :=
  [js "return"; js "yield"; js "case"; js "default"; js "else"].

(** [pre] does not end in a word character: a word that follows it is
    complete on the left. *)
Definition word_boundary (pre : jsstring) : Prop :=
  ∀ x, last pre = Some x → Char.is_word x = false.

Lemma is_blank_iff c : is_blank c = true ↔ blank c.
Proof.
  unfold is_blank, blank. rewrite !orb_true_iff, !Ascii.eqb_eq.
  rewrite !elem_of_cons, elem_of_nil. tauto.
Qed.

Lemma is_closer_iff c : is_closer c = true ↔ closer c.
Proof.
  unfold is_closer, closer. rewrite !orb_true_iff, !Ascii.eqb_eq.
  rewrite !elem_of_cons, elem_of_nil. tauto.
Qed.

Lemma is_opener_iff c : is_opener c = true ↔ opener c.
Proof.
  unfold is_opener, opener. rewrite existsb_exists. split.
  - intros (x & Hin & ->%Ascii.eqb_eq). by apply list_elem_of_In.
  - intros Hin. exists c. split; [by apply list_elem_of_In|apply Ascii.eqb_refl].
Qed.

Lemma keyword_iff w : w ∈ JSX_PRECEDING_KEYWORDS ↔ w ∈ keywords.
Proof. unfold JSX_PRECEDING_KEYWORDS, keywords. by rewrite elem_of_list_to_set. Qed.

(** The three kinds of character exclude each other. *)
Lemma char_kinds c :
  (is_closer c = true → is_opener c = false ∧ Char.is_word c = false)
  ∧ (is_opener c = true → is_closer c = false ∧ Char.is_word c = false).
Proof. destruct c as [[] [] [] [] [] [] [] []]; by vm_compute. Qed.

Section classification.

(** The text is [pre ++ ch :: ws ++ after], the [<] under test is the head
    of [after], [ws] is blank and [ch] is not. *)
Variables (pre ws after : jsstring) (ch : ascii).
Hypothesis ws_blank : Forall blank ws.
Hypothesis ch_not_blank : ¬ blank ch.

Let code : jsstring := pre ++ ch :: ws ++ after.
Let ltIndex : nat := length pre + 1 + length ws.

Lemma scan_to_ch :
  scan_back blank_at code ltIndex = S (length pre) ∧ code !! length pre = Some ch.
Proof.
  subst code ltIndex.
  assert (Hch : (pre ++ ch :: ws ++ after) !! length pre = Some ch)
    by by apply list_lookup_middle.
  split; [|done].
  replace (pre ++ ch :: ws ++ after) with ((pre ++ [ch]) ++ ws ++ after)
    by (by rewrite <- app_assoc).
  replace (length pre + 1 + length ws) with (length (pre ++ [ch]) + length ws)
    by (rewrite length_app; simpl; lia).
  rewrite scan_back_run.
  - rewrite length_app. simpl. rewrite Nat.add_1_r. apply scan_back_stop.
    rewrite <- app_assoc. simpl. rewrite Hch. simpl.
    destruct (is_blank ch) eqn:E; [|done]. by apply is_blank_iff in E.
  - eapply Forall_impl; [exact ws_blank|]. intros x Hx. by apply is_blank_iff.
Qed.

Lemma isLikelyJsx_closer : closer ch → isLikelyJsx code ltIndex = false.
Proof.
  intros Hc%is_closer_iff. unfold isLikelyJsx.
  destruct scan_to_ch as [-> ->]. simpl. by rewrite Hc.
Qed.

Lemma isLikelyJsx_opener : opener ch → isLikelyJsx code ltIndex = true.
Proof.
  intros Ho%is_opener_iff. unfold isLikelyJsx.
  destruct scan_to_ch as [-> ->]. simpl.
  destruct (char_kinds ch) as [_ Hk]. destruct (Hk Ho) as [-> _]. by rewrite Ho.
Qed.

Lemma isLikelyJsx_word pre' w :
  pre ++ [ch] = pre' ++ w →
  Forall (λ c, Char.is_word c = true) w → w ≠ [] → word_boundary pre' →
  isLikelyJsx code ltIndex = bool_decide (w ∈ keywords).
Proof.
  intros Hsplit Hw Hne Hb. unfold isLikelyJsx.
  destruct scan_to_ch as [-> Hch]. rewrite Hch.
  assert (Hword : Char.is_word ch = true).
  { destruct w as [|w0 w _] using rev_ind; [done|].
    rewrite app_assoc in Hsplit. apply app_inj_tail in Hsplit as [_ ->].
    by apply Forall_app in Hw as [_ Hw%Forall_inv]. }
  destruct (char_kinds ch) as [Hc Ho]. simpl.
  destruct (is_closer ch) eqn:Ec.
  { destruct Hc as [_ Hc]; [done|]. by rewrite Hc in Hword. }
  destruct (is_opener ch) eqn:Eo.
  { destruct Ho as [_ Ho]; [done|]. by rewrite Ho in Hword. }
  rewrite Hword.
  assert (Hcode : code = pre' ++ w ++ ws ++ after).
  { subst code. change (ch :: ws ++ after) with ([ch] ++ ws ++ after).
    by rewrite app_assoc, Hsplit, <- app_assoc. }
  assert (Hlen : S (length pre) = length pre' + length w).
  { apply (f_equal length) in Hsplit. rewrite !length_app in Hsplit.
    simpl in Hsplit. lia. }
  assert (Hstart : scan_back word_at code (S (length pre)) = length pre').
  { rewrite Hlen, Hcode, scan_back_run by done.
    destruct pre' as [|x pre' _] using rev_ind; [done|].
    rewrite length_app. simpl. rewrite Nat.add_1_r. apply scan_back_stop.
    rewrite <- app_assoc. simpl. rewrite list_lookup_middle by done. simpl.
    apply Hb. by rewrite last_snoc. }
  clear Hch. rewrite Hstart, Hlen, Hcode, slice_middle.
  apply bool_decide_ext, keyword_iff.
Qed.

End classification.

(** Nothing but blanks before the [<]: the start of the file. *)
Lemma isLikelyJsx_start ws after :
  Forall blank ws → isLikelyJsx (ws ++ after) (length ws) = true.
Proof.
  intros Hws. unfold isLikelyJsx.
  pose proof (scan_back_run blank_at [] ws after) as Hrun. simpl in Hrun.
  rewrite Hrun; [done|].
  eapply Forall_impl; [exact Hws|]. intros x Hx. by apply is_blank_iff.
Qed.

(** Without a confirmed match nothing is injected, for any file name and
    options. *)
Lemma transformJsx_none_confirmed code :
  confirmed code = [] → ∀ fileId opts, transformJsx code fileId opts = code.
Proof.
  intros Hnone fileId opts. apply transformJsx_no_sites.
  unfold injectionSites. by rewrite Hnone.
Qed.

Lemma word_not_blank c : Char.is_word c = true → ¬ blank c.
Proof.
  intros Hw Hb%is_blank_iff. revert Hw Hb.
  destruct c as [[] [] [] [] [] [] [] []]; by vm_compute.
Qed.

(** After a whole word [w] and blanks: markup exactly for the keywords. *)
Lemma isLikelyJsx_after_word pre w ws after :
  w ≠ [] → Forall (λ c, Char.is_word c = true) w → word_boundary pre →
  Forall blank ws →
  isLikelyJsx (pre ++ w ++ ws ++ after) (length pre + length w + length ws)
  = bool_decide (w ∈ keywords).
Proof.
  intros Hne Hw Hb Hws.
  destruct w as [|ch w0 _] using rev_ind; [done|].
  pose proof Hw as [_ Hch%Forall_inv]%Forall_app.
  pose proof (isLikelyJsx_word (pre ++ w0) ws after ch Hws (word_not_blank _ Hch)
                pre (w0 ++ [ch])) as H.
  rewrite <- !app_assoc in H. simpl in H.
  rewrite !length_app in *. simpl.
  replace (length pre + (length w0 + 1) + length ws)
    with (length pre + length w0 + 1 + length ws) by lia.
  rewrite <- !app_assoc. simpl. by apply H.
Qed.

(** The comparisons of the plugin's tests, each [<] a candidate of the
    pattern or not even that. *)
Definition comparisons_file : jsstring := js "function foo() {
  const x = count() < totalItems
  if (a < b) {}
  return userTier < minimumTier
}".

Definition chained_file : jsstring := js "if (
  newIndex !== currentIndex() &&
  newIndex >= 0 &&
  newIndex < props.images.length
) {}".

(** The scan over blanks: it classifies the [<] at the head of [after] as
    markup when only blanks precede it (start of the file), when the nearest
    non-blank character before it is one of the expression-opening marks, or
    when that character ends one of the words [return], [yield], [case],
    [default], [else]; and as non-markup when that character is a closing
    parenthesis or bracket or a quote, or ends any other word.  Blanks are
    the four characters the scan skips (space, tab, line feed, carriage
    return).  In particular [return <div>], [cond ? <div> : <span>] and
    [show() && <div>] are markup and get the attribute, while [x < y],
    [a() < b] and [x = count() < totalItems] are not and the text is
    returned unchanged, for every file name and every setting of the
    options. *)
Theorem isLikelyJsx_classifies :
  (∀ ws after,
     Forall blank ws → isLikelyJsx (ws ++ after) (length ws) = true)
  ∧ (∀ pre ch ws after,
       Forall blank ws → ¬ blank ch → opener ch →
       isLikelyJsx (pre ++ ch :: ws ++ after) (length pre + 1 + length ws) = true)
  ∧ (∀ pre ch ws after,
       Forall blank ws → ¬ blank ch → closer ch →
       isLikelyJsx (pre ++ ch :: ws ++ after) (length pre + 1 + length ws) = false)
  ∧ (∀ pre w ws after,
       w ≠ [] → Forall (λ c, Char.is_word c = true) w → word_boundary pre →
       Forall blank ws →
       (w ∈ keywords →
        isLikelyJsx (pre ++ w ++ ws ++ after) (length pre + length w + length ws) = true)
       ∧ (w ∉ keywords →
          isLikelyJsx (pre ++ w ++ ws ++ after) (length pre + length w + length ws) = false))
  ∧ (isLikelyJsx (js "return <div>") 7 = true
     ∧ transformJsx (js "return <div>") (js "App.tsx") (mkOptions true true)
       = js "return <div " ++ Inspector.quotedAttr ATTR_SOURCE (js "App.tsx:1:8") ++ js ">")
  ∧ (isLikelyJsx (js "cond ? <div> : <span>") 7 = true
     ∧ isLikelyJsx (js "cond ? <div> : <span>") 15 = true
     ∧ transformJsx (js "cond ? <div> : <span>") (js "App.tsx") (mkOptions true true)
       = js "cond ? <div " ++ Inspector.quotedAttr ATTR_SOURCE (js "App.tsx:1:8")
         ++ js "> : <span " ++ Inspector.quotedAttr ATTR_SOURCE (js "App.tsx:1:16")
         ++ js ">")
  ∧ (isLikelyJsx (js "show() && <div>") 10 = true
     ∧ transformJsx (js "show() && <div>") (js "App.tsx") (mkOptions true true)
       = js "show() && <div " ++ Inspector.quotedAttr ATTR_SOURCE (js "App.tsx:1:11")
         ++ js ">")
  ∧ (isLikelyJsx (js "x < y") 2 = false
     ∧ isLikelyJsx (js "a() < b") 4 = false
     ∧ isLikelyJsx (js "x = count() < totalItems") 12 = false)
  ∧ (∀ fileId opts,
       transformJsx (js "x < y") fileId opts = js "x < y"
       ∧ transformJsx (js "a() < b") fileId opts = js "a() < b"
       ∧ transformJsx (js "x = count() < totalItems") fileId opts
         = js "x = count() < totalItems"
       ∧ transformJsx comparisons_file fileId opts = comparisons_file
       ∧ transformJsx chained_file fileId opts = chained_file)
  ∧ (index <$> matchAll comparisons_file 0 = [37; 84]
     ∧ index <$> matchAll chained_file 0 = [68]
     ∧ confirmed comparisons_file = [] ∧ confirmed chained_file = []
     ∧ transform dev_plugin comparisons_file (js "/project/src/foo.tsx") = None
     ∧ transform dev_plugin chained_file (js "/project/src/foo.tsx") = None).
Proof.
  split; [exact isLikelyJsx_start|].
  split; [intros pre ch ws after; apply isLikelyJsx_opener|].
  split; [intros pre ch ws after; apply isLikelyJsx_closer|].
  split.
  { intros pre w ws after Hne Hw Hb Hws.
    rewrite isLikelyJsx_after_word by done.
    split; intros Hk; [by apply bool_decide_eq_true_2|by apply bool_decide_eq_false_2]. }
  split; [split; by vm_compute|].
  split; [repeat split; by vm_compute|].
  split; [split; by vm_compute|].
  split; [repeat split; by vm_compute|].
  split; [|repeat split; by vm_compute].
  intros fileId opts.
  repeat split; apply transformJsx_none_confirmed; by vm_compute.
Qed.

Lemma isLikelyJsx_classifies_witness :
  isLikelyJsx (js "  return visiblePageCount() < totalPages ") 28 = false
  ∧ isLikelyJsx (js "  return <div>") 9 = true.
Proof.
  split.
  - apply (proj1 (proj2 (proj2 isLikelyJsx_classifies))
             (js "  return visiblePageCount(") ")"%char (js " ") (js "< totalPages ")).
    + repeat constructor.
    + intros H%is_blank_iff. discriminate H.
    + unfold closer. by left.
  - apply (proj1 (proj2 (proj2 (proj2 isLikelyJsx_classifies)))
             (js "  ") (js "return") (js " ") (js "<div>")).
    + discriminate.
    + by repeat constructor.
    + intros x Hx. injection Hx as <-. reflexivity.
    + repeat constructor.
    + unfold keywords. by left.
Defined.

(** ** White space the scan does not skip *)

(** The scanned text once more, with the comparison written after a
    no-break space, and with a plain space. *)
Definition nbsp : ascii := "160"%char.

Definition nbsp_comparison : jsstring :=
  js "const ok = count()" ++ [nbsp] ++ js "< total ? 1 : 2;".

Definition space_comparison : jsstring :=
  js "const ok = count() < total ? 1 : 2;".

(** C1: the backward scan skips space, tab, line feed and carriage return
    and no other white space.  The vertical tab, the form feed and the
    no-break space are white space for the candidate pattern (and for the
    language), but the scan stops at them and, as they are neither closing
    nor opening marks nor word characters, answers markup whatever stands
    before them.  So in [const ok = count()], a no-break space,
    [< total ? 1 : 2;] the nearest character before the [<] that is not
    white space is a closing parenthesis, the [<] is a candidate of the
    pattern, [isLikelyJsx] answers markup and [transformJsx] writes
    [data-solid-source] into the comparison; with a plain space in the same
    place the answer is non-markup and the text is returned unchanged. *)
Theorem isLikelyJsx_unskipped_space :
  (∀ ch, Char.is_space ch = true ∧ is_blank ch = false
         ↔ ch ∈ ["011"%char; "012"%char; nbsp])
  ∧ (∀ pre ch ws after,
       Char.is_space ch = true → is_blank ch = false → Forall blank ws →
       isLikelyJsx (pre ++ ch :: ws ++ after) (length pre + 1 + length ws) = true)
  ∧ (exec nbsp_comparison 0 = Some (mkRegExpMatch 19 (js "< ") (js "total") (js " "))
     ∧ nbsp_comparison !! 18 = Some nbsp
     ∧ nbsp_comparison !! 17 = Some ")"%char
     ∧ isLikelyJsx nbsp_comparison 19 = true
     ∧ transformJsx nbsp_comparison (js "/src/App.tsx") (mkOptions true true)
       = js "const ok = count()" ++ [nbsp]
         ++ js "< total data-solid-source=" ++ [dquote] ++ js "src/App.tsx:1:20"
         ++ [dquote] ++ js " ? 1 : 2;")
  ∧ (exec space_comparison 0 = Some (mkRegExpMatch 19 (js "< ") (js "total") (js " "))
     ∧ isLikelyJsx space_comparison 19 = false
     ∧ transformJsx space_comparison (js "/src/App.tsx") (mkOptions true true)
       = space_comparison).
Proof.
  split; [|split; [|split; repeat split; by vm_compute]].
  - intros ch. rewrite !elem_of_cons, elem_of_nil.
    destruct ch as [[] [] [] [] [] [] [] []]; vm_compute;
      intuition (discriminate || auto).
  - intros pre ch ws after Hs Hb Hws.
    assert (Hch : ¬ blank ch) by (intros H%is_blank_iff; congruence).
    unfold isLikelyJsx.
    destruct (scan_to_ch pre ws after ch Hws Hch) as [-> ->]. simpl.
    assert (Hk : is_closer ch = false ∧ is_opener ch = false ∧ Char.is_word ch = false).
    { revert Hs Hb. destruct ch as [[] [] [] [] [] [] [] []]; by vm_compute. }
    destruct Hk as (-> & -> & ->). done.
Qed.

(** ** The matcher against the pattern read declaratively *)

Lemma space_not_tag_start c : Char.is_space c = true → is_tag_start c = false.
Proof. destruct c as [[] [] [] [] [] [] [] []]; by vm_compute. Qed.

Lemma tag_char_not_suffix c :
  is_tag_char c = true →
  Char.is_space c = false ∧ (c =? "/")%char = false ∧ (c =? ">")%char = false.
Proof. destruct c as [[] [] [] [] [] [] [] []]; by vm_compute. Qed.

(** What group 3 may be. *)
Definition suffix_form (x : jsstring) : Prop :=
  (∃ d, x = [d] ∧ Char.is_space d = true) ∨ x = js "/>" ∨ x = js ">".

(** [s] starts with a text of the pattern's form, split into the three
    groups [p], [t], [x]: any split, greedy or not. *)
Definition pattern_at (s p t x : jsstring) : Prop :=
  ∃ ws c cs rest,
    p = "<"%char :: ws ∧ t = c :: cs ∧ s = p ++ t ++ x ++ rest
    ∧ Forall (λ a, Char.is_space a = true) ws
    ∧ is_tag_start c = true
    ∧ Forall (λ a, is_tag_char a = true) cs
    ∧ suffix_form x.

Lemma take_while_stop p (a : jsstring) d rest :
  p d = false → Forall (λ c, p c = true) a →
  JS.take_while p (a ++ d :: rest) = a.
Proof.
  intros Hd. induction 1 as [|c a Hc _ IH]; simpl; [by rewrite Hd|].
  by rewrite Hc, IH.
Qed.

Lemma suffix_form_head x rest :
  suffix_form x →
  ∃ d r, x ++ rest = d :: r ∧ is_tag_char d = false.
Proof.
  intros [(d & -> & Hd) | [-> | ->]]; simpl; eexists _, _; (split; [done|]); try done.
  destruct (is_tag_char d) eqn:E; [|done].
  apply tag_char_not_suffix in E as [E _]. congruence.
Qed.

(** The matcher finds the groups of every text of the pattern's form, and
    only those: no other split of the text matches, so a backtracking
    matcher returns the same groups. *)
Lemma match_here_iff s p t x :
  match_here s = Some (p, t, x) ↔ pattern_at s p t x.
Proof.
  split.
  - unfold match_here. destruct s as [|lt r]; [done|].
    destruct (lt =? "<")%char eqn:Elt; [|done]. apply Ascii.eqb_eq in Elt as ->.
    pose proof (take_drop_while Char.is_space r) as Hr.
    pose proof (InspectorSpec.take_while_Forall Char.is_space r) as Hws.
    destruct (JS.drop_while Char.is_space r) as [|c r2] eqn:Er; [done|].
    destruct (is_tag_start c) eqn:Ec; [|done].
    pose proof (take_drop_while is_tag_char r2) as Hr2.
    pose proof (InspectorSpec.take_while_Forall is_tag_char r2) as Hcs.
    destruct (JS.drop_while is_tag_char r2) as [|d r4] eqn:Er2; [done|].
    assert (Hs : ∀ x rest, d :: r4 = x ++ rest →
              "<"%char :: r = ("<"%char :: JS.take_while Char.is_space r)
                ++ (c :: JS.take_while is_tag_char r2) ++ x ++ rest).
    { intros x' rest <-. rewrite <- Hr at 1. rewrite <- Hr2 at 1. by simpl. }
    destruct (Char.is_space d) eqn:Ed.
    { intros [= <- <- <-]. exists (JS.take_while Char.is_space r), c,
        (JS.take_while is_tag_char r2), r4.
      repeat split; try done; [by apply Hs|]. left. eauto. }
    destruct (d =? "/")%char eqn:Esl.
    { apply Ascii.eqb_eq in Esl as ->. destruct r4 as [|e r5]; [done|].
      destruct (e =? ">")%char eqn:Egt; [|done]. apply Ascii.eqb_eq in Egt as ->.
      intros [= <- <- <-]. exists (JS.take_while Char.is_space r), c,
        (JS.take_while is_tag_char r2), r5.
      repeat split; try done; [by apply Hs|]. right; by left. }
    destruct (d =? ">")%char eqn:Egt; [|done]. apply Ascii.eqb_eq in Egt as ->.
    intros [= <- <- <-]. exists (JS.take_while Char.is_space r), c,
      (JS.take_while is_tag_char r2), r4.
    repeat split; try done; [by apply Hs|]. right; by right.
  - intros (ws & c & cs & rest & -> & -> & -> & Hws & Hc & Hcs & Hx).
    unfold match_here. simpl.
    assert (Hcsp : Char.is_space c = false).
    { destruct (Char.is_space c) eqn:E; [|done].
      apply space_not_tag_start in E. congruence. }
    rewrite InspectorSpec.drop_while_stop, take_while_stop by done. rewrite Hc.
    destruct (suffix_form_head x rest Hx) as (d & r & Hxr & Hd).
    rewrite Hxr.
    rewrite InspectorSpec.drop_while_stop, take_while_stop by done.
    destruct Hx as [(d' & -> & Hd') | [-> | ->]]; simpl in Hxr;
      injection Hxr as <- <-; [by rewrite Hd'|done..].
Qed.

(** ** Lines and columns *)

(** The search stays between its bounds and on a line start that is not
    after the offset. *)
Lemma getLineCol_search_bounds starts offset n :
  ∀ lo hi,
    hi - lo < n → lo ≤ hi →
    (∃ s, starts !! lo = Some s ∧ s ≤ offset) →
    let r := getLineCol_search starts offset lo hi in
    lo ≤ r ≤ hi ∧ ∃ s, starts !! r = Some s ∧ s ≤ offset.
Proof.
  induction n as [|n IH]; [lia|]. intros lo hi Hn Hle Hlo. cbv zeta.
  rewrite getLineCol_search_step. destruct (decide (lo < hi)) as [Hlt|Hge].
  - cbv zeta.
    assert (Hmid : lo < Nat.div2 (lo + hi + 1) ≤ hi).
    { pose proof (Nat.div2_odd (lo + hi + 1)) as Hd.
      destruct (Nat.odd (lo + hi + 1)); simpl in Hd; lia. }
    unfold start_le.
    destruct (starts !! Nat.div2 (lo + hi + 1)) as [s|] eqn:Es.
    + destruct (s <=? offset) eqn:E.
      * apply Nat.leb_le in E.
        destruct (IH (Nat.div2 (lo + hi + 1)) hi) as [Hr Hs]; [lia..|eauto|].
        split; [lia|done].
      * destruct (IH lo (Nat.div2 (lo + hi + 1) - 1)) as [Hr Hs]; [lia..|done|].
        split; [lia|done].
    + destruct (IH lo (Nat.div2 (lo + hi + 1) - 1)) as [Hr Hs]; [lia..|done|].
      split; [lia|done].
  - split; [lia|done].
Qed.

(** The injector writes lines and columns from 1 on. *)
Lemma getLineCol_positive code offset :
  (1 ≤ (getLineCol (lineStarts code) offset).1)%Z
  ∧ (1 ≤ (getLineCol (lineStarts code) offset).2)%Z.
Proof.
  unfold getLineCol. cbv zeta. cbn [fst snd].
  destruct (getLineCol_search_bounds (lineStarts code) offset
              (S (length (lineStarts code))) 0 (length (lineStarts code) - 1))
    as [_ (s & Hs & Hle)]; [lia..|exists 0; split; [done|lia]|].
  rewrite Hs. unfold default; cbn [from_option id]. lia.
Qed.

(** Hence every [data-solid-source] value it builds has the format the
    resolver reads back to the same file, line and column. *)
Lemma injected_source_reads_back code fileId offset :
  let lc := getLineCol (lineStarts code) offset in
  InspectorSpec.injectorFormat (formatLocation (shortFile fileId) lc.1 lc.2)
  ∧ Inspector.parseSourceAttr (Some (formatLocation (shortFile fileId) lc.1 lc.2))
    = Some (mkSourceLocation (shortFile fileId) lc.1 lc.2).
Proof.
  cbv zeta. destruct (getLineCol_positive code offset) as [Hl Hc]. split.
  - exists (shortFile fileId), (getLineCol (lineStarts code) offset).1,
      (getLineCol (lineStarts code) offset).2. done.
  - apply InspectorSpec.parse_formatLocation; lia.
Qed.

(** ** The inserted text read as attributes

    What a reader of markup makes of a text of attributes such as the plugin
    writes: a sequence of [name="value"], each after optional white space,
    the name a run of word characters, hyphens and colons, the value all that
    stands before the next double quote; [None] when the text is not of that
    form.  This is the reading in which a tag has or has not a given
    attribute; it is not code of the plugin. *)

Definition is_attr_name_char (c : ascii) : bool :=
  Char.is_word c || (c =? "-")%char || (c =? ":")%char.

Definition not_dquote (c : ascii) : bool := negb (c =? dquote)%char.

Fixpoint readAttributes_from (fuel : nat) (s : jsstring)
    : option (list (jsstring * jsstring)) :=
  match fuel with
  | O => None
  | S fuel' =>
      match JS.drop_while Char.is_space s with
      | [] => Some []
      | s1 =>
          match JS.take_while is_attr_name_char s1,
                JS.drop_while is_attr_name_char s1 with
          | (_ :: _) as name, e :: q :: s2 =>
              if (e =? "=")%char && (q =? dquote)%char then
                match JS.drop_while not_dquote s2 with
                | _ :: s3 =>
                    (λ rest, (name, JS.take_while not_dquote s2) :: rest)
                      <$> readAttributes_from fuel' s3
                | [] => None
                end
              else None
          | _, _ => None
          end
      end
  end.

Definition readAttributes (s : jsstring) : option (list (jsstring * jsstring)) :=
  readAttributes_from (S (length s)) s.

Lemma name_char_facts c :
  is_attr_name_char c = true → Char.is_space c = false.
Proof. destruct c as [[] [] [] [] [] [] [] []]; by vm_compute. Qed.

(** One step of the reader. *)
Lemma readAttributes_from_S fuel s :
  readAttributes_from (S fuel) s =
    match JS.drop_while Char.is_space s with
    | [] => Some []
    | s1 =>
        match JS.take_while is_attr_name_char s1,
              JS.drop_while is_attr_name_char s1 with
        | (_ :: _) as name, e :: q :: s2 =>
            if (e =? "=")%char && (q =? dquote)%char then
              match JS.drop_while not_dquote s2 with
              | _ :: s3 =>
                  (λ rest, (name, JS.take_while not_dquote s2) :: rest)
                    <$> readAttributes_from fuel s3
              | [] => None
              end
            else None
        | _, _ => None
        end
    end.
Proof. reflexivity. Qed.

Lemma readAttributes_single name v :
  name ≠ [] → Forall (λ c, is_attr_name_char c = true) name → dquote ∉ v →
  readAttributes (js " " ++ name ++ js "=" ++ [dquote] ++ v ++ [dquote])
  = Some [(name, v)].
Proof.
  intros Hne Hname Hv. unfold readAttributes.
  assert (Hvq : Forall (λ c, not_dquote c = true) v).
  { apply Forall_forall. intros c Hc. unfold not_dquote.
    destruct (c =? dquote)%char eqn:E; [|done].
    apply Ascii.eqb_eq in E as ->. done. }
  destruct name as [|n0 name]; [done|].
  pose proof (Forall_inv Hname) as Hn0.
  set (rest := "="%char :: dquote :: v ++ [dquote]).
  change (js " " ++ (n0 :: name) ++ js "=" ++ [dquote] ++ v ++ [dquote])
    with (" "%char :: n0 :: (name ++ rest)).
  assert (H1 : JS.drop_while Char.is_space (" "%char :: n0 :: (name ++ rest))
               = n0 :: (name ++ rest)).
  { simpl. by rewrite (name_char_facts _ Hn0). }
  assert (H2 : JS.take_while is_attr_name_char (n0 :: (name ++ rest)) = n0 :: name).
  { change (n0 :: (name ++ rest)) with ((n0 :: name) ++ rest).
    by apply take_while_stop. }
  assert (H3 : JS.drop_while is_attr_name_char (n0 :: (name ++ rest)) = rest).
  { change (n0 :: (name ++ rest)) with ((n0 :: name) ++ rest).
    by apply InspectorSpec.drop_while_stop. }
  assert (H4 : JS.take_while not_dquote (v ++ [dquote]) = v)
    by (by apply take_while_stop).
  assert (H5 : JS.drop_while not_dquote (v ++ [dquote]) = [dquote])
    by (by apply InspectorSpec.drop_while_stop).
  cbn [length]. rewrite readAttributes_from_S, H1. cbv iota zeta.
  rewrite H2, H3. subst rest. cbv iota.
  rewrite Ascii.eqb_refl. change (("=" =? "=")%char) with true. cbn [andb].
  rewrite H4, H5. by rewrite readAttributes_from_S.
Qed.

Lemma shortFile_no_dquote fileId : dquote ∉ fileId → dquote ∉ shortFile fileId.
Proof.
  destruct fileId as [|c rest]; [done|]. simpl.
  destruct (c =? "/")%char; [|done]. rewrite not_elem_of_cons. by intros [_ ?].
Qed.

Lemma Number_toString_no_dquote n : dquote ∉ JS.Number_toString n.
Proof.
  unfold JS.Number_toString.
  destruct (InspectorSpec.to_digits_spec _ _ (InspectorSpec.size_bound (Z.abs_N n))) as (Hall & _ & _).
  assert (Hds : dquote ∉ JS.to_digits (N.to_nat (N.size (Z.abs_N n))) (Z.abs_N n) []).
  { intros Hin. rewrite Forall_forall in Hall. by apply Hall in Hin. }
  destruct (n <? 0)%Z; [|done]. rewrite not_elem_of_cons. by split.
Qed.

(** C8: with [componentLocation: false] and [jsxLocation: true], and a
    file name without a double quote, the attributes built for a tag are,
    whatever the tag name (so also for a name with an upper-case initial or
    a dot), the one text [data-solid-source="file:line:column"];
    [transformJsx] is the input with a space and that text spliced in after
    the name of every confirmed tag, and nothing else; and the inserted text
    reads as exactly one attribute, named [data-solid-source], so no tag
    gets a [data-solid-component] attribute. *)
Theorem location_only_injection code fileId :
  dquote ∉ fileId →
  let source (l c : Z) : jsstring :=
    shortFile fileId ++ js ":" ++ JS.Number_toString l ++ js ":" ++ JS.Number_toString c in
  (∀ l c tag,
     injectedAttrs (mkOptions true false) (shortFile fileId) l c tag
     = [js "data-solid-source=" ++ [dquote] ++ source l c ++ [dquote]])
  ∧ transformJsx code fileId (mkOptions true false)
    = splice code 0
        (map (λ m,
                let lc := getLineCol (lineStarts code) (index m) in
                (tagEnd m,
                 js " data-solid-source=" ++ [dquote] ++ source lc.1 lc.2 ++ [dquote]))
             (confirmed code))
  ∧ (∀ l c,
       readAttributes (js " data-solid-source=" ++ [dquote] ++ source l c ++ [dquote])
       = Some [(js "data-solid-source", source l c)]).
Proof.
  intros Hq source. split; [|split].
  - intros l c tag. unfold injectedAttrs, Inspector.quotedAttr, formatLocation.
    subst source. cbn. by rewrite <- !app_assoc.
  - destruct (transformJsx_splice code fileId (mkOptions true false)) as [-> _].
    rewrite insertions_sites. f_equal. unfold injectionSites.
    assert (Hall : List.filter (λ m, attributed (mkOptions true false) (tagName m))
                     (confirmed code) = confirmed code).
    { induction (confirmed code) as [|m ms IH]; [done|]. simpl. by rewrite IH. }
    rewrite Hall. apply map_ext. intros m. f_equal.
  - intros l c.
    apply (readAttributes_single (js "data-solid-source") (source l c)).
    + done.
    + by repeat constructor.
    + subst source. cbv beta. rewrite !not_elem_of_app. repeat split.
      * by apply shortFile_no_dquote.
      * apply (bool_decide_unpack _). by vm_compute.
      * apply Number_toString_no_dquote.
      * apply (bool_decide_unpack _). by vm_compute.
      * apply Number_toString_no_dquote.
Qed.

Lemma location_only_injection_witness :
  (dquote ∉ js "/src/App.tsx")
  ∧ transformJsx (js "return <Foo.Bar><MyComponent /></Foo.Bar>") (js "/src/App.tsx")
      (mkOptions true false)
    = js "return <Foo.Bar data-solid-source=" ++ [dquote] ++ js "src/App.tsx:1:8"
      ++ [dquote] ++ js "><MyComponent data-solid-source=" ++ [dquote]
      ++ js "src/App.tsx:1:17" ++ [dquote] ++ js " /></Foo.Bar>".
Proof.
  assert (Hq : dquote ∉ js "/src/App.tsx").
  { apply (bool_decide_unpack _). by vm_compute. }
  split; [exact Hq|].
  rewrite (proj1 (proj2 (location_only_injection
                           (js "return <Foo.Bar><MyComponent /></Foo.Bar>")
                           (js "/src/App.tsx") Hq))).
  by vm_compute.
Defined.

(** A file name with a double quote: the plugin writes it unescaped. *)
Definition quoted_file : jsstring :=
  js "src/a" ++ [dquote] ++ js " data-solid-component=" ++ [dquote] ++ js "Evil.tsx".

(** With that file name the text inserted into a [div], under
    [componentLocation: false], is two attributes, the second of them
    [data-solid-component]. *)
Lemma location_only_injection_quoted_file :
  (dquote ∈ quoted_file)
  ∧ transformJsx (js "return <div>") quoted_file (mkOptions true false)
    = js "return <div data-solid-source=" ++ [dquote] ++ js "src/a" ++ [dquote]
      ++ js " data-solid-component=" ++ [dquote] ++ js "Evil.tsx:1:8" ++ [dquote]
      ++ js ">"
  ∧ readAttributes
      (js " data-solid-source=" ++ [dquote] ++ js "src/a" ++ [dquote]
       ++ js " data-solid-component=" ++ [dquote] ++ js "Evil.tsx:1:8" ++ [dquote])
    = Some [(js "data-solid-source", js "src/a");
            (js "data-solid-component", js "Evil.tsx:1:8")].
Proof.
  split; [|split; by vm_compute].
  apply (bool_decide_unpack _). by vm_compute.
Qed.

End ViteSpec.

(** * Further properties of the injector *)

Module ViteProps.
Import Vite ViteSpec.

(** ** Lines and columns are the true ones *)

(** The number of line feeds in a text. *)
Definition lf_count (s : jsstring) : nat :=
  length (List.filter (λ c, (c =? newline)%char) s).

Lemma lineStarts_from_app i (a b : jsstring) :
  lineStarts_from i (a ++ b) = lineStarts_from i a ++ lineStarts_from (i + length a) b.
Proof.
  revert i. induction a as [|c a IH]; intros i; simpl.
  - by rewrite Nat.add_0_r.
  - rewrite IH. replace (S i + length a) with (i + S (length a)) by lia.
    by destruct (c =? newline)%char.
Qed.

Lemma lineStarts_from_range i (s : jsstring) :
  Forall (λ x, i < x ≤ i + length s) (lineStarts_from i s).
Proof.
  revert i. induction s as [|c s IH]; intros i; simpl; [constructor|].
  assert (Hrest : Forall (λ x, i < x ≤ i + S (length s)) (lineStarts_from (S i) s)).
  { eapply Forall_impl; [apply IH|]. simpl. intros x Hx. lia. }
  destruct (c =? newline)%char; [|done]. constructor; [lia|done].
Qed.

Lemma lineStarts_from_length i (s : jsstring) :
  length (lineStarts_from i s) = lf_count s.
Proof.
  unfold lf_count. revert i. induction s as [|c s IH]; intros i; simpl; [done|].
  destruct (c =? newline)%char; simpl; by rewrite IH.
Qed.

Lemma lineStarts_from_none i (s : jsstring) :
  Forall (λ c, c ≠ newline) s → lineStarts_from i s = [].
Proof.
  revert i. induction s as [|c s IH]; intros i Hs; simpl; [done|].
  apply Forall_cons in Hs as [Hc Hs].
  destruct (c =? newline)%char eqn:E; [by apply Ascii.eqb_eq in E|by apply IH].
Qed.

(** The search finds the last start that is not after the offset, when the
    starts up to it are not after the offset and the others are. *)
Lemma getLineCol_search_partition (A B : list nat) offset n :
  Forall (λ x, x ≤ offset) A → Forall (λ x, offset < x) B →
  ∀ lo hi,
    hi - lo < n → lo < length A → length A ≤ S hi → hi < length (A ++ B) →
    getLineCol_search (A ++ B) offset lo hi = length A - 1.
Proof.
  intros HA HB. induction n as [|n IH]; [lia|]. intros lo hi Hn Hlo Hhi Hlen.
  rewrite getLineCol_search_step. destruct (decide (lo < hi)) as [Hlt|Hge]; [|lia].
  cbv zeta.
  assert (Hmid : lo < Nat.div2 (lo + hi + 1) ≤ hi).
  { pose proof (Nat.div2_odd (lo + hi + 1)) as Hd.
    destruct (Nat.odd (lo + hi + 1)); simpl in Hd; lia. }
  set (mid := Nat.div2 (lo + hi + 1)) in *.
  unfold start_le. destruct (decide (mid < length A)) as [HmA|HmA].
  - destruct (lookup_lt_is_Some_2 A mid HmA) as [s Hs].
    rewrite (lookup_app_l_Some _ _ _ _ Hs).
    rewrite Forall_lookup in HA. specialize (HA _ _ Hs).
    apply Nat.leb_le in HA. rewrite HA. apply IH; lia.
  - rewrite lookup_app_r by lia.
    rewrite length_app in Hlen.
    destruct (lookup_lt_is_Some_2 B (mid - length A)) as [s Hs]; [lia|].
    rewrite Hs. rewrite Forall_lookup in HB. specialize (HB _ _ Hs).
    assert (Hf : (s <=? offset) = false) by (apply Nat.leb_gt; lia).
    rewrite Hf. apply IH; rewrite ?length_app; lia.
Qed.

Lemma getLineCol_true_position_aux heads tail post :
  heads = [] ∨ last heads = Some newline →
  Forall (λ c, c ≠ newline) tail →
  getLineCol (lineStarts (heads ++ tail ++ post)) (length heads + length tail)
  = (Z.of_nat (lf_count heads) + 1, Z.of_nat (length tail) + 1)%Z.
Proof.
  intros Hheads Htail.
  set (offset := length heads + length tail).
  set (A := 0 :: lineStarts_from 0 heads).
  set (B := lineStarts_from (length heads + length tail) post).
  assert (Hstarts : lineStarts (heads ++ tail ++ post) = A ++ B).
  { unfold lineStarts, A, B. rewrite !lineStarts_from_app.
    rewrite (lineStarts_from_none _ tail) by done. by simpl. }
  assert (HA : Forall (λ x, x ≤ offset) A).
  { constructor; [lia|]. eapply Forall_impl; [apply lineStarts_from_range|].
    simpl. intros x Hx. unfold offset. lia. }
  assert (HB : Forall (λ x, offset < x) B).
  { eapply Forall_impl; [apply lineStarts_from_range|]. simpl. intros x Hx.
    unfold offset. lia. }
  assert (HlenA : length A = S (lf_count heads)).
  { unfold A. simpl. by rewrite lineStarts_from_length. }
  assert (Hlast : A !! (length A - 1) = Some (length heads)).
  { rewrite HlenA. replace (S (lf_count heads) - 1) with (lf_count heads) by lia.
    destruct Hheads as [-> | Hl]; [done|].
    apply last_Some in Hl as [h ->]. unfold A.
    rewrite lineStarts_from_app. simpl.
    unfold lf_count. rewrite List.filter_app, !length_app. simpl.
    replace (length (List.filter (λ c, (c =? newline)%char) h) + 1)
      with (S (length (lineStarts_from 0 h)))
      by (rewrite lineStarts_from_length; unfold lf_count; lia).
    change (0 :: lineStarts_from 0 h ++ [S (length h)])
      with ((0 :: lineStarts_from 0 h) ++ [S (length h)]).
    rewrite list_lookup_middle by done. f_equal. lia. }
  unfold getLineCol. rewrite Hstarts.
  rewrite (getLineCol_search_partition A B offset (S (length (A ++ B))))
    by (done || rewrite ?length_app; lia).
  rewrite (lookup_app_l_Some _ _ _ _ Hlast). unfold default; cbn [from_option id].
  f_equal; unfold offset; lia.
Qed.

(** X1: the line and column computed for an offset are the true 1-based
    ones.  With the text before the offset split at its last line feed into
    [heads] (empty, or ending in a line feed) and [tail] (free of line
    feeds), the line is one more than the number of line feeds in [heads]
    and the column one more than the length of [tail]. *)
Theorem getLineCol_true_position heads tail post :
  heads = [] ∨ last heads = Some newline →
  Forall (λ c, c ≠ newline) tail →
  getLineCol (lineStarts (heads ++ tail ++ post)) (length heads + length tail)
  = (Z.of_nat (lf_count heads) + 1, Z.of_nat (length tail) + 1)%Z.
Proof. apply getLineCol_true_position_aux. Qed.

Lemma getLineCol_true_position_witness :
  getLineCol (lineStarts (js "a
bc <div>")) 5 = (2, 4)%Z.
Proof.
  apply (getLineCol_true_position (js "a
") (js "bc ") (js "<div>")).
  - right. reflexivity.
  - repeat constructor; discriminate.
Defined.

(** ** Nothing of the source is lost *)

Lemma splice_sublist code pos ins :
  placed code pos ins → sublist (drop pos code) (splice code pos ins).
Proof.
  revert pos. induction ins as [|[a t] r IH]; simpl; intros pos Hpl; [done|].
  destruct Hpl as [Ha Hr]. rewrite (slice_drop pos a) by done.
  apply sublist_app; [done|]. apply sublist_inserts_l. by apply IH.
Qed.

(** X2: for every text, file name and setting of the options, the output of
    [transformJsx] is the input with, for exactly the confirmed matches that
    have an enabled attribute, a space and the attributes inserted right
    after the tag name, in ascending positions inside the text.  Nothing of
    the input is removed or reordered: the input is a subsequence of the
    output, and the output is longer by the inserted texts. *)
Theorem transformJsx_inserts_only code fileId opts :
  let ins := map (λ m, (tagEnd m, attrString code fileId opts m))
                 (injectionSites code opts) in
  transformJsx code fileId opts = splice code 0 ins
  ∧ placed code 0 ins
  ∧ sublist code (transformJsx code fileId opts)
  ∧ length (transformJsx code fileId opts)
    = length code + sum_list (map (λ i, length i.2) ins).
Proof.
  cbv zeta. destruct (transformJsx_splice code fileId opts) as [Heq Hpl].
  rewrite insertions_sites in Heq, Hpl. rewrite Heq.
  split; [done|]. split; [done|]. split.
  - by apply (splice_sublist code 0).
  - rewrite length_splice by done. lia.
Qed.

(** ** What [exec] finds *)

(** Position [j] of [code] is a candidate with groups [p], [t], [x]: the
    text from [j] on has the pattern's form and the text before [j] does not
    end in a word character. *)
Definition candidate_at (code : jsstring) (j : nat) (p t x : jsstring) : Prop :=
  word_boundary (take j code) ∧ pattern_at (drop j code) p t x.

Lemma lookbehind_boundary pre : lookbehind (last pre) = true ↔ word_boundary pre.
Proof.
  unfold word_boundary, lookbehind. destruct (last pre) as [c|]; [|done].
  rewrite negb_true_iff. split; [by intros H x [= <-]|eauto].
Qed.

Lemma pattern_at_nil p t x : ¬ pattern_at [] p t x.
Proof. by intros (ws & c & cs & rest & -> & -> & H & _). Qed.

Lemma exec_from_leftmost code n :
  ∀ i, length code - i < n → i ≤ length code →
    match exec_from (last (take i code)) i (drop i code) with
    | Some m =>
        i ≤ index m
        ∧ candidate_at code (index m) (prefix m) (tagName m) (suffix m)
        ∧ ∀ j p t x, i ≤ j < index m → ¬ candidate_at code j p t x
    | None => ∀ j p t x, i ≤ j → ¬ candidate_at code j p t x
    end.
Proof.
  induction n as [|n IH]; [lia|]. intros i Hn Hi.
  destruct (drop i code) as [|c s'] eqn:Ed.
  - simpl. assert (Hlen : length code ≤ i).
    { apply (f_equal length) in Ed. rewrite length_drop in Ed. simpl in Ed. lia. }
    destruct (lookbehind (last (take i code))); simpl;
      intros j p t x Hj [_ Hp]; rewrite drop_ge in Hp by lia;
      by apply pattern_at_nil in Hp.
  - assert (Hc : code !! i = Some c).
    { rewrite <- (Nat.add_0_r i), <- lookup_drop, Ed. done. }
    assert (Hnext : exec_from (Some c) (S i) s'
                    = exec_from (last (take (S i) code)) (S i) (drop (S i) code)).
    { rewrite (take_S_r _ _ _ Hc), last_snoc. f_equal.
      rewrite (drop_S _ _ _ Hc) in Ed. by injection Ed. }
    assert (Hhere : ∀ p t x, candidate_at code i p t x ↔
              lookbehind (last (take i code)) = true
              ∧ match_here (c :: s') = Some (p, t, x)).
    { intros p t x. unfold candidate_at.
      by rewrite Ed, lookbehind_boundary, match_here_iff. }
    cbn [exec_from].
    destruct (if lookbehind (last (take i code)) then match_here (c :: s') else None)
      as [[[p t] x]|] eqn:E.
    + simpl. split; [done|]. split; [|intros; lia].
      apply Hhere. destruct (lookbehind (last (take i code))); [done|discriminate].
    + assert (Hnot : ∀ p t x, ¬ candidate_at code i p t x).
      { intros p t x [Hl Hm]%Hhere. rewrite Hl, Hm in E. done. }
      rewrite Hnext.
      assert (HSi : S i ≤ length code) by (apply lookup_lt_Some in Hc; lia).
      specialize (IH (S i) ltac:(lia) HSi).
      destruct (exec_from (last (take (S i) code)) (S i) (drop (S i) code)) as [m|].
      * destruct IH as (Hidx & Hcand & Hleft). split; [lia|]. split; [done|].
        intros j p t x Hj. destruct (decide (j = i)) as [->|Hne]; [apply Hnot|].
        apply Hleft. lia.
      * intros j p t x Hj. destruct (decide (j = i)) as [->|Hne]; [apply Hnot|].
        apply IH. lia.
Qed.

Lemma candidate_at_chars code j p t x :
  candidate_at code j p t x →
  code !! j = Some "<"%char
  ∧ (∀ c, 0 < j → code !! (j - 1) = Some c → Char.is_word c = false)
  ∧ ∃ c, code !! S j = Some c
         ∧ (Char.is_space c = true ∨ is_tag_start c = true).
Proof.
  intros [Hb (ws & c & cs & rest & -> & -> & Hs & Hws & Hc & _)].
  assert (Hat : ∀ k, code !! (j + k) = (("<"%char :: ws) ++ (c :: cs) ++ x ++ rest) !! k).
  { intros k. by rewrite <- lookup_drop, Hs. }
  split; [|split].
  - by rewrite <- (Nat.add_0_r j), Hat.
  - intros d Hj Hd. apply Hb. rewrite last_lookup, length_take.
    apply lookup_lt_Some in Hd as Hlt.
    replace (pred (j `min` length code)) with (j - 1) by lia.
    rewrite lookup_take_lt by lia. done.
  - replace (S j) with (j + 1) by lia. rewrite Hat. simpl.
    destruct ws as [|w ws]; simpl.
    + exists c. auto.
    + exists w. split; [done|]. left. by apply Forall_inv in Hws.
Qed.

Lemma exec_candidates code lastIndex :
  lastIndex ≤ length code →
  match exec code lastIndex with
  | Some m =>
      lastIndex ≤ index m
      ∧ candidate_at code (index m) (prefix m) (tagName m) (suffix m)
      ∧ (∀ j p t x, lastIndex ≤ j < index m → ¬ candidate_at code j p t x)
  | None => ∀ j p t x, lastIndex ≤ j → ¬ candidate_at code j p t x
  end.
Proof.
  intros Hli. unfold exec.
  assert (Hle : (length code <? lastIndex) = false) by (apply Nat.ltb_ge; lia).
  rewrite Hle.
  assert (Hprev : match lastIndex with O => None | S k => code !! k end
                  = last (take lastIndex code)).
  { destruct lastIndex as [|k]; [done|].
    rewrite last_lookup, length_take.
    replace (pred (S k `min` length code)) with k by lia.
    by rewrite lookup_take_lt by lia. }
  rewrite Hprev.
  apply (exec_from_leftmost code (S (length code))); lia.
Qed.

(** X3: [exec] returns the leftmost candidate at or after [lastIndex], with
    the groups of the pattern, and [null] exactly when there is none.  A
    match starts at a [<] that no word character precedes (so never the [<]
    of a type argument list after an identifier) and that is followed by
    white space or by a letter or underscore (so never [</], [<>], [<=] or
    [<<]). *)
Theorem exec_leftmost code lastIndex :
  lastIndex ≤ length code →
  match exec code lastIndex with
  | Some m =>
      lastIndex ≤ index m
      ∧ candidate_at code (index m) (prefix m) (tagName m) (suffix m)
      ∧ (∀ j p t x, lastIndex ≤ j < index m → ¬ candidate_at code j p t x)
      ∧ code !! index m = Some "<"%char
      ∧ (∀ c, 0 < index m → code !! (index m - 1) = Some c → Char.is_word c = false)
      ∧ (∃ c, code !! S (index m) = Some c
              ∧ (Char.is_space c = true ∨ is_tag_start c = true))
  | None => ∀ j p t x, lastIndex ≤ j → ¬ candidate_at code j p t x
  end.
Proof.
  intros Hli. pose proof (exec_candidates code lastIndex Hli) as H.
  destruct (exec code lastIndex) as [m|]; [|done].
  destruct H as (H1 & H2 & H3).
  destruct (candidate_at_chars _ _ _ _ _ H2) as (H4 & H5 & H6).
  exact (conj H1 (conj H2 (conj H3 (conj H4 (conj H5 H6))))).
Qed.

Lemma exec_leftmost_witness :
  0 ≤ length (js "a<b> </c> <= <<")
  ∧ ¬ candidate_at (js "a<b> </c> <= <<") 1 [] (js "b") [].
Proof.
  split; [simpl; lia|].
  exact (exec_leftmost (js "a<b> </c> <= <<") 0 ltac:(simpl; lia)
           1 [] (js "b") [] ltac:(lia)).
Defined.

(** ** The matches the loop visits are the candidates, all of them *)

(** The groups of a candidate hold no further [<]. *)
Lemma candidate_span code j p t x k :
  candidate_at code j p t x →
  0 < k < length (p ++ t ++ x) → code !! (j + k) ≠ Some "<"%char.
Proof.
  intros [_ (ws & c & cs & rest & -> & -> & Hs & Hws & Hc & Hcs & Hx)] Hk.
  assert (Hin : ∀ d, d ∈ ws ++ (c :: cs) ++ x → d ≠ "<"%char).
  { intros d Hd. rewrite !elem_of_app in Hd. intros ->.
    destruct Hd as [Hd | [Hd | Hd]].
    - rewrite Forall_forall in Hws. by specialize (Hws _ Hd).
    - apply elem_of_cons in Hd as [<- | Hd]; [done|].
      rewrite Forall_forall in Hcs. by specialize (Hcs _ Hd).
    - destruct Hx as [(d' & -> & Hd') | [-> | ->]].
      + apply list_elem_of_singleton in Hd as <-. done.
      + apply list_elem_of_In in Hd. simpl in Hd. intuition discriminate.
      + apply list_elem_of_In in Hd. simpl in Hd. intuition discriminate. }
  assert (Heq : ("<"%char :: ws) ++ (c :: cs) ++ x ++ rest
                = "<"%char :: (ws ++ (c :: cs) ++ x) ++ rest).
  { simpl. rewrite <- app_assoc. simpl. by rewrite <- app_assoc. }
  rewrite <- lookup_drop, Hs, Heq.
  assert (Hlen : k - 1 < length (ws ++ (c :: cs) ++ x)).
  { rewrite !length_app in *. simpl in *. lia. }
  destruct k as [|k]; [lia|]. replace (S k - 1) with k in Hlen by lia.
  rewrite lookup_cons_ne_0 by done. simpl pred. rewrite lookup_app_l by done.
  intros Hd. by apply list_elem_of_lookup_2, Hin in Hd.
Qed.

(** Each match starts where the one before ended or later. *)
Fixpoint in_order (pos : nat) (ms : list RegExpMatch) : Prop :=
  match ms with
  | [] => True
  | m :: rest => pos ≤ index m ∧ index m < matchEnd m ∧ in_order (matchEnd m) rest
  end.

Lemma in_order_ge pos ms m : in_order pos ms → m ∈ ms → pos ≤ index m.
Proof.
  revert pos. induction ms as [|m0 ms IH]; intros pos Hord Hm.
  - by apply elem_of_nil in Hm.
  - destruct Hord as (H1 & H2 & H3).
    apply elem_of_cons in Hm as [->|Hm]; [done|].
    specialize (IH _ H3 Hm). lia.
Qed.

Lemma matchAll_exact code n :
  ∀ lastIndex, length code - lastIndex < n → lastIndex ≤ length code →
    in_order lastIndex (matchAll code lastIndex)
    ∧ ∀ j, lastIndex ≤ j →
        (∃ p t x, candidate_at code j p t x)
        ↔ ∃ m, m ∈ matchAll code lastIndex ∧ index m = j.
Proof.
  induction n as [|n IH]; [lia|]. intros li Hn Hli.
  rewrite matchAll_step. pose proof (exec_candidates code li Hli) as Hex.
  destruct (exec code li) as [m|] eqn:E.
  - destruct Hex as (Hidx & Hcand & Hleft).
    pose proof (exec_bounds _ _ _ E) as (_ & Hend & Hlen).
    destruct (IH (matchEnd m) ltac:(lia) Hlen) as [Hord Hrest].
    split; [done|]. intros j Hj. split.
    + intros (p & t & x & Hc).
      destruct (decide (j < index m)) as [Hlt|Hge]; [by destruct (Hleft j p t x)|].
      destruct (decide (j = index m)) as [->|Hne]; [exists m; split; [by left|done]|].
      destruct (decide (j < matchEnd m)) as [Hin|Hout].
      * exfalso. apply (candidate_span code (index m) _ _ _ (j - index m) Hcand).
        -- unfold matchEnd, fullMatch in Hin. lia.
        -- replace (index m + (j - index m)) with j by lia.
           by apply candidate_at_chars in Hc as [Hc _].
      * destruct (proj1 (Hrest j ltac:(lia))) as (m' & Hm' & Hi'); [eauto|].
        exists m'. split; [by right|done].
    + intros (m' & [->|Hm']%elem_of_cons & Hi').
      * subst j. eauto.
      * apply (Hrest j); [|eauto].
        subst j. by apply (in_order_ge _ _ _ Hord).
  - split; [done|]. intros j Hj. split.
    + intros (p & t & x & Hc). by destruct (Hex j p t x).
    + intros (m' & Hm' & _). by apply elem_of_nil in Hm'.
Qed.

(** X4: the matches the loop of [transformJsx] visits are exactly the
    candidate positions of the text: every position where the pattern's form
    begins after a non-word character is the start of one match, and every
    match starts at such a position.  They come in ascending order and do not
    overlap. *)
Theorem matchAll_candidates code :
  in_order 0 (matchAll code 0)
  ∧ ∀ j, (∃ p t x, candidate_at code j p t x)
         ↔ ∃ m, m ∈ matchAll code 0 ∧ index m = j.
Proof.
  destruct (matchAll_exact code (S (length code)) 0) as [Hord Hiff]; [lia..|].
  split; [done|]. intros j. apply Hiff. lia.
Qed.

(** ** [isLikelyJsx], completely *)

Lemma blank_suffix_split (before : jsstring) :
  Forall blank before
  ∨ ∃ pre ch ws, before = pre ++ ch :: ws ∧ Forall blank ws ∧ ¬ blank ch.
Proof.
  induction before as [|c before IH] using rev_ind; [by left|].
  destruct (is_blank c) eqn:E.
  - apply is_blank_iff in E. destruct IH as [Hall | (pre & ch & ws & -> & Hws & Hch)].
    + left. apply Forall_app. by split; [|constructor].
    + right. exists pre, ch, (ws ++ [c]). rewrite <- app_assoc. simpl.
      split; [done|]. split; [|done]. apply Forall_app. by split; [|constructor].
  - right. exists before, c, []. split; [done|]. split; [constructor|].
    intros H%is_blank_iff. congruence.
Qed.

Lemma word_suffix_split (s : jsstring) :
  ∃ pre w, s = pre ++ w ∧ Forall (λ c, Char.is_word c = true) w ∧ word_boundary pre.
Proof.
  induction s as [|c s IH] using rev_ind.
  - exists [], []. split; [done|]. split; [constructor|]. by intros x.
  - destruct (Char.is_word c) eqn:E.
    + destruct IH as (pre & w & -> & Hw & Hb). exists pre, (w ++ [c]).
      rewrite <- app_assoc. split; [done|]. split; [|done].
      apply Forall_app. by split; [|constructor].
    + exists (s ++ [c]), []. rewrite app_nil_r. split; [done|].
      split; [constructor|]. intros x. rewrite last_snoc. by intros [= <-].
Qed.

Lemma isLikelyJsx_other pre ch ws after :
  Forall blank ws → ¬ blank ch →
  is_closer ch = false → is_opener ch = false → Char.is_word ch = false →
  isLikelyJsx (pre ++ ch :: ws ++ after) (length pre + 1 + length ws) = true.
Proof.
  intros Hws Hch Hc Ho Hw. unfold isLikelyJsx.
  destruct (scan_to_ch pre ws after ch Hws Hch) as [-> ->]. simpl.
  by rewrite Hc, Ho, Hw.
Qed.

(** X5: the classifier answers "not markup" in two situations only: the
    nearest non-blank character before the [<] is a closing parenthesis or
    bracket or a quote, or it ends a whole word that is not one of the five
    keywords.  In every other situation (start of the text, an opening mark,
    a keyword, any other character such as a closing brace or a dot) it
    answers "markup". *)
Theorem isLikelyJsx_false_iff before after :
  isLikelyJsx (before ++ after) (length before) = false
  ↔ ∃ pre ch ws,
      before = pre ++ ch :: ws ∧ Forall blank ws ∧ ¬ blank ch
      ∧ (closer ch
         ∨ ∃ pre' w, pre ++ [ch] = pre' ++ w ∧ w ≠ []
                     ∧ Forall (λ c, Char.is_word c = true) w
                     ∧ word_boundary pre' ∧ w ∉ keywords).
Proof.
  assert (Hshape : ∀ pre ch ws,
            (pre ++ ch :: ws) ++ after = pre ++ ch :: ws ++ after
            ∧ length (pre ++ ch :: ws) = length pre + 1 + length ws).
  { intros pre ch ws. rewrite <- app_assoc, length_app. simpl. split; [done|lia]. }
  split.
  - intros Hfalse.
    destruct (blank_suffix_split before) as [Hall | (pre & ch & ws & -> & Hws & Hch)].
    { by rewrite isLikelyJsx_start in Hfalse. }
    destruct (Hshape pre ch ws) as [Hcode Hlen]. rewrite Hcode, Hlen in Hfalse.
    exists pre, ch, ws. split; [done|]. split; [done|]. split; [done|].
    destruct (is_closer ch) eqn:Ec; [left; by apply is_closer_iff|].
    destruct (is_opener ch) eqn:Eo.
    { apply is_opener_iff in Eo. by rewrite isLikelyJsx_opener in Hfalse. }
    destruct (Char.is_word ch) eqn:Ew.
    + right. destruct (word_suffix_split (pre ++ [ch])) as (pre' & w & Hsplit & Hw & Hb).
      assert (Hne : w ≠ []).
      { intros ->. rewrite app_nil_r in Hsplit. subst pre'.
        specialize (Hb ch). rewrite last_snoc in Hb. specialize (Hb eq_refl). congruence. }
      exists pre', w. repeat split; try done.
      rewrite (isLikelyJsx_word pre ws after ch Hws Hch pre' w) in Hfalse by done.
      by apply bool_decide_eq_false in Hfalse.
    + by rewrite isLikelyJsx_other in Hfalse.
  - intros (pre & ch & ws & -> & Hws & Hch & Hcase).
    destruct (Hshape pre ch ws) as [-> ->].
    destruct Hcase as [Hc | (pre' & w & Hsplit & Hne & Hw & Hb & Hk)].
    + by apply isLikelyJsx_closer.
    + rewrite (isLikelyJsx_word pre ws after ch Hws Hch pre' w) by done.
      by apply bool_decide_eq_false.
Qed.

(** ** The other settings of the options *)

Lemma COMPONENT_NAME_RE_test_iff tag :
  COMPONENT_NAME_RE_test tag = true
  ↔ (∃ c rest, tag = c :: rest ∧ Char.is_upper c = true) ∨ "."%char ∈ tag.
Proof.
  unfold COMPONENT_NAME_RE_test. rewrite orb_true_iff, existsb_exists. split.
  - intros [H | (c & Hin & ->%Ascii.eqb_eq)].
    + left. destruct tag as [|c rest]; [done|]. eauto.
    + right. by apply list_elem_of_In.
  - intros [(c & rest & -> & Hc) | Hin]; [by left|].
    right. exists "."%char. split; [by apply list_elem_of_In|done].
Qed.

(** X6: with [jsxLocation: false] a tag gets an attribute only when
    [componentLocation] is on and its name starts with an upper-case letter
    or holds a dot, and then exactly the text [data-solid-component="name"]
    with the name as written, which reads as that one attribute; every
    other tag is left as it is.  So in
    [return <Foo.Bar><div><MyComponent /></div></Foo.Bar>] the two
    components are marked and the [div] is not.  With both options off the
    output is the input for every text, and the [transform] hook returns
    [null] for every file. *)
Theorem component_only_injection :
  (∀ f l c tag,
     injectedAttrs (mkOptions false true) f l c tag
     = if COMPONENT_NAME_RE_test tag
       then [js "data-solid-component=" ++ [dquote] ++ tag ++ [dquote]] else [])
  ∧ (∀ tag,
       COMPONENT_NAME_RE_test tag = true
       ↔ (∃ c rest, tag = c :: rest ∧ Char.is_upper c = true) ∨ "."%char ∈ tag)
  ∧ (∀ code fileId,
       transformJsx code fileId (mkOptions false true)
       = splice code 0
           (map (λ m, (tagEnd m,
                       js " data-solid-component=" ++ [dquote] ++ tagName m ++ [dquote]))
                (List.filter (λ m, COMPONENT_NAME_RE_test (tagName m))
                             (confirmed code))))
  ∧ (∀ tag,
       dquote ∉ tag →
       readAttributes (js " data-solid-component=" ++ [dquote] ++ tag ++ [dquote])
       = Some [(js "data-solid-component", tag)])
  ∧ transformJsx (js "return <Foo.Bar><div><MyComponent /></div></Foo.Bar>")
      (js "/src/App.tsx") (mkOptions false true)
    = js "return <Foo.Bar data-solid-component=" ++ [dquote] ++ js "Foo.Bar" ++ [dquote]
      ++ js "><div><MyComponent data-solid-component=" ++ [dquote] ++ js "MyComponent"
      ++ [dquote] ++ js " /></div></Foo.Bar>"
  ∧ (∀ code fileId, transformJsx code fileId (mkOptions false false) = code)
  ∧ (∀ p code id, options p = mkOptions false false → transform p code id = None).
Proof.
  split; [|split; [exact COMPONENT_NAME_RE_test_iff|split; [|split; [|split; [|split]]]]].
  - intros f l c tag. unfold injectedAttrs. simpl.
    by destruct (COMPONENT_NAME_RE_test tag).
  - intros code fileId.
    destruct (transformJsx_splice code fileId (mkOptions false true)) as [-> _].
    rewrite insertions_sites. f_equal. unfold injectionSites.
    induction (confirmed code) as [|m ms IH]; [done|]. cbn [List.filter].
    unfold attributed at 1. simpl.
    destruct (COMPONENT_NAME_RE_test (tagName m)) eqn:E; [|exact IH].
    cbn [map]. rewrite IH. f_equal. f_equal.
    unfold attrString, attrsFor, injectedAttrs. simpl. by rewrite E.
  - intros tag Htag.
    apply (readAttributes_single (js "data-solid-component") tag);
      [done|by repeat constructor|done].
  - by vm_compute.
  - intros code fileId. apply transformJsx_no_sites. unfold injectionSites.
    induction (confirmed code) as [|m ms IH]; [done|]. by simpl.
  - intros p code id Hopts. unfold transform.
    destruct (negb (isDev p)); [done|]. destruct (negb (isJsxFile id)); [done|].
    destruct (JS.includes (js "node_modules") id); [done|].
    rewrite Hopts, transformJsx_no_sites.
    + unfold jsstring_eqb. by rewrite bool_decide_eq_true_2.
    + unfold injectionSites. induction (confirmed code) as [|m ms IH]; [done|]. by simpl.
Qed.

(** ** When the hook changes a file, and which path it writes *)

Lemma startsWith_iff p s : JS.startsWith p s = true ↔ ∃ r, s = p ++ r.
Proof.
  revert s. induction p as [|a p IH]; intros s; simpl.
  - split; [eauto|done].
  - destruct s as [|b s]; [split; [done|by intros [r Hr]]|].
    rewrite andb_true_iff, Ascii.eqb_eq, IH. split.
    + intros [-> [r ->]]. eauto.
    + intros [r [= -> ->]]. eauto.
Qed.



(** The path handed to [transformJsx]. *)
Definition relativePath (p : Plugin) (id : jsstring) : jsstring :=
  if JS.startsWith (projectRoot p) id
  then JS.slice_from (length (projectRoot p) + 1) id
  else id.


(** X8: for a file [root/rel] of the project, every [data-solid-source]
    value the plugin writes for a match reads back, with [parseSourceAttr],
    as the path [rel] relative to the project root and the true 1-based line
    and column of the match's [<]: one more than the line feeds before it,
    and one more than the characters between the last of them and the
    [<]. *)
Theorem injected_location_resolves p code rel heads tail post m :
  jsxLocation (options p) = true →
  head rel ≠ Some "/"%char →
  code = heads ++ tail ++ post →
  index m = length heads + length tail →
  heads = [] ∨ last heads = Some newline →
  Forall (λ c, c ≠ newline) tail →
  relativePath p (projectRoot p ++ js "/" ++ rel) = rel
  ∧ ∃ v others,
      attrsFor code (relativePath p (projectRoot p ++ js "/" ++ rel)) (options p) m
      = Inspector.quotedAttr ATTR_SOURCE v :: others
      ∧ Inspector.parseSourceAttr (Some v)
        = Some (mkSourceLocation rel (Z.of_nat (lf_count heads) + 1)
                                 (Z.of_nat (length tail) + 1)).
Proof.
  intros Hjsx Hrel -> Hidx Hheads Htail.
  assert (Hpath : relativePath p (projectRoot p ++ js "/" ++ rel) = rel).
  { unfold relativePath.
    assert (Hs : JS.startsWith (projectRoot p) (projectRoot p ++ js "/" ++ rel) = true)
      by (apply startsWith_iff; eauto).
    rewrite Hs. unfold JS.slice_from.
    replace (length (projectRoot p) + 1) with (length (projectRoot p ++ js "/"))
      by (by rewrite length_app).
    by rewrite app_assoc, drop_app_length. }
  split; [done|]. rewrite Hpath.
  assert (Hshort : shortFile rel = rel).
  { destruct rel as [|c rel]; [done|]. simpl in *.
    destruct (c =? "/")%char eqn:E; [|done]. by apply Ascii.eqb_eq in E as ->. }
  unfold attrsFor. rewrite Hidx, getLineCol_true_position_aux by done.
  unfold injectedAttrs. rewrite Hjsx, Hshort. cbn [app].
  exists (formatLocation rel (Z.of_nat (lf_count heads) + 1) (Z.of_nat (length tail) + 1)),
    (if componentLocation (options p) && COMPONENT_NAME_RE_test (tagName m)
     then [Inspector.quotedAttr ATTR_COMPONENT (tagName m)] else []).
  split.
  - by destruct (componentLocation (options p) && COMPONENT_NAME_RE_test (tagName m)).
  - apply InspectorSpec.parse_formatLocation; lia.
Qed.

Lemma injected_location_resolves_witness :
  relativePath dev_plugin (projectRoot dev_plugin ++ js "/" ++ js "src/App.tsx")
  = js "src/App.tsx"
  ∧ ∃ v others,
      attrsFor (js "a
" ++ js "bc " ++ js "<div>")
        (relativePath dev_plugin (projectRoot dev_plugin ++ js "/" ++ js "src/App.tsx"))
        (options dev_plugin) (mkRegExpMatch 5 (js "<") (js "div") (js ">"))
      = Inspector.quotedAttr ATTR_SOURCE v :: others
      ∧ Inspector.parseSourceAttr (Some v)
        = Some (mkSourceLocation (js "src/App.tsx")
                  (Z.of_nat (lf_count (js "a
")) + 1) (Z.of_nat (length (js "bc ")) + 1)).
Proof.
  apply (injected_location_resolves dev_plugin _ (js "src/App.tsx") (js "a
") (js "bc ") (js "<div>")).
  - reflexivity.
  - discriminate.
  - reflexivity.
  - reflexivity.
  - right. reflexivity.
  - repeat constructor; discriminate.
Defined.

End ViteProps.

(** * Further properties of the resolver *)

Module InspectorProps.
Import Inspector InspectorSpec.

#[local] Arguments parseSourceAttr : simpl never.

(** ** The two nearest-ancestor walks *)

(** The non-empty value of an attribute, if the element has one. *)
Definition carried (attr : jsstring) (e : HTMLElement) : option jsstring :=
  match getAttribute e attr with
  | Some v => if JS.truthy v then Some v else None
  | None => None
  end.

Lemma findNearestComponent_unfold el :
  findNearestComponent el =
    let next := from_option findNearestComponent None (parentElement el) in
    match getAttribute el ATTR_COMPONENT with
    | Some name => if JS.truthy name then Some name else next
    | None => next
    end.
Proof. by destruct el as [t o a [p|]]. Qed.

Lemma findNearestComponent_head el :
  findNearestComponent el = head (omap (carried ATTR_COMPONENT) (ancestors el)).
Proof.
  induction el as [el Hp | el p Hp IH] using HTMLElement_parent_ind;
    rewrite findNearestComponent_unfold, ancestors_unfold, Hp; simpl;
    unfold carried at 1;
    destruct (getAttribute el ATTR_COMPONENT) as [n|]; try destruct (JS.truthy n);
    simpl; done.
Qed.

Lemma findNearestSource_head el :
  findNearestSource el
  = head (omap (carried ATTR_SOURCE) (ancestors el)) ≫= (λ v, parseSourceAttr (Some v)).
Proof.
  induction el as [el Hp | el p Hp IH] using HTMLElement_parent_ind;
    rewrite findNearestSource_unfold, ancestors_unfold, Hp; simpl;
    unfold carried at 1;
    destruct (getAttribute el ATTR_SOURCE) as [n|]; try destruct (JS.truthy n);
    simpl; done.
Qed.

(** X9: both walks start at the element itself and stop at the first
    element of the parent chain that carries the attribute with a non-empty
    value: [findNearestComponent] returns that value, [findNearestSource]
    what [parseSourceAttr] makes of it.  Each returns [null] when no element
    of the chain, the starting one included, carries its attribute; an
    attribute with the empty string as value counts as not carried. *)
Theorem findNearest_first_carrier el :
  findNearestComponent el = head (omap (carried ATTR_COMPONENT) (ancestors el))
  ∧ findNearestSource el
    = head (omap (carried ATTR_SOURCE) (ancestors el))
      ≫= (λ v, parseSourceAttr (Some v))
  ∧ (findNearestComponent el = None
     ↔ Forall (λ e, carried ATTR_COMPONENT e = None) (ancestors el))
  ∧ (Forall (λ e, carried ATTR_SOURCE e = None) (ancestors el) →
     findNearestSource el = None)
  ∧ (∀ n, carried ATTR_COMPONENT el = Some n → findNearestComponent el = Some n)
  ∧ (∀ v, carried ATTR_SOURCE el = Some v →
          findNearestSource el = parseSourceAttr (Some v)).
Proof.
  assert (Hnone : ∀ attr es,
            head (omap (carried attr) es) = None
            ↔ Forall (λ e, carried attr e = None) es).
  { intros attr es. induction es as [|e es IH]; simpl.
    - split; [constructor|done].
    - destruct (carried attr e) eqn:E; simpl.
      + split; [done|]. intros [H _]%Forall_cons. congruence.
      + rewrite IH. split; [by constructor|by intros [_ H]%Forall_cons]. }
  rewrite findNearestComponent_head, findNearestSource_head.
  split; [done|]. split; [done|]. split; [apply Hnone|]. split.
  { intros H%Hnone. by rewrite H. }
  rewrite ancestors_unfold. simpl. split; intros v Hv; by rewrite Hv.
Qed.

Lemma findNearest_first_carrier_witness :
  findNearestComponent inner_List = Some (js "List").
Proof.
  apply (proj1 (proj2 (proj2 (proj2 (proj2 (findNearest_first_carrier inner_List)))))).
  by vm_compute.
Defined.

(** ** The component chain as a list function *)

(** The first entry of every key, in order. *)
Fixpoint firstByKey (seen : list jsstring) (cands : list ComponentInfo)
    : list ComponentInfo :=
  match cands with
  | [] => []
  | c :: rest =>
      if decide (entryKey c ∈ seen) then firstByKey seen rest
      else c :: firstByKey (entryKey c :: seen) rest
  end.

Lemma fold_firstByKey (es : list HTMLElement) (chain : list ComponentInfo)
    (seen : gset jsstring) (seenl : list jsstring) :
  (∀ k, k ∈ seen ↔ k ∈ seenl) →
  (foldl (λ st e, chainStep e st) (chain, seen) es).1
  = chain ++ firstByKey seenl (omap candidate es).
Proof.
  revert chain seen seenl. induction es as [|e es IH]; intros chain seen seenl Hs.
  - simpl. by rewrite app_nil_r.
  - cbn [foldl]. rewrite chainStep_candidate. cbn [omap list_omap].
    fold (omap candidate es).
    destruct (candidate e) as [c|]; [|by apply IH].
    cbn [firstByKey].
    destruct (decide (entryKey c ∈ seen)) as [Hin|Hnin].
    + rewrite decide_True by by apply Hs. by apply IH.
    + rewrite decide_False by (by rewrite <- Hs).
      rewrite (IH _ _ (entryKey c :: seenl)).
      * by rewrite <- app_assoc.
      * intros k. rewrite elem_of_union, elem_of_singleton, elem_of_cons, Hs. done.
Qed.

Lemma getComponentChain_firstByKey_aux el :
  getComponentChain el = firstByKey [] (candidates el).
Proof.
  unfold getComponentChain. rewrite getComponentChain_loop_fold.
  rewrite (fold_firstByKey _ [] ∅ []); [done|].
  intros k. rewrite elem_of_nil. set_solver.
Qed.

(** X10: [getComponentChain] returns, of the ancestors that name a
    component (innermost first), the first one of every key
    [name:file:line]: of several ancestors with the same key it is the
    innermost whose entry, with its column, is kept, and the entries keep
    the order of the walk. *)
Theorem getComponentChain_firstByKey el :
  getComponentChain el = firstByKey [] (candidates el).
Proof. apply getComponentChain_firstByKey_aux. Qed.

Lemma candidates_names el :
  name <$> head (candidates el) = findNearestComponent el.
Proof.
  rewrite findNearestComponent_head. unfold candidates.
  induction (ancestors el) as [|e es IH]; [done|]. simpl.
  unfold candidate, carried.
  destruct (getAttribute e ATTR_COMPONENT) as [n|]; [|exact IH].
  destruct (JS.truthy n); [done|exact IH].
Qed.

(** X11: the innermost entry of the chain names the component
    [findNearestComponent] finds, and the chain is empty exactly when
    [findNearestComponent] returns [null]. *)
Theorem getComponentChain_head el :
  name <$> head (getComponentChain el) = findNearestComponent el
  ∧ (getComponentChain el = [] ↔ findNearestComponent el = None).
Proof.
  rewrite getComponentChain_firstByKey_aux, <- candidates_names.
  destruct (candidates el) as [|c cs]; [done|]. simpl. by split.
Qed.

(** ** Writing and reading a location, both ways *)

Lemma parseInt_Number_toString_all n : JS.parseInt (JS.Number_toString n) = Some n.
Proof.
  destruct (decide (0 ≤ n)%Z) as [Hn|Hn]; [by apply parseInt_Number_toString|].
  unfold JS.Number_toString.
  assert (Hneg : (n <? 0)%Z = true) by (apply Z.ltb_lt; lia). rewrite Hneg.
  destruct (to_digits_spec _ _ (size_bound (Z.abs_N n))) as (Hall & Hne & Hval).
  set (ds := JS.to_digits (N.to_nat (N.size (Z.abs_N n))) (Z.abs_N n) []) in *.
  unfold JS.parseInt. simpl JS.drop_while. cbn [Ascii.eqb]. simpl.
  rewrite take_while_all by done.
  destruct ds as [|d ds']; [done|]. rewrite Hval. f_equal. lia.
Qed.

Lemma Number_toString_no_colon n :
  Forall (λ c, (c =? ":")%char = false) (JS.Number_toString n).
Proof.
  unfold JS.Number_toString.
  destruct (to_digits_spec _ _ (size_bound (Z.abs_N n))) as (Hall & _ & _).
  assert (Hds : Forall (λ c, (c =? ":")%char = false)
                  (JS.to_digits (N.to_nat (N.size (Z.abs_N n))) (Z.abs_N n) [])).
  { eapply Forall_impl; [exact Hall|]. intros x Hx.
    by apply digit_facts in Hx as (_ & _ & _ & Hx). }
  destruct (n <? 0)%Z; [by constructor|done].
Qed.

Lemma parse_formatLocation_all f l c :
  parseSourceAttr (Some (formatLocation f l c)) = Some (mkSourceLocation f l c).
Proof.
  assert (Hsplit : JS.split ":" (formatLocation f l c)
                   = JS.split ":" f ++ [JS.Number_toString l; JS.Number_toString c]).
  { unfold formatLocation. change (js ":") with [":"%char]. simpl.
    assert (Hfield : ∀ n, JS.split ":" (JS.Number_toString n) = [JS.Number_toString n])
      by (intros n; apply split_without_sep, Number_toString_no_colon).
    by rewrite !split_app_sep, !Hfield. }
  rewrite (parseSourceAttr_fields _ _ _ _ Hsplit (split_nonempty _ _)).
  rewrite !parseInt_Number_toString_all.
  change (js ":") with [":"%char]. by rewrite join_split.
Qed.

(** X12: writing a location as [file:line:column] and reading it with
    [parseSourceAttr] gives the location back for every file string and all
    integers of absolute value at most 2^53, zero and the negative ones
    included: both when the numerals are read as doubles and in the exact
    reading the other properties use, which agree on that range. *)
Theorem parseSourceAttr_formatLocation_all f l c :
  (- 2 ^ 53 ≤ l ≤ 2 ^ 53)%Z → (- 2 ^ 53 ≤ c ≤ 2 ^ 53)%Z →
  IEEE.parseSourceAttr (Some (formatLocation f l c))
  = Some (IEEE.mkSourceLocation f (IEEE.Finite l) (IEEE.Finite c))
  ∧ parseSourceAttr (Some (formatLocation f l c)) = Some (mkSourceLocation f l c).
Proof.
  intros Hl Hc. rewrite IEEE_parseSourceAttr, parse_formatLocation_all.
  split; [|done]. cbn. unfold toIEEE. cbn.
  by rewrite !toNumber_exact by lia.
Qed.

Lemma parseSourceAttr_formatLocation_all_witness :
  ((- 2 ^ 53 ≤ 0 ≤ 2 ^ 53)%Z ∧ (- 2 ^ 53 ≤ -4 ≤ 2 ^ 53)%Z)
  ∧ formatLocation (js "src/App.tsx") 0 (-4) = js "src/App.tsx:0:-4"
  ∧ IEEE.parseSourceAttr (Some (formatLocation (js "src/App.tsx") 0 (-4)))
    = Some (IEEE.mkSourceLocation (js "src/App.tsx") (IEEE.Finite 0) (IEEE.Finite (-4))).
Proof.
  split; [lia|]. split; [reflexivity|].
  apply (parseSourceAttr_formatLocation_all (js "src/App.tsx") 0 (-4)); lia.
Defined.

Lemma split_fields_no_sep sep s :
  Forall (Forall (λ c, (c =? sep)%char = false)) (JS.split sep s).
Proof.
  induction s as [|c s IH]; simpl; [by repeat constructor|].
  destruct (c =? sep)%char eqn:E; [by constructor|].
  pose proof (split_nonempty sep s).
  destruct (JS.split sep s) as [|p ps]; [done|].
  apply Forall_cons in IH as [Hp Hps]. constructor; [by constructor|done].
Qed.

Lemma join_snoc sep (parts : list jsstring) x :
  parts ≠ [] → JS.join sep (parts ++ [x]) = JS.join sep parts ++ sep ++ x.
Proof.
  induction parts as [|p parts IH]; [done|]. intros _.
  destruct parts as [|q parts]; [done|].
  change (JS.join sep ((p :: q :: parts) ++ [x]))
    with (p ++ sep ++ JS.join sep ((q :: parts) ++ [x])).
  rewrite IH by done.
  change (JS.join sep (p :: q :: parts)) with (p ++ sep ++ JS.join sep (q :: parts)).
  by rewrite <- !app_assoc.
Qed.

Lemma last_two {A} (l : list A) :
  3 ≤ length l → ∃ init a b, l = init ++ [a; b] ∧ init ≠ [].
Proof.
  intros Hlen. destruct l as [|b l _] using rev_ind; [simpl in Hlen; lia|].
  destruct l as [|a l _] using rev_ind; [simpl in Hlen; lia|].
  exists l, a, b. rewrite <- app_assoc. split; [done|].
  intros ->. simpl in Hlen. lia.
Qed.

(** X13: whenever [parseSourceAttr] returns a location, its input is the
    returned file, a colon, a field [l], a colon and a field [c], where [l]
    and [c] hold no colon and [parseInt] reads the returned line from [l] and
    the returned column from [c].  So the file is the input up to the
    second-to-last colon, untouched, while the two number fields need only
    start like a number (after white space and a sign); what follows the
    digits is ignored. *)
Theorem parseSourceAttr_Some_inv v loc :
  parseSourceAttr (Some v) = Some loc →
  ∃ l c,
    v = file loc ++ js ":" ++ l ++ js ":" ++ c
    ∧ Forall (λ x, x ≠ ":"%char) l ∧ Forall (λ x, x ≠ ":"%char) c
    ∧ JS.parseInt l = Some (line loc) ∧ JS.parseInt c = Some (column loc)
    ∧ numeric_start l ∧ numeric_start c.
Proof.
  intros Hparse.
  destruct (decide (length (JS.split ":" v) < 3)) as [Hshort|Hlong].
  { unfold parseSourceAttr in Hparse. destruct (negb (JS.truthy v)); [done|].
    apply Nat.ltb_lt in Hshort. by rewrite Hshort in Hparse. }
  destruct (last_two (JS.split ":" v)) as (fields & l & c & Hsplit & Hne); [lia|].
  rewrite (parseSourceAttr_fields _ _ _ _ Hsplit Hne) in Hparse.
  destruct (JS.parseInt l) as [a|] eqn:El; [|done].
  destruct (JS.parseInt c) as [b|] eqn:Ec; [|done].
  injection Hparse as <-. simpl.
  pose proof (split_fields_no_sep ":" v) as Hno. rewrite Hsplit in Hno.
  apply Forall_app in Hno as [_ Hno].
  apply Forall_cons in Hno as [Hl Hno]. apply Forall_cons in Hno as [Hc _].
  assert (Hneq : ∀ s, Forall (λ x, (x =? ":")%char = false) s
                      → Forall (λ x, x ≠ ":"%char) s).
  { intros s Hs. eapply Forall_impl; [exact Hs|].
    intros x Hx ->. by rewrite Ascii.eqb_refl in Hx. }
  exists l, c. repeat split; [|by apply Hneq..| | | |].
  - rewrite <- (join_split ":" v) at 1. rewrite Hsplit.
    replace (fields ++ [l; c]) with ((fields ++ [l]) ++ [c])
      by (by rewrite <- app_assoc).
    rewrite join_snoc by (by destruct fields). rewrite join_snoc by done.
    change (js ":") with [":"%char]. by rewrite <- !app_assoc.
  - done.
  - done.
  - apply parseInt_is_Some. eauto.
  - apply parseInt_is_Some. eauto.
Qed.

Lemma parseSourceAttr_Some_inv_witness :
  ∃ l c,
    js "C:\a.tsx: +12abc:7px"
    = file (mkSourceLocation (js "C:\a.tsx") 12 7) ++ js ":" ++ l ++ js ":" ++ c
    ∧ Forall (λ x, x ≠ ":"%char) l ∧ Forall (λ x, x ≠ ":"%char) c
    ∧ JS.parseInt l = Some (line (mkSourceLocation (js "C:\a.tsx") 12 7))
    ∧ JS.parseInt c = Some (column (mkSourceLocation (js "C:\a.tsx") 12 7))
    ∧ numeric_start l ∧ numeric_start c.
Proof.
  apply (parseSourceAttr_Some_inv (js "C:\a.tsx: +12abc:7px")). by vm_compute.
Defined.

(** ** The report *)

(** X14: [inspect] reports the source [findNearestSource] finds, the chain
    of [getComponentChain] and the lower-cased tag name, and formats exactly
    these.  When a source was found whose line and column lie between 1 and
    2^53, the fourth line of the report is [Source:] followed by the file, a
    colon, the line, a colon and the column, a text that [parseSourceAttr]
    reads back as that source; when none was found the line after the
    [Element:] line is blank. *)
Theorem inspect_report now el :
  let ctx := partial (inspect now el) in
  element ctx = el
  ∧ ctxTagName ctx = JS.toLowerCase (tagName el)
  ∧ elementSource ctx = findNearestSource el
  ∧ components ctx = getComponentChain el
  ∧ formatted (inspect now el) = formatContext ctx
  ∧ formatContext_lines ctx !! 2 = Some (js "Element: " ++ getElementSummary el)
  ∧ match findNearestSource el with
    | Some s =>
        (1 ≤ line s ≤ 2 ^ 53)%Z → (1 ≤ column s ≤ 2 ^ 53)%Z →
        ∃ text,
          formatContext_lines ctx !! 3 = Some (js "Source:  " ++ text)
          ∧ text = file s ++ js ":" ++ JS.Number_toString (line s)
                   ++ js ":" ++ JS.Number_toString (column s)
          ∧ IEEE.parseSourceAttr (Some text)
            = Some (IEEE.mkSourceLocation (file s) (IEEE.Finite (line s))
                      (IEEE.Finite (column s)))
    | None => formatContext_lines ctx !! 3 = Some []
    end.
Proof.
  cbv zeta. pose proof (inspect_elementSource now el) as Hsrc.
  repeat split; try done.
  - unfold formatContext_lines. rewrite Hsrc.
    by destruct (findNearestSource el), (0 <? length (components (partial (inspect now el)))).
  - unfold formatContext_lines. rewrite Hsrc.
    destruct (findNearestSource el) as [s|].
    + intros Hl Hc. exists (formatLocation (file s) (line s) (column s)).
      split; [|split; [done|]].
      * by destruct (0 <? length (components (partial (inspect now el)))).
      * rewrite IEEE_parseSourceAttr, parse_formatLocation_all.
        destruct s as [f l c]. cbn [file line column] in Hl, Hc |- *.
        unfold toIEEE, fmap, option_fmap, option_map. cbn [file line column].
        by rewrite !toNumber_exact by lia.
    + by destruct (0 <? length (components (partial (inspect now el)))).
Qed.

Lemma inspect_report_witness :
  ∃ text,
    formatContext_lines (partial (inspect 0 root_App)) !! 3
    = Some (js "Source:  " ++ text)
    ∧ text = js "src/App.tsx:1:1"
    ∧ IEEE.parseSourceAttr (Some text)
      = Some (IEEE.mkSourceLocation (js "src/App.tsx") (IEEE.Finite 1) (IEEE.Finite 1)).
Proof.
  pose proof (inspect_report 0 root_App) as H. cbv zeta in H.
  destruct H as (_ & _ & _ & _ & _ & _ & H).
  assert (E : findNearestSource root_App
              = Some (mkSourceLocation (js "src/App.tsx") 1 1)) by (by vm_compute).
  rewrite E in H. cbn [file line column] in H.
  destruct H as (text & H1 & H2 & H3); [lia..|].
  exists text. split; [exact H1|]. split; [|exact H3].
  rewrite H2. by vm_compute.
Defined.

(** X15: the HTML snippet is the element's [outerHTML] when that has at
    most [maxLen] characters, and otherwise its first [maxLen] characters
    followed by three dots; so it never has more than [maxLen + 3]
    characters and always agrees with [outerHTML] on the first [maxLen]. *)
Theorem getElementSnippet_bounds el maxLen :
  length (getElementSnippet el maxLen) ≤ maxLen + 3
  ∧ take maxLen (getElementSnippet el maxLen) = take maxLen (outerHTML el)
  ∧ (length (outerHTML el) ≤ maxLen → getElementSnippet el maxLen = outerHTML el)
  ∧ (maxLen < length (outerHTML el) →
     getElementSnippet el maxLen = take maxLen (outerHTML el) ++ js "..."
     ∧ length (getElementSnippet el maxLen) = maxLen + 3).
Proof.
  unfold getElementSnippet, JS.slice. rewrite drop_0, Nat.sub_0_r.
  destruct (length (outerHTML el) <=? maxLen) eqn:E.
  - apply Nat.leb_le in E. split; [lia|]. split; [done|]. split; [done|lia].
  - apply Nat.leb_gt in E.
    assert (Hlen : length (take maxLen (outerHTML el) ++ js "...") = maxLen + 3).
    { rewrite length_app, length_take. simpl. lia. }
    split; [lia|]. split; [|split; [lia|done]].
    rewrite take_app_le by (rewrite length_take; lia).
    rewrite take_take. f_equal. lia.
Qed.

Lemma getElementSnippet_bounds_witness :
  getElementSnippet root_App 3 = take 3 (outerHTML root_App) ++ js "..."
  ∧ length (getElementSnippet root_App 3) = 3 + 3.
Proof.
  apply (proj2 (proj2 (proj2 (getElementSnippet_bounds root_App 3)))).
  simpl. lia.
Defined.

(** X16: the element summary stays short whatever the length of the
    [class] attribute: the class is shown trimmed when that has at most 80
    characters and otherwise cut to 77 characters and three dots, so the
    summary has at most 112 characters besides the tag name, the [id] and the
    [data-testid] value.  For an element without [id], [class] and
    [data-testid] it is the lower-cased tag name between [<] and [>]. *)
Theorem getElementSummary_length el :
  length (getElementSummary el)
  ≤ length (tagName el) + length (id el)
    + length (default [] (getAttribute el (js "data-testid"))) + 112
  ∧ (id el = [] → className el = [] → getAttribute el (js "data-testid") = None →
     getElementSummary el = js "<" ++ JS.toLowerCase (tagName el) ++ js ">").
Proof.
  split.
  - unfold getElementSummary, quotedAttr, JS.slice. rewrite drop_0, Nat.sub_0_r.
    assert (Htag : length (JS.toLowerCase (tagName el)) = length (tagName el))
      by apply length_map.
    assert (Hcut : length (take 77 (JS.trim (className el))) ≤ 77)
      by (rewrite length_take; lia).
    destruct (JS.truthy (id el)), (JS.truthy (className el));
      try destruct (length (JS.trim (className el)) <=? 80) eqn:E;
      try apply Nat.leb_le in E;
      destruct (getAttribute el (js "data-testid")) as [t|];
      try destruct (JS.truthy t);
      cbn [app JS.join];
      rewrite ?length_app; cbn [length js list_ascii_of_string];
      rewrite ?length_app; cbn [length]; unfold default, Datatypes.id;
      cbn [from_option]; lia.
  - intros Hid Hcls Htest. unfold getElementSummary.
    rewrite Hid, Hcls, Htest. simpl. by rewrite <- ?app_assoc.
Qed.

Lemma getElementSummary_length_witness :
  getElementSummary leaf = js "<" ++ JS.toLowerCase (tagName leaf) ++ js ">".
Proof.
  apply (proj2 (getElementSummary_length leaf)); reflexivity.
Defined.

End InspectorProps.

(** * Properties of the hooks of the plugin *)

Module ViteHooksProps.
Import Vite ViteHooks.

Lemma jsstring_eqb_eq (a b : jsstring) : jsstring_eqb a b = true ↔ a = b.
Proof. unfold jsstring_eqb. apply bool_decide_eq_true. Qed.

(** X26: a plugin made by [solidGrab] and configured by [configResolved]
    is in development mode exactly when the command is [serve] or the mode
    is [development].  Outside development mode it changes no file and adds
    nothing to the page, and with [autoImport: false] it adds nothing to the
    page either.  Otherwise [transformIndexHtml] returns exactly one tag: a
    [script] of type [module] with the address [/@solid-grab/init], for the
    head of the page.  The middleware rewrites that address, and no other,
    to [/@id/virtual:solid-grab-init]; [resolveId] resolves that id, and no
    other, to the same id after a NUL character; and [load] answers for the
    resolved id, and for no other, with the text [import "solid-grab";]. *)
Theorem plugin_hooks opts config :
  let p := configResolved config (solidGrab opts) in
  (isDev p = true ↔ command config = js "serve" ∨ mode config = js "development")
  ∧ (isDev p = false →
     transformIndexHtml p = None ∧ ∀ code id, transform p code id = None)
  ∧ (opt_autoImport opts = Some false → transformIndexHtml p = None)
  ∧ (isDev p = true → opt_autoImport opts ≠ Some false →
     transformIndexHtml p
     = Some [mkHtmlTagDescriptor (js "script")
               [(js "type", js "module"); (js "src", js "/@solid-grab/init")]
               (js "head")])
  ∧ (∀ url,
       middleware url
       = if decide (url = Some (js "/@solid-grab/init"))
         then Some (js "/@id/virtual:solid-grab-init") else url)
  ∧ (∀ id r,
       resolveId id = Some r
       ↔ id = js "virtual:solid-grab-init"
         ∧ r = "000"%char :: js "virtual:solid-grab-init")
  ∧ (∀ id text,
       load id = Some text
       ↔ id = "000"%char :: js "virtual:solid-grab-init"
         ∧ text = js "import " ++ [dquote] ++ js "solid-grab" ++ [dquote] ++ js ";").
Proof.
  cbv zeta. unfold configResolved, solidGrab. cbn [isDev autoImport options projectRoot].
  split.
  { rewrite orb_true_iff, !jsstring_eqb_eq. done. }
  split.
  { intros Hdev. unfold transformIndexHtml, transform. cbn [isDev autoImport].
    rewrite Hdev. cbn [negb]. by rewrite orb_true_r. }
  split.
  { intros ->. unfold transformIndexHtml. by cbn [isDev autoImport default negb orb]. }
  split.
  { intros Hdev Hauto. unfold transformIndexHtml. cbn [isDev autoImport].
    rewrite Hdev. by destruct (opt_autoImport opts) as [[|]|]. }
  split.
  { intros url. unfold middleware. destruct url as [u|].
    - destruct (jsstring_eqb u (js "/@solid-grab/init")) eqn:E.
      + apply jsstring_eqb_eq in E as ->. by rewrite decide_True.
      + rewrite decide_False; [done|]. intros [= ->].
        by rewrite (proj2 (jsstring_eqb_eq _ _) eq_refl) in E.
    - by rewrite decide_False. }
  split.
  { intros id r. unfold resolveId.
    destruct (jsstring_eqb id VIRTUAL_INIT) eqn:E.
    - apply jsstring_eqb_eq in E. split; [by intros [= <-]|by intros [_ ->]].
    - split; [done|]. intros [-> _]. by vm_compute in E. }
  intros id text. unfold load.
  destruct (jsstring_eqb id RESOLVED_VIRTUAL_INIT) eqn:E.
  - apply jsstring_eqb_eq in E. split; [by intros [= <-]|by intros [_ ->]].
  - split; [done|]. intros [-> _]. by vm_compute in E.
Qed.

End ViteHooksProps.

(** * Properties of the overlay *)

Module OverlayProps.
Import Inspector Timers Overlay.

(** ** Mounting and unmounting *)

(** The elements of the overlay object [i]. *)
Definition ownedBy (i : nat) (n : Node) : Prop :=
  match n with
  | OverlayNode j _ => j = i
  | PageNode _ => False
  end.

#[local] Instance ownedBy_dec i n : Decision (ownedBy i n).
Proof. destruct n; simpl; apply _. Defined.

(** A list of children without the elements of [i]. *)
Definition without (i : nat) (l : list Node) : list Node :=
  filter (λ n, ¬ ownedBy i n) l.

Definition bodyElements (i : nat) : list Node :=
  [OverlayNode i overlayEl; OverlayNode i tooltipEl; OverlayNode i toastEl;
   OverlayNode i badgeEl].

Lemma filter_ne_snoc (n m : Node) l :
  n ≠ m → filter (λ x, x ≠ n) (l ++ [m]) = filter (λ x, x ≠ n) l ++ [m].
Proof.
  intros Hne. rewrite filter_app. f_equal.
  rewrite filter_cons, decide_True by congruence. done.
Qed.

Lemma filter_ne_without i p l :
  filter (λ x, x ≠ OverlayNode i p) (without i l) = without i l.
Proof.
  unfold without. apply list_filter_filter_r. intros [n | j q] Hx; simpl in *; congruence.
Qed.

Lemma remove_five i l :
  filter (λ x, x ≠ OverlayNode i badgeEl)
    (filter (λ x, x ≠ OverlayNode i toastEl)
       (filter (λ x, x ≠ OverlayNode i tooltipEl)
          (filter (λ x, x ≠ OverlayNode i overlayEl)
             (filter (λ x, x ≠ OverlayNode i styleEl) l)))) = without i l.
Proof.
  unfold without. rewrite !list_filter_filter. apply list_filter_iff.
  intros [n | j q]; simpl; [intuition congruence|].
  split.
  - intros ((((H1 & H2) & H3) & H4) & H5) ->. destruct q; congruence.
  - intros Hj. repeat split; congruence.
Qed.

Lemma without_idem i l : without i (without i l) = without i l.
Proof. unfold without. by apply list_filter_filter_r. Qed.

Lemma without_app i l k : without i (l ++ k) = without i l ++ without i k.
Proof. apply filter_app. Qed.

Lemma without_own i l :
  Forall (ownedBy i) l → without i l = [].
Proof.
  induction 1 as [|n l Hn _ IH]; [done|].
  unfold without in *. by rewrite filter_cons, decide_False by tauto.
Qed.

Lemma without_none i l :
  (∀ n, n ∈ l → ¬ ownedBy i n) → without i l = l.
Proof.
  induction l as [|n l IH]; intros Hl; [done|].
  unfold without in *. rewrite filter_cons, decide_True by (apply Hl; left).
  f_equal. apply IH. intros m Hm. apply Hl. by right.
Qed.

(** What [mount] does to the document when it does anything. *)
Lemma mount_unmounted o d :
  _mounted o = false →
  mount o d =
    (set__mounted true o,
     mkDocument (without (ident o) (headNodes d) ++ [OverlayNode (ident o) styleEl])
                (without (ident o) (bodyNodes d) ++ bodyElements (ident o))).
Proof.
  intros Hm. unfold mount. rewrite Hm.
  unfold body_appendChild, head_appendChild, remove, bodyElements.
  cbn [headNodes bodyNodes ident set__mounted]. f_equal. f_equal.
  - rewrite !filter_ne_snoc by congruence. f_equal. apply remove_five.
  - rewrite !filter_ne_snoc by congruence. rewrite <- !app_assoc. cbn [app].
    by rewrite remove_five.
Qed.

Lemma unmount_mounted o d :
  _mounted o = true →
  unmount o d =
    (set__mounted false o,
     mkDocument (without (ident o) (headNodes d)) (without (ident o) (bodyNodes d))).
Proof.
  intros Hm. unfold unmount. rewrite Hm. cbn [negb].
  unfold remove. cbn [headNodes bodyNodes ident set__mounted].
  by rewrite !remove_five.
Qed.

Lemma bodyElements_own i : Forall (ownedBy i) (bodyElements i).
Proof. repeat constructor. Qed.

(** X17: [mount] on an overlay that is not mounted makes its style element
    the last child of the head and its four boxes, in the order overlay,
    tooltip, toast, badge, the last children of the body, whether or not they
    were in the document before; the other nodes keep their places.  A second
    [mount] changes nothing.  [unmount] takes the five elements out again and
    gives the object back as it was; when none of them was in the document
    before, the document is the one before [mount]. *)
Theorem mount_unmount o d :
  _mounted o = false →
  let o1 := (mount o d).1 in
  let d1 := (mount o d).2 in
  headNodes d1 = without (ident o) (headNodes d) ++ [OverlayNode (ident o) styleEl]
  ∧ bodyNodes d1 = without (ident o) (bodyNodes d) ++ bodyElements (ident o)
  ∧ mount o1 d1 = (o1, d1)
  ∧ unmount o1 d1 =
      (o, mkDocument (without (ident o) (headNodes d)) (without (ident o) (bodyNodes d)))
  ∧ ((∀ n, n ∈ headNodes d ++ bodyNodes d → ¬ ownedBy (ident o) n) →
     unmount o1 d1 = (o, d)).
Proof.
  intros Hm. cbv zeta. rewrite mount_unmounted by done. cbn [fst snd headNodes bodyNodes].
  split; [done|]. split; [done|]. split; [done|].
  assert (Hun : unmount (set__mounted true o)
            (mkDocument (without (ident o) (headNodes d) ++ [OverlayNode (ident o) styleEl])
               (without (ident o) (bodyNodes d) ++ bodyElements (ident o)))
          = (o, mkDocument (without (ident o) (headNodes d))
                  (without (ident o) (bodyNodes d)))).
  { rewrite unmount_mounted by done. cbn [headNodes bodyNodes ident set__mounted].
    rewrite !without_app, !without_idem.
    rewrite (without_own _ (bodyElements _)) by apply bodyElements_own.
    rewrite (without_own _ [_]) by (by repeat constructor).
    rewrite !app_nil_r. f_equal. destruct o; simpl in *. by subst. }
  split; [done|].
  intros Hfresh. rewrite Hun. f_equal. destruct d as [h b]. cbn [headNodes bodyNodes] in *.
  rewrite !without_none; [done|..]; intros n Hn; apply Hfresh, elem_of_app; auto.
Qed.

Lemma mount_unmount_witness :
  unmount (mount (new 0) (mkDocument [PageNode 0] [PageNode 1; PageNode 2])).1
          (mount (new 0) (mkDocument [PageNode 0] [PageNode 1; PageNode 2])).2
  = (new 0, mkDocument [PageNode 0] [PageNode 1; PageNode 2]).
Proof.
  refine (proj2 (proj2 (proj2 (proj2
    (mount_unmount (new 0) (mkDocument [PageNode 0] [PageNode 1; PageNode 2]) eq_refl)))) _).
  intros n Hn Ho. cbn in Hn.
  repeat (apply elem_of_cons in Hn as [-> | Hn]; [exact Ho|]).
  by apply elem_of_nil in Hn.
Defined.

(** ** The timer of the toast *)

Section toast.
Context `{JSNumber Num}.

(** The calls of the methods of one overlay and the firing of its timers;
    the state is the object and its pending timers.  [setTimeout] returns a
    handle that no pending timer has. *)
Inductive toast_step : t * list (Timer * Z) → t * list (Timer * Z) → Prop :=
| call_toast o P message duration timerId :
    timerId ∉ P.*1 →
    toast_step (o, P)
      ((toast o message duration timerId).1,
       foldl Timers.run P (toast o message duration timerId).2)
| timer_fires o P timerId delay :
    (timerId, delay) ∈ P →
    toast_step (o, P) (toastExpired o, filter (λ p, p.1 ≠ timerId) P)
| call_highlight o P (L : Layout Num) el :
    toast_step (o, P) (highlight L o el, P)
| call_clearHighlight o P :
    toast_step (o, P) (clearHighlight o, P)
| call_showTooltip o P (L : Layout Num) el source componentName :
    toast_step (o, P) (showTooltip L o el source componentName, P)
| call_setBadge o P text :
    toast_step (o, P) (setBadge o text, P)
| call_mount o P d :
    toast_step (o, P) ((mount o d).1, P)
| call_unmount o P d :
    toast_step (o, P) ((unmount o d).1, P).

(** The toast shows while its class list holds [sg-visible]. *)
Definition toastInv (s : t * list (Timer * Z)) : Prop :=
  match toastTimeout s.1 with
  | Some timerId =>
      (∃ delay, s.2 = [(timerId, delay)])
      ∧ toastEl_classList s.1 = [js "solid-grab-toast"; js "sg-visible"]
  | None =>
      s.2 = [] ∧ toastEl_classList s.1 = [js "solid-grab-toast"]
  end.

Lemma toast_from_inv o P message duration timerId :
  toastInv (o, P) →
  timerId ∉ P.*1 →
  let o' := (toast o message duration timerId).1 in
  foldl Timers.run P (toast o message duration timerId).2
    = [(timerId, default 2000%Z duration)]
  ∧ toastTimeout o' = Some timerId
  ∧ toastEl_textContent o' = message
  ∧ toastEl_classList o' = [js "solid-grab-toast"; js "sg-visible"].
Proof.
  unfold toastInv. cbn [fst snd]. intros Hinv Hfresh.
  unfold toast. cbn [fst snd toastTimeout set_toastTimeout toastEl_textContent
    set_toastEl_textContent toastEl_classList set_toastEl_classList].
  destruct (toastTimeout o) as [t0|].
  - destruct Hinv as [[delay ->] ->]. cbn [app foldl Timers.run].
    rewrite filter_cons, decide_False by (cbn; tauto).
    rewrite filter_nil. done.
  - destruct Hinv as [-> ->]. done.
Qed.

Lemma toast_step_inv s s' : toast_step s s' → toastInv s → toastInv s'.
Proof.
  destruct 1 as [o P message duration timerId Hfresh | o P timerId delay Hin
    | o P L el | o P | o P L el source componentName | o P text | o P d | o P d];
    intros Hinv.
  - destruct (toast_from_inv o P message duration timerId Hinv Hfresh)
      as (HP & Ht & _ & Hc).
    unfold toastInv. cbn [fst snd]. rewrite Ht, HP, Hc. eauto.
  - unfold toastInv in *. cbn [fst snd] in *.
    destruct (toastTimeout o) as [t0|].
    + destruct Hinv as [[d0 ->] Hc].
      apply list_elem_of_singleton in Hin. injection Hin as -> ->.
      unfold toastExpired.
      cbn [toastTimeout set_toastTimeout toastEl_classList set_toastEl_classList].
      rewrite filter_cons, decide_False by (cbn; tauto).
      split; [done|]. unfold classList_remove. by rewrite Hc.
    + destruct Hinv as [-> _]. by apply elem_of_nil in Hin.
  - exact Hinv.
  - exact Hinv.
  - exact Hinv.
  - exact Hinv.
  - unfold toastInv, mount in *. cbn [fst snd] in *. by destruct (_mounted o).
  - unfold toastInv, unmount in *. cbn [fst snd] in *. by destruct (_mounted o).
Qed.

Lemma toast_reachable_inv ident s :
  rtc toast_step (new ident, []) s → toastInv s.
Proof.
  intros Hr.
  refine (rtc_ind_r (R := toast_step) (λ s, toastInv s) (new ident, []) _ _ s Hr).
  - by split.
  - intros y z _ Hstep IH. by apply (toast_step_inv y z).
Qed.

End toast.

Arguments toast_step {Num _}.
Arguments call_toast {Num _}.

(** X18: however the methods of an overlay are called and whenever its
    timers fire, at most one timer of the overlay is pending, the one
    [toastTimeout] holds, and the toast carries [sg-visible] exactly while
    that timer is pending.  After a call of [toast] the only pending timer is
    the new one, with the duration of this call (2000 when it is left out):
    no timer of an earlier toast is left to hide the new one early. *)
Theorem toast_single_timer `{JSNumber Num} ident o P :
  rtc (toast_step (Num := Num)) (new ident, []) (o, P) →
  (P = [] ∨ ∃ timerId delay, P = [(timerId, delay)] ∧ toastTimeout o = Some timerId)
  ∧ (js "sg-visible" ∈ toastEl_classList o ↔ P ≠ [])
  ∧ ∀ message duration timerId,
      timerId ∉ P.*1 →
      foldl Timers.run P (toast o message duration timerId).2
        = [(timerId, default 2000%Z duration)]
      ∧ toastEl_textContent (toast o message duration timerId).1 = message
      ∧ js "sg-visible" ∈ toastEl_classList (toast o message duration timerId).1.
Proof.
  intros Hr. pose proof (toast_reachable_inv ident _ Hr) as Hinv.
  split; [|split].
  - unfold toastInv in Hinv. cbn [fst snd] in Hinv.
    destruct (toastTimeout o) as [t0|].
    + destruct Hinv as [[d ->] _]. right. eauto.
    + left. apply Hinv.
  - unfold toastInv in Hinv. cbn [fst snd] in Hinv.
    destruct (toastTimeout o) as [t0|].
    + destruct Hinv as [[d ->] ->]. split; [done|]. intros _.
      apply elem_of_cons. right. apply elem_of_cons. by left.
    + destruct Hinv as [-> ->]. split; [|done].
      intros Hin. apply list_elem_of_singleton in Hin. discriminate.
  - intros message duration timerId Hfresh.
    destruct (toast_from_inv o P message duration timerId Hinv Hfresh)
      as (HP & _ & Hm & Hc).
    split; [done|]. split; [done|]. rewrite Hc.
    apply elem_of_cons. right. apply elem_of_cons. by left.
Qed.

Lemma toast_single_timer_witness :
  let s := toast (toast (new 0) (js "a") None 1).1 (js "b") (Some 1500%Z) 2 in
  foldl Timers.run (foldl Timers.run [] (toast (new 0) (js "a") None 1).2) (s.2)
  = [(2, 1500%Z)].
Proof.
  cbv zeta.
  assert (Hr : rtc (toast_step (Num := Z)) (new 0, [])
                 ((toast (new 0) (js "a") None 1).1,
                  foldl Timers.run [] (toast (new 0) (js "a") None 1).2)).
  { apply rtc_once. apply (call_toast (Num := Z)). cbn. apply not_elem_of_nil. }
  refine (proj1 (proj2 (proj2 (toast_single_timer 0 _ _ Hr)) (js "b") (Some 1500%Z) 2 _)).
  cbn. intros Hin. apply list_elem_of_singleton in Hin. discriminate.
Defined.

End OverlayProps.

(** * Properties of the agent bridge *)

Module AgentBridgeProps.
Import Inspector Timers AgentBridge.

(** X19: [disconnect] leaves the close handler on the socket it closes.
    For a bridge whose socket is connecting or open, [disconnect] empties the
    bridge and puts the socket into the closing state; when the browser then
    fires the close event of that socket, the handler sets a timer of 3000
    ms, and when that timer fires [connect] finds no socket and makes a new
    one.  So a bridge that was disconnected connects again by itself. *)
Theorem disconnect_reconnects w s :
  ws (bridge w) = Some s →
  sockets w !! s = Some CONNECTING ∨ sockets w !! s = Some OPEN →
  let w1 := call_disconnect w in
  bridge w1 = new (url (bridge w))
  ∧ sockets w1 !! s = Some CLOSING
  ∧ ∀ timerId s',
      let w2 := socket_closes w1 s timerId in
      reconnectTimer (bridge w2) = Some timerId
      ∧ (timerId, 3000%Z) ∈ timers w2
      ∧ sockets w2 !! s = Some CLOSED
      ∧ let w3 := timer_fires w2 timerId (Some s') in
        bridge w3 = mk (Some s') (url (bridge w)) (Some timerId) false
        ∧ sockets w3 !! s' = Some CONNECTING.
Proof.
  intros Hws Hs. cbv zeta.
  assert (H1 : call_disconnect w =
    mkWorld (new (url (bridge w))) (<[s := CLOSING]> (sockets w))
      (match reconnectTimer (bridge w) with
       | Some t => filter (λ p, p.1 ≠ t) (timers w)
       | None => timers w
       end)).
  { unfold call_disconnect, after, disconnect. rewrite Hws. cbn [fst snd].
    destruct (reconnectTimer (bridge w)) as [t|]; cbn [app foldl run fst snd Timers.run];
      by destruct Hs as [-> | ->]. }
  rewrite H1. cbn [bridge sockets timers].
  split; [done|]. split; [by rewrite lookup_insert_eq|].
  intros timerId s'.
  unfold socket_closes, timer_fires, after, onclose, connect, new.
  cbn [bridge sockets timers fst snd foldl run Timers.run ws url reconnectTimer].
  split; [done|]. split; [apply elem_of_app; right; by left|].
  split; [by rewrite lookup_insert_eq|].
  split; [done|]. by rewrite lookup_insert_eq.
Qed.

Lemma disconnect_reconnects_witness :
  let w := mkWorld (mk (Some 0) (js "ws://localhost:4567") None true) {[0 := OPEN]} [] in
  ws (bridge (timer_fires (socket_closes (call_disconnect w) 0 7) 7 (Some 1))) = Some 1.
Proof.
  cbv zeta.
  exact (f_equal ws (proj1 (proj2 (proj2 (proj2 (proj2 (proj2
    (disconnect_reconnects
       (mkWorld (mk (Some 0) (js "ws://localhost:4567") None true) {[0 := OPEN]} [])
       0 eq_refl (or_intror eq_refl))) 7 1)))))).
Defined.

(** ** The reconnect loop *)

(** What the browser does to a bridge that is left alone: a connecting
    socket opens, an open one starts closing, a socket that is not closed
    has an error or closes, a pending timer fires.  [setTimeout] returns a
    handle no pending timer has, [new WebSocket] an object that is new. *)
Inductive browser_step : World → World → Prop :=
| step_opens w s :
    sockets w !! s = Some CONNECTING →
    browser_step w (socket_opens w s)
| step_closing w s :
    sockets w !! s = Some OPEN →
    browser_step w (socket_closing w s)
| step_errors w s st :
    sockets w !! s = Some st → st ≠ CLOSED →
    browser_step w (socket_errors w)
| step_closes w s st timerId :
    sockets w !! s = Some st → st ≠ CLOSED →
    timerId ∉ (timers w).*1 →
    browser_step w (socket_closes w s timerId)
| step_fires w timerId delay socket :
    (timerId, delay) ∈ timers w →
    (∀ s, socket = Some s → sockets w !! s = None) →
    browser_step w (timer_fires w timerId socket).

Definition live (w : World) (s : Socket) : Prop :=
  ∃ st, sockets w !! s = Some st ∧ st ≠ CLOSED.

Record loopInv (w : World) : Prop := mkLoopInv {
  inv_live : ∀ s, live w s ↔ ws (bridge w) = Some s;
  inv_connected :
    _connected (bridge w) = true →
    ∃ s, ws (bridge w) = Some s
         ∧ (sockets w !! s = Some OPEN ∨ sockets w !! s = Some CLOSING);
  inv_timers :
    timers w = []
    ∨ ∃ t, timers w = [(t, 3000%Z)]
           ∧ reconnectTimer (bridge w) = Some t ∧ ws (bridge w) = None;
}.

Lemma started_loopInv url socket : loopInv (started url socket).
Proof.
  destruct socket as [s|]; cbn.
  - split; cbn; [|done|by left].
    intros s'. unfold live. cbn. split.
    + intros (st & Hs & Hst). apply lookup_insert_Some in Hs as [[<- _]|[_ Hs]]; [done|].
      by rewrite lookup_empty in Hs.
    + intros [= <-]. exists CONNECTING. by rewrite lookup_insert_eq.
  - split; cbn; [|done|by left].
    intros s'. unfold live. cbn. split; [|done].
    intros (st & Hs & _). by rewrite lookup_empty in Hs.
Qed.

Lemma live_insert w s st s' :
  live (mkWorld (bridge w) (<[s := st]> (sockets w)) (timers w)) s'
  ↔ (s' = s ∧ st ≠ CLOSED) ∨ (s' ≠ s ∧ live w s').
Proof.
  unfold live. cbn [sockets]. destruct (decide (s' = s)) as [->|Hne].
  - rewrite lookup_insert_eq. split.
    + intros (st' & [= <-] & Hst). by left.
    + intros [[_ Hst]|[Hne _]]; [by exists st|done].
  - rewrite lookup_insert_ne by done. split; [by right|]. by intros [[? _]|[_ ?]].
Qed.

Lemma browser_step_loopInv w w' : browser_step w w' → loopInv w → loopInv w'.
Proof.
  destruct 1 as [w s Hs | w s Hs | w s st Hs Hst | w s st timerId Hs Hst Hfresh
                 | w timerId delay socket Hin Hnew]; intros [Hlive Hconn Htimers].
  - (* a socket opens *)
    assert (Hws : ws (bridge w) = Some s) by (apply Hlive; by exists CONNECTING).
    unfold socket_opens, after, onopen. cbn [fst snd foldl run bridge sockets timers].
    split; cbn [bridge sockets timers ws _connected reconnectTimer].
    + intros s'. rewrite <- Hlive.
      rewrite (live_insert w s OPEN s'). split.
      * intros [[-> _]|[_ ?]]; [by exists CONNECTING|done].
      * intros Hl. destruct (decide (s' = s)) as [->|]; [by left|by right].
    + intros _. exists s. split; [done|]. left. by rewrite lookup_insert_eq.
    + exact Htimers.
  - (* an open socket starts closing *)
    assert (Hws : ws (bridge w) = Some s) by (apply Hlive; by exists OPEN).
    unfold socket_closing.
    split; cbn [bridge sockets timers].
    + intros s'. rewrite <- Hlive.
      rewrite (live_insert w s CLOSING s'). split.
      * intros [[-> _]|[_ ?]]; [by exists OPEN|done].
      * intros Hl. destruct (decide (s' = s)) as [->|]; [by left|by right].
    + intros Hc. exists s. split; [done|]. right. by rewrite lookup_insert_eq.
    + exact Htimers.
  - (* an error *)
    assert (Hws : ws (bridge w) = Some s) by (apply Hlive; by exists st).
    unfold socket_errors, after, onerror. rewrite Hws. cbn [fst snd foldl run].
    assert (Hrun : (match sockets w !! s with
                    | Some CONNECTING | Some OPEN => (<[s := CLOSING]> (sockets w), timers w)
                    | _ => (sockets w, timers w)
                    end)
                   = (<[s := CLOSING]> (sockets w), timers w)).
    { rewrite Hs. destruct st; try done. by rewrite insert_id. }
    rewrite Hrun. cbn [fst snd].
    split; cbn [bridge sockets timers].
    + intros s'. rewrite <- Hlive.
      rewrite (live_insert w s CLOSING s'). split.
      * intros [[-> _]|[_ ?]]; [by exists st|done].
      * intros Hl. destruct (decide (s' = s)) as [->|]; [by left|by right].
    + intros Hc. exists s. split; [done|]. right. by rewrite lookup_insert_eq.
    + exact Htimers.
  - (* a socket closes *)
    assert (Hws : ws (bridge w) = Some s) by (apply Hlive; by exists st).
    assert (HT : timers w = []).
    { destruct Htimers as [?|(t & _ & _ & Hn)]; [done|congruence]. }
    unfold socket_closes, after, onclose.
    cbn [fst snd foldl run Timers.run bridge sockets timers]. rewrite HT.
    split; cbn [bridge sockets timers ws _connected reconnectTimer].
    + intros s'. rewrite (live_insert w s CLOSED s'). split; [|done].
      intros [[_ ?]|[Hne Hl]]; [done|]. apply Hlive in Hl. congruence.
    + done.
    + right. by exists timerId.
  - (* the timer fires *)
    destruct Htimers as [HT|(t & HT & Hrt & Hws)];
      [rewrite HT in Hin; by apply elem_of_nil in Hin|].
    rewrite HT in Hin. apply list_elem_of_singleton in Hin. injection Hin as -> ->.
    assert (Hdead : ∀ s, ¬ live w s).
    { intros s Hl. apply Hlive in Hl. congruence. }
    unfold timer_fires, after, connect. cbn [bridge sockets timers]. rewrite Hws, HT.
    rewrite filter_cons, decide_False by (cbn; tauto). rewrite filter_nil.
    destruct socket as [s|]; cbn [fst snd foldl run].
    + split; cbn [bridge sockets timers ws _connected reconnectTimer].
      * intros s'. rewrite (live_insert w s CONNECTING s'). split.
        -- intros [[-> _]|[_ Hl]]; [done|by apply Hdead in Hl].
        -- intros [= <-]. by left.
      * intros Hc. destruct (Hconn Hc) as (s0 & Hs0 & _). congruence.
      * by left.
    + split; cbn [bridge sockets timers].
      * intros s'. rewrite Hws. split; [|done]. intros Hl. by apply Hdead in Hl.
      * intros Hc. destruct (Hconn Hc) as (s0 & Hs0 & _). congruence.
      * by left.
Qed.

(** X27: a bridge that [bootstrap] has made and connected, and that is
    left to the browser, keeps at most one socket that is not closed, the
    one in its field [ws]; it reports connected only while that socket is
    open or closing; and at most one reconnect timer is pending, the one in
    [reconnectTimer], and only while the bridge has no socket.  So the loop
    of closing and reconnecting never piles up sockets or timers. *)
Theorem reconnect_loop url socket w :
  rtc browser_step (started url socket) w →
  (∀ s, live w s ↔ ws (bridge w) = Some s)
  ∧ (connected (bridge w) = true →
     ∃ s, ws (bridge w) = Some s
          ∧ (sockets w !! s = Some OPEN ∨ sockets w !! s = Some CLOSING))
  ∧ (timers w = []
     ∨ ∃ timerId, timers w = [(timerId, 3000%Z)]
                  ∧ reconnectTimer (bridge w) = Some timerId
                  ∧ ws (bridge w) = None).
Proof.
  intros Hr.
  assert (HI : loopInv w).
  { refine (rtc_ind_r (R := browser_step) loopInv (started url socket) _ _ w Hr).
    - apply started_loopInv.
    - intros y z _ Hstep IH. by apply (browser_step_loopInv y z). }
  destruct HI as [H1 H2 H3]. done.
Qed.

Lemma reconnect_loop_witness :
  let w := socket_closes (socket_opens (started (js "ws://localhost:4567") (Some 0)) 0) 0 7 in
  timers w = []
  ∨ ∃ timerId, timers w = [(timerId, 3000%Z)]
               ∧ reconnectTimer (bridge w) = Some timerId
               ∧ ws (bridge w) = None.
Proof.
  cbv zeta.
  apply (proj2 (proj2 (reconnect_loop (js "ws://localhost:4567") (Some 0) _
    (rtc_l _ _ _ _
       (step_opens (started (js "ws://localhost:4567") (Some 0)) 0 eq_refl)
       (rtc_once _ _
          (step_closes (socket_opens (started (js "ws://localhost:4567") (Some 0)) 0)
             0 OPEN 7 eq_refl ltac:(discriminate) ltac:(cbn; apply not_elem_of_nil))))))).
Defined.

End AgentBridgeProps.

(** * Properties of the runtime *)

Module RuntimeProps.
Import Inspector Timers Runtime.

(** ** Listeners *)

(** The five listeners [bootstrap] registers. *)
Definition handlers : list Listener :=
  [keydown_listener; keyup_listener; mousemove_listener; mousedown_listener;
   blur_listener].

(** The listeners of the module are the one for [DOMContentLoaded] or not,
    followed by the five handlers or not. *)
Definition registered (dcl reg : bool) : list Listener :=
  (if dcl then [DOMContentLoaded_listener] else []) ++ (if reg then handlers else []).

Ltac in_handlers := unfold handlers; repeat first [by left | right].

Lemma handler_registered l dcl :
  l ∈ handlers → l ∈ registered dcl true ∧ l ∉ registered dcl false.
Proof.
  intros Hl. unfold registered. split.
  - apply elem_of_app. by right.
  - rewrite app_nil_r. destruct dcl; [|apply not_elem_of_nil].
    intros Hd%list_elem_of_singleton. subst l.
    unfold handlers in Hl.
    repeat (apply elem_of_cons in Hl as [Hl | Hl]; [discriminate|]).
    by apply elem_of_nil in Hl.
Qed.

Lemma dispatch_handler w l dcl reg (r : Result) :
  l ∈ handlers → listeners w = registered dcl reg →
  dispatch w l r = if reg then r else Some (w, []).
Proof.
  intros Hl Hw. unfold dispatch. rewrite Hw.
  destruct (handler_registered l dcl Hl) as [Hin Hout].
  destruct reg; [by rewrite decide_True|by rewrite decide_False].
Qed.

Lemma bootstrap_listeners dcl reg :
  addEventListener blur_listener
    (addEventListener mousedown_listener
       (addEventListener mousemove_listener
          (addEventListener keyup_listener
             (addEventListener keydown_listener (registered dcl reg)))))
  = registered dcl true.
Proof. by destruct dcl, reg; vm_compute. Qed.

Lemma destroy_listeners dcl reg :
  removeEventListener blur_listener
    (removeEventListener mousedown_listener
       (removeEventListener mousemove_listener
          (removeEventListener keyup_listener
             (removeEventListener keydown_listener (registered dcl reg)))))
  = registered dcl false.
Proof. by destruct dcl, reg; vm_compute. Qed.

Ltac fields :=
  cbn [initialized overlay bridge opts keyHeld hoveredEl loading listeners cursor
       document objects set_initialized set_overlay set_bridge set_opts set_keyHeld
       set_hoveredEl set_loading set_listeners set_cursor set_document set_objects
       mbind option_bind fst snd].

(** ** What every handler does *)

(** Highlight and tooltip are both hidden. *)
Definition hidden (o : Overlay.t) : Prop :=
  Overlay.Style.display (Overlay.overlayEl_style o) = js "none"
  ∧ Overlay.Style.display (Overlay.tooltipEl_style o) = js "none".

(** What a handler leaves alone. *)
Definition same_frame (w w' : World) : Prop :=
  initialized w' = initialized w ∧ opts w' = opts w ∧ loading w' = loading w
  ∧ listeners w' = listeners w ∧ document w' = document w ∧ objects w' = objects w.

(** The callback is called only when there is one, a socket is used only
    when there is a bridge. *)
Definition allowed (w : World) (e : Effect) : Prop :=
  match e with
  | call_onGrab _ => ∃ k, opts w = Some k ∧ is_Some (Opts.onGrab k)
  | socket _ => is_Some (bridge w)
  | _ => True
  end.

(** What the handlers and the callbacks of timers and sockets have in
    common: they return, keep the frame, keep the overlay object and whether
    it is mounted, and leave highlight and tooltip hidden and no element
    hovered if they leave the key released. *)
Definition handled (w : World) (o : Overlay.t) (r : Result) : Prop :=
  ∃ w' effects o',
    r = Some (w', effects)
    ∧ same_frame w w'
    ∧ (bridge w' = None ↔ bridge w = None)
    ∧ overlay w' = Some o'
    ∧ Overlay._mounted o' = Overlay._mounted o
    ∧ Overlay.ident o' = Overlay.ident o
    ∧ Forall (allowed w) effects
    ∧ (keyHeld w' = false → hoveredEl w' = None ∧ hidden o').

Section handlers.
Context `{JSNumber Num}.

Lemma handled_skip w o :
  overlay w = Some o →
  (keyHeld w = false → hoveredEl w = None ∧ hidden o) →
  handled w o (Some (w, [])).
Proof.
  intros Ho Hidle. exists w, [], o. do 6 (split; [done|]).
  split; [apply Forall_nil_2|exact Hidle].
Qed.

Ltac handled_now :=
  eexists _, _, _; split; [reflexivity|];
  cbn -[inspect]; do 5 (split; [done|]);
  (split; [apply Forall_nil_2|]);
  try done; try (intros _; by repeat split).

Lemma onKeyDown_handled (L : Layout Num) w e o k :
  overlay w = Some o → opts w = Some k →
  (keyHeld w = false → hoveredEl w = None ∧ hidden o) →
  handled w o (onKeyDown L w e).
Proof.
  intros Ho Hk Hidle. unfold onKeyDown, isActivationKey. rewrite Hk.
  cbn [mbind option_bind].
  match goal with |- context [negb ?b] => destruct b end; cbn [negb];
    [|by apply handled_skip].
  destruct w as [ini ov br op held hov ld ls cur doc obj]; cbn in Ho, Hk |- *; subst.
  cbn [mbind option_bind].
  destruct hov as [el|]; handled_now.
Qed.

Lemma onKeyUp_handled w e o k :
  overlay w = Some o → opts w = Some k →
  (keyHeld w = false → hoveredEl w = None ∧ hidden o) →
  handled w o (onKeyUp w e).
Proof.
  intros Ho Hk Hidle. unfold onKeyUp, isActivationKey. rewrite Hk.
  cbn [mbind option_bind].
  match goal with |- context [negb ?b] => destruct b end; cbn [negb];
    [|by apply handled_skip].
  destruct w as [ini ov br op held hov ld ls cur doc obj]; cbn in Ho, Hk |- *; subst.
  handled_now.
Qed.

Lemma onMouseMove_handled (L : Layout Num) w e o k :
  overlay w = Some o → opts w = Some k →
  (keyHeld w = false → hoveredEl w = None ∧ hidden o) →
  handled w o (onMouseMove L w e).
Proof.
  intros Ho Hk Hidle. unfold onMouseMove.
  destruct (keyHeld w) eqn:Hheld; cbn [negb];
    [|apply handled_skip; [done|by rewrite Hheld]].
  destruct (findGrabbableTarget _) as [el|];
    [|apply handled_skip; [done|by rewrite Hheld]].
  destruct w as [ini ov br op held hov ld ls cur doc obj]; cbn in Ho, Hk, Hheld |- *; subst.
  handled_now.
Qed.

Lemma onBlur_handled w o k :
  overlay w = Some o → opts w = Some k →
  (keyHeld w = false → hoveredEl w = None ∧ hidden o) →
  handled w o (onBlur w).
Proof.
  intros Ho Hk Hidle. unfold onBlur.
  destruct (keyHeld w) eqn:Hheld; [|apply handled_skip; [done|by rewrite Hheld]].
  destruct w as [ini ov br op held hov ld ls cur doc obj]; cbn in Ho, Hk, Hheld |- *; subst.
  handled_now.
Qed.

(** *** The click *)

(** [onGrab] was given and returned [false]. *)
Definition refused (k : Opts.t) (context : GrabbedContext) : bool :=
  match Opts.onGrab k with
  | Some f => match f context with returns_false => true | returns_other => false end
  | None => false
  end.

(** [bridge?.connected]. *)
Definition bridge_connected (w : World) : bool :=
  match bridge w with
  | Some b => AgentBridge.connected b
  | None => false
  end.

(** The toast of a click, if it shows one. *)
Definition toastOf (w : World) (k : Opts.t) (context : GrabbedContext) : option jsstring :=
  if bridge_connected w then Some SENT
  else if negb (refused k context) && Opts.showToast k then Some COPIED
  else None.

Lemma onMouseDown_held w e now timerId readyState o k el :
  keyHeld w = true →
  findGrabbableTarget (MouseEvent.target e) = Some el →
  overlay w = Some o → opts w = Some k →
  let context := inspect now el in
  let toasted :=
    match toastOf w k context with
    | Some message => Some (Overlay.toast o message (Some 1500%Z) timerId)
    | None => None
    end in
  onMouseDown w e now timerId readyState =
    Some (set_overlay (Some (Overlay.clearHighlight (from_option fst o toasted))) w,
          [preventDefault; stopPropagation]
          ++ match Opts.onGrab k with Some _ => [call_onGrab context] | None => [] end
          ++ (if refused k context then [] else [clipboard_writeText (formatted context)])
          ++ match bridge w with
             | Some b =>
                 if AgentBridge.connected b
                 then map socket (AgentBridge.send b readyState context)
                 else []
             | None => []
             end
          ++ map timer (from_option snd [] toasted)).
Proof.
  intros Hheld Hel Ho Hk. cbv zeta.
  unfold onMouseDown, toastOf, bridge_connected, refused.
  rewrite Hheld, Hel, Ho, Hk. cbn [negb mbind option_bind].
  destruct (bridge w) as [b|]; [destruct (AgentBridge.connected b)|];
    (destruct (Opts.onGrab k) as [f|]; [destruct (f (inspect now el))|]);
    destruct (Opts.showToast k); cbn [negb andb from_option fst snd app map copyToClipboard];
    rewrite ?app_nil_r; try reflexivity.
Qed.

Lemma onMouseDown_handled w e now timerId readyState o k :
  overlay w = Some o → opts w = Some k →
  (keyHeld w = false → hoveredEl w = None ∧ hidden o) →
  handled w o (onMouseDown w e now timerId readyState).
Proof.
  intros Ho Hk Hidle.
  destruct (keyHeld w) eqn:Hheld.
  2:{ unfold onMouseDown. rewrite Hheld. apply handled_skip; [done|by rewrite Hheld]. }
  destruct (findGrabbableTarget (MouseEvent.target e)) as [el|] eqn:Hel.
  2:{ unfold onMouseDown. rewrite Hheld, Hel. apply handled_skip; [done|by rewrite Hheld]. }
  rewrite (onMouseDown_held _ _ _ _ _ o k el) by done.
  eexists _, _, _. split; [reflexivity|].
  split; [done|]. split; [done|]. split; [reflexivity|].
  split; [by destruct (toastOf _ _ _)|]. split; [by destruct (toastOf _ _ _)|].
  split; [|fields; by rewrite Hheld].
  rewrite !Forall_app. repeat split.
  - by repeat constructor.
  - destruct (Opts.onGrab k) eqn:Hg; repeat constructor. exists k. by rewrite Hg.
  - destruct (refused _ _); by repeat constructor.
  - destruct (bridge w) eqn:Hb; [|constructor].
    destruct (AgentBridge.connected _); [|constructor].
    apply Forall_forall. intros x (c & -> & _)%list_elem_of_fmap. cbn. by rewrite Hb.
  - apply Forall_forall. by intros x (c & -> & _)%list_elem_of_fmap.
Qed.

Lemma on_bridge_handled w f o :
  overlay w = Some o →
  (keyHeld w = false → hoveredEl w = None ∧ hidden o) →
  handled w o (on_bridge w f).
Proof.
  intros Ho Hidle. unfold on_bridge.
  destruct (bridge w) as [b|] eqn:Hb; [|by apply handled_skip].
  destruct (f b) as [b' calls]. eexists _, _, _. split; [reflexivity|]. fields.
  split; [done|]. split; [by rewrite Hb|]. do 3 (split; [done|]).
  split; [|exact Hidle].
  apply Forall_forall. intros x (c & -> & _)%list_elem_of_fmap. cbn. by rewrite Hb.
Qed.

(** *** Events *)

(** The actions that are not calls of the two exported functions and not
    the end of parsing. *)
Definition event (a : Action Num) : bool :=
  match a with
  | call_initSolidGrab _ _ | call_destroySolidGrab | DOMContentLoaded _ => false
  | _ => true
  end.

Lemma event_handled w (a : Action Num) o k dcl reg :
  overlay w = Some o → opts w = Some k → listeners w = registered dcl reg →
  (keyHeld w = false → hoveredEl w = None ∧ hidden o) →
  event a = true →
  handled w o (step w a).
Proof.
  intros Ho Hk Hl Hidle Ha.
  destruct a as [options newSocket | | newSocket | L e | e | L e | e now timerId readyState
    | | | | timerId | | newSocket]; try discriminate Ha; cbn [step].
  - rewrite (dispatch_handler w _ dcl reg) by (done || in_handlers).
    destruct reg; [by apply (onKeyDown_handled L w e o k)|by apply handled_skip].
  - rewrite (dispatch_handler w _ dcl reg) by (done || in_handlers).
    destruct reg; [by apply (onKeyUp_handled w e o k)|by apply handled_skip].
  - rewrite (dispatch_handler w _ dcl reg) by (done || in_handlers).
    destruct reg; [by apply (onMouseMove_handled L w e o k)|by apply handled_skip].
  - rewrite (dispatch_handler w _ dcl reg) by (done || in_handlers).
    destruct reg; [by apply (onMouseDown_handled w e now timerId readyState o k)
                  |by apply handled_skip].
  - rewrite (dispatch_handler w _ dcl reg) by (done || in_handlers).
    destruct reg; [by apply (onBlur_handled w o k)|by apply handled_skip].
  - rewrite Ho. eexists _, _, _. split; [reflexivity|]. fields.
    do 5 (split; [done|]). split; [apply Forall_nil_2|exact Hidle].
  - by apply on_bridge_handled.
  - by apply on_bridge_handled.
  - by apply on_bridge_handled.
  - by apply on_bridge_handled.
Qed.

End handlers.

(** ** The public functions *)

Lemma mount_fields o d :
  let o' := (Overlay.mount o d).1 in
  Overlay._mounted o' = true
  ∧ Overlay.ident o' = Overlay.ident o
  ∧ Overlay.overlayEl_style o' = Overlay.overlayEl_style o
  ∧ Overlay.tooltipEl_style o' = Overlay.tooltipEl_style o.
Proof. unfold Overlay.mount. by destruct (Overlay._mounted o) eqn:E. Qed.

Lemma unmount_fields o d :
  let o' := (Overlay.unmount o d).1 in
  Overlay._mounted o' = false
  ∧ Overlay.ident o' = Overlay.ident o
  ∧ Overlay.overlayEl_style o' = Overlay.overlayEl_style o
  ∧ Overlay.tooltipEl_style o' = Overlay.tooltipEl_style o.
Proof. unfold Overlay.unmount. by destruct (Overlay._mounted o) eqn:E. Qed.

(** The bridge [bootstrap] leaves in the variable, and its calls. *)
Definition bootstrap_bridge (w : World) (k : Opts.t)
    (newSocket : option AgentBridge.Socket) : option AgentBridge.t * list Effect :=
  match Opts.agentUrl k with
  | Some u =>
      if JS.truthy u
      then (Some (AgentBridge.connect (AgentBridge.new u) newSocket).1,
            map socket (AgentBridge.connect (AgentBridge.new u) newSocket).2)
      else (bridge w, [])
  | None => (bridge w, [])
  end.

Lemma bootstrap_Some w newSocket o k dcl reg :
  overlay w = Some o → opts w = Some k → listeners w = registered dcl reg →
  bootstrap w newSocket =
    Some (mkWorld (initialized w) (Some (Overlay.mount o (document w)).1)
            (bootstrap_bridge w k newSocket).1 (Some k) (keyHeld w) (hoveredEl w)
            (loading w) (registered dcl true) (cursor w)
            (Overlay.mount o (document w)).2 (objects w),
          (bootstrap_bridge w k newSocket).2 ++ [console_log (HINT (Opts.key k))]).
Proof.
  intros Ho Hk Hl. unfold bootstrap, bootstrap_bridge. rewrite Ho. cbn [mbind option_bind].
  destruct (Overlay.mount o (document w)) as [o' d'].
  destruct w as [ini ov br op held hov ld ls cur doc obj]; cbn in Ho, Hk, Hl; subst.
  fields. rewrite bootstrap_listeners.
  destruct (Opts.agentUrl k) as [u|]; [destruct (JS.truthy u)|];
    [destruct (AgentBridge.connect (AgentBridge.new u) newSocket) as [b calls]|..];
    reflexivity.
Qed.

Lemma destroySolidGrab_Some w o dcl reg :
  initialized w = true → overlay w = Some o → listeners w = registered dcl reg →
  destroySolidGrab w =
    Some (mkWorld false (Some (Overlay.unmount o (document w)).1) None (opts w)
            (keyHeld w) (hoveredEl w) (loading w) (registered dcl false) []
            (Overlay.unmount o (document w)).2 (objects w),
          match bridge w with
          | Some b => map socket (AgentBridge.disconnect b).2
          | None => []
          end).
Proof.
  intros Hi Ho Hl. unfold destroySolidGrab. rewrite Hi. cbn [negb].
  destruct w as [ini ov br op held hov ld ls cur doc obj]; cbn in Hi, Ho, Hl; subst.
  fields. rewrite destroy_listeners.
  by destruct (Overlay.unmount o doc) as [o' d'].
Qed.

(** The options [initSolidGrab] stores. *)
Definition optsOf (options : SolidGrabOptions.t) : Opts.t :=
  Opts.mk (default (js "Alt") (SolidGrabOptions.key options))
    (default true (SolidGrabOptions.showToast options))
    (SolidGrabOptions.onGrab options)
    (SolidGrabOptions.agentUrl options).

(** The state in which a first or a later [initSolidGrab] starts
    [bootstrap] or waits for the end of parsing. *)
Definition fresh (w : World) (options : SolidGrabOptions.t) : World :=
  set_objects (S (objects w))
    (set_overlay (Some (Overlay.new (objects w)))
       (set_opts (Some (optsOf options)) (set_initialized true w))).

Lemma initSolidGrab_cases w options newSocket :
  initSolidGrab w options newSocket =
    if initialized w then Some (w, [])
    else if loading w
         then Some (set_listeners
                      (addEventListener DOMContentLoaded_listener (listeners w))
                      (fresh w options), [])
         else bootstrap (fresh w options) newSocket.
Proof. reflexivity. Qed.

(** ** The invariant *)

Definition Inv (w : World) : Prop :=
  ∃ o k dcl reg,
    overlay w = Some o
    ∧ opts w = Some k
    ∧ listeners w = registered dcl reg
    ∧ Overlay._mounted o = reg
    ∧ (keyHeld w = false → hoveredEl w = None ∧ hidden o)
    ∧ (loading w = true → reg = false)
    ∧ (initialized w = true → if loading w then dcl = true else reg = true).

Section invariant.
Context `{JSNumber Num}.

Lemma Inv_skip w :
  Inv w → ∃ w' effects, (Some (w, []) : Result) = Some (w', effects) ∧ Inv w'.
Proof. intros HI. by exists w, []. Qed.

Lemma handled_Inv w o k dcl reg r :
  overlay w = Some o → opts w = Some k → listeners w = registered dcl reg →
  Overlay._mounted o = reg →
  (loading w = true → reg = false) →
  (initialized w = true → if loading w then dcl = true else reg = true) →
  handled w o r →
  ∃ w' effects, r = Some (w', effects) ∧ Inv w'.
Proof.
  intros Ho Hk Hl Hm Hload Hinit
    (w' & effects & o' & -> & (F1 & F2 & F3 & F4 & F5 & F6) & _ & Ho' & Hm' & _ & _ & Hidle').
  exists w', effects. split; [done|].
  exists o', k, dcl, reg. rewrite F1, F3, F4, Hm', <- Hk. done.
Qed.

Lemma initSolidGrab_Inv w options newSocket :
  Inv w → ∃ w' effects, initSolidGrab w options newSocket = Some (w', effects) ∧ Inv w'.
Proof.
  intros HI. rewrite initSolidGrab_cases.
  destruct (initialized w) eqn:Hi; [by apply Inv_skip|].
  destruct HI as (o & k & dcl & reg & Ho & Hk & Hl & Hm & Hidle & Hload & Hinit).
  destruct (loading w) eqn:Hld.
  - eexists _, _. split; [reflexivity|].
    rewrite (Hload eq_refl) in Hl.
    eexists _, _, true, false. unfold fresh. fields. rewrite Hl, Hld.
    split; [reflexivity|]. split; [reflexivity|].
    split; [by destruct dcl; vm_compute|]. split; [reflexivity|].
    split; [|done]. intros Hheld. split; [by apply Hidle|by split].
  - rewrite (bootstrap_Some (fresh w options) newSocket
               (Overlay.new (objects w)) (optsOf options) dcl reg) by done.
    eexists _, _. split; [reflexivity|].
    eexists _, _, dcl, true. unfold fresh. fields.
    pose proof (mount_fields (Overlay.new (objects w)) (document w)) as (Hm1 & _ & Hm2 & Hm3).
    do 4 (split; [done|]).
    split; [|by rewrite Hld].
    intros Hheld. split; [by apply Hidle|]. unfold hidden. by rewrite Hm2, Hm3.
Qed.

Lemma destroySolidGrab_Inv w :
  Inv w → ∃ w' effects, destroySolidGrab w = Some (w', effects) ∧ Inv w'.
Proof.
  intros HI. destruct (initialized w) eqn:Hi.
  2:{ unfold destroySolidGrab. rewrite Hi. by apply Inv_skip. }
  destruct HI as (o & k & dcl & reg & Ho & Hk & Hl & Hm & Hidle & Hload & Hinit).
  rewrite (destroySolidGrab_Some w o dcl reg) by done.
  pose proof (unmount_fields o (document w)) as (Hm1 & _ & Hm2 & Hm3).
  eexists _, _. split; [reflexivity|].
  eexists _, k, dcl, false. fields.
  do 4 (split; [done|]).
  split; [|done]. intros Hheld. split; [by apply Hidle|].
  unfold hidden. rewrite Hm2, Hm3. by apply Hidle.
Qed.

Lemma DOMContentLoaded_cases w newSocket o k dcl reg :
  overlay w = Some o → opts w = Some k → listeners w = registered dcl reg →
  (loading w = true → reg = false) →
  step (Num := Num) w (DOMContentLoaded newSocket) =
    if loading w then
      if dcl then bootstrap (set_loading false w) newSocket
      else Some (set_loading false w, [])
    else Some (w, []).
Proof.
  intros Ho Hk Hl Hload. cbn [step]. destruct (loading w) eqn:Hld; [|done].
  rewrite (Hload eq_refl) in *. unfold dispatch. fields. rewrite Hl.
  destruct dcl.
  - by rewrite decide_True by (apply elem_of_app; left; by left).
  - by rewrite decide_False by apply not_elem_of_nil.
Qed.

Lemma step_Inv w (a : Action Num) :
  Inv w → ∃ w' effects, step w a = Some (w', effects) ∧ Inv w'.
Proof.
  intros HI. destruct (event a) eqn:Ha.
  { destruct HI as (o & k & dcl & reg & Ho & Hk & Hl & Hm & Hidle & Hload & Hinit).
    by eapply handled_Inv, (event_handled w a o k dcl reg). }
  destruct a as [options newSocket | | newSocket | | | | | | | | | | ];
    try discriminate Ha.
  - by apply initSolidGrab_Inv.
  - by apply destroySolidGrab_Inv.
  - pose proof HI as (o & k & dcl & reg & Ho & Hk & Hl & Hm & Hidle & Hload & Hinit).
    rewrite (DOMContentLoaded_cases w newSocket o k dcl reg) by done.
    destruct (loading w) eqn:Hld; [|by apply Inv_skip].
    rewrite (Hload eq_refl) in *.
    destruct dcl.
    + rewrite (bootstrap_Some (set_loading false w) newSocket o k true false) by done.
      eexists _, _. split; [reflexivity|].
      pose proof (mount_fields o (document w)) as (Hm1 & _ & Hm2 & Hm3).
      eexists _, _, true, true. fields.
      do 4 (split; [done|]). split; [|done].
      intros Hheld. split; [by apply Hidle|]. unfold hidden. rewrite Hm2, Hm3.
      by apply Hidle.
    + eexists _, _. split; [reflexivity|].
      exists o, k, false, false. fields.
      repeat (split; [first [assumption | done]|]). assumption.
Qed.

Lemma run_Inv w (actions : list (Action Num)) :
  Inv w → ∃ w' effects, run w actions = Some (w', effects) ∧ Inv w'.
Proof.
  revert w. induction actions as [|a actions IH]; intros w HI.
  - by exists w, [].
  - destruct (step_Inv w a HI) as (w1 & e1 & Hs & HI1).
    destruct (IH w1 HI1) as (w2 & e2 & Hr & HI2).
    exists w2, (e1 ++ e2). cbn [run]. rewrite Hs. cbn [mbind option_bind].
    rewrite Hr. done.
Qed.

End invariant.

(** ** Sessions *)

(** The options in force after the module is evaluated. *)
Definition defaults : Opts.t := Opts.mk (js "Alt") true None None.

(** The state right after the module is evaluated. *)
Definition loaded (loading : bool) (d : Overlay.Document) (cursor : jsstring)
    (objects : nat) : World :=
  if loading then
    mkWorld true (Some (Overlay.new objects)) None (Some defaults) false None true
      [DOMContentLoaded_listener] cursor d (S objects)
  else
    mkWorld true (Some (Overlay.mount (Overlay.new objects) d).1) None (Some defaults)
      false None false handlers cursor (Overlay.mount (Overlay.new objects) d).2
      (S objects).

Lemma load_pristine ld d cur obj :
  ∃ effects,
    load (pristine ld d cur obj) = Some (loaded ld d cur obj, effects)
    ∧ Forall (λ e, ∃ text, e = console_log text) effects.
Proof.
  unfold load. rewrite initSolidGrab_cases. cbn [initialized pristine loading].
  destruct ld.
  - exists []. split; [reflexivity|constructor].
  - rewrite (bootstrap_Some _ None (Overlay.new obj) defaults false false) by done.
    eexists. split; [reflexivity|]. repeat constructor. eauto.
Qed.

Lemma loaded_Inv ld d cur obj : Inv (loaded ld d cur obj).
Proof.
  destruct ld.
  - exists (Overlay.new obj), defaults, true, false. cbn. by repeat split.
  - pose proof (mount_fields (Overlay.new obj) d) as (Hm1 & _ & Hm2 & Hm3).
    eexists _, defaults, false, true. unfold loaded. fields.
    do 4 (split; [done|]). split; [|done].
    intros _. split; [done|]. unfold hidden. by rewrite Hm2, Hm3.
Qed.

(** The module is evaluated in a browser, and then things happen. *)
Definition session `{JSNumber Num} (loading : bool) (d : Overlay.Document)
    (cursor : jsstring) (objects : nat) (actions : list (Action Num)) : Result :=
  '(w, effects) ← load (pristine loading d cursor objects);
  '(w, more) ← run w actions;
  Some (w, effects ++ more).

Lemma session_run `{JSNumber Num} ld d cur obj (actions : list (Action Num)) :
  ∃ w effects more,
    session ld d cur obj actions = Some (w, effects ++ more)
    ∧ run (loaded ld d cur obj) actions = Some (w, more)
    ∧ Forall (λ e, ∃ text, e = console_log text) effects
    ∧ Inv w.
Proof.
  destruct (load_pristine ld d cur obj) as (effects & Hload & Heff).
  destruct (run_Inv _ actions (loaded_Inv ld d cur obj))
    as (w & more & Hrun & HI).
  exists w, effects, more. unfold session. rewrite Hload. cbn [mbind option_bind].
  rewrite Hrun. done.
Qed.

(** ** Nothing shows while the key is released *)






(** ** Listeners and the overlay *)

(** X21: in every session the listeners of the module are the five
    handlers, all or none of them, after the listener for the end of parsing
    if that one was registered; the handlers are registered exactly while
    the current overlay is mounted, and never while the document is still
    loading; and while the module is initialized and the document is
    loading, the listener for the end of parsing is registered. *)
Theorem handlers_while_mounted `{JSNumber Num} ld d cur obj (actions : list (Action Num)) :
  ∃ w effects o (dcl : bool),
    session ld d cur obj actions = Some (w, effects)
    ∧ overlay w = Some o
    ∧ listeners w
      = (if dcl then [DOMContentLoaded_listener] else [])
        ++ (if Overlay._mounted o then handlers else [])
    ∧ (loading w = true → Overlay._mounted o = false)
    ∧ (initialized w = true → loading w = true → dcl = true).
Proof.
  destruct (session_run ld d cur obj actions) as (w & effects & more & Hs & _ & _ & HI).
  destruct HI as (o & k & dcl & reg & Ho & Hk & Hl & Hm & Hidle & Hload & Hinit).
  exists w, (effects ++ more), o, dcl. subst reg.
  do 4 (split; [done|]).
  intros Hi Hld; specialize (Hinit Hi); by rewrite Hld in Hinit.
Qed.

(** ** A module evaluated after the document was parsed *)

(** The document holds nodes of the page only. *)
Definition page_only (d : Overlay.Document) : Prop :=
  ∀ n, n ∈ Overlay.headNodes d ++ Overlay.bodyNodes d → ∃ i, n = Overlay.PageNode i.

(** The page with the five elements of the overlay [i] at the end of head
    and body. *)
Definition mounted_doc (d : Overlay.Document) (i : nat) : Overlay.Document :=
  Overlay.mkDocument
    (Overlay.headNodes d ++ [Overlay.OverlayNode i Overlay.styleEl])
    (Overlay.bodyNodes d ++ OverlayProps.bodyElements i).

Lemma page_without d i :
  page_only d →
  OverlayProps.without i (Overlay.headNodes d) = Overlay.headNodes d
  ∧ OverlayProps.without i (Overlay.bodyNodes d) = Overlay.bodyNodes d.
Proof.
  intros Hp.
  split; apply OverlayProps.without_none; intros n Hn;
    (destruct (Hp n) as [j ->]; [apply elem_of_app; auto|]); by intros [].
Qed.

Lemma mount_page d o :
  page_only d → Overlay._mounted o = false →
  Overlay.mount o d = (Overlay.set__mounted true o, mounted_doc d (Overlay.ident o)).
Proof.
  intros Hp Hm. rewrite OverlayProps.mount_unmounted by done.
  destruct (page_without d (Overlay.ident o) Hp) as [-> ->]. done.
Qed.

Lemma unmount_page d o :
  page_only d → Overlay._mounted o = true →
  Overlay.unmount o (mounted_doc d (Overlay.ident o)) = (Overlay.set__mounted false o, d).
Proof.
  intros Hp Hm. rewrite OverlayProps.unmount_mounted by done.
  unfold mounted_doc. cbn [Overlay.headNodes Overlay.bodyNodes].
  rewrite !OverlayProps.without_app.
  rewrite (OverlayProps.without_own _ (OverlayProps.bodyElements _))
    by apply OverlayProps.bodyElements_own.
  rewrite (OverlayProps.without_own _ [_]) by (by repeat constructor).
  rewrite !app_nil_r.
  destruct (page_without d (Overlay.ident o) Hp) as [-> ->]. by destruct d.
Qed.

Definition Clean (d : Overlay.Document) (w : World) : Prop :=
  loading w = false
  ∧ ∃ o, overlay w = Some o
         ∧ Overlay._mounted o = initialized w
         ∧ listeners w = registered false (initialized w)
         ∧ document w = (if initialized w then mounted_doc d (Overlay.ident o) else d)
         ∧ (initialized w = false → bridge w = None).

Lemma step_Clean `{JSNumber Num} d w (a : Action Num) w' effects :
  page_only d → Inv w → Clean d w →
  step w a = Some (w', effects) → Clean d w'.
Proof.
  intros Hp HI (Hld & o & Ho & Hm & Hl & Hd & Hb) Hstep.
  destruct HI as (o0 & k & dcl & reg & Ho0 & Hk & _ & _ & Hidle & _ & _).
  assert (o0 = o) as -> by congruence.
  destruct (event a) eqn:Ha.
  { destruct (event_handled w a o k _ _ Ho Hk Hl Hidle Ha)
      as (w1 & e1 & o' & Hs & (F1 & F2 & F3 & F4 & F5 & F6) & Fb & Ho' & Hm' & Hi' & _).
    rewrite Hs in Hstep. injection Hstep as <- <-.
    split; [congruence|]. exists o'. rewrite F1, F4, F5, Hm', Hi'.
    do 4 (split; [done|]). intros Hi. by apply Fb, Hb. }
  destruct a as [options newSocket | | newSocket | | | | | | | | | | ];
    try discriminate Ha; cbn [step] in Hstep.
  - rewrite initSolidGrab_cases, Hld in Hstep.
    destruct (initialized w) eqn:Hi.
    { injection Hstep as <- <-. split; [done|]. exists o. by rewrite Hi. }
    rewrite (bootstrap_Some (fresh w options) newSocket
               (Overlay.new (objects w)) (optsOf options) false false) in Hstep by done.
    change (document (fresh w options)) with (document w) in Hstep.
    rewrite Hd, (mount_page d (Overlay.new (objects w))) in Hstep by done.
    injection Hstep as <- <-. unfold fresh. fields. split; [done|].
    eexists. split; [reflexivity|]. by repeat split.
  - destruct (initialized w) eqn:Hi.
    2:{ unfold destroySolidGrab in Hstep. rewrite Hi in Hstep. injection Hstep as <- <-.
        split; [done|]. exists o. by rewrite Hi. }
    rewrite (destroySolidGrab_Some w o false true) in Hstep by done.
    rewrite Hd, (unmount_page d o) in Hstep by done.
    injection Hstep as <- <-. fields. split; [done|].
    eexists. split; [reflexivity|]. by repeat split.
  - rewrite Hld in Hstep. injection Hstep as <- <-. split; [done|]. by exists o.
Qed.

Lemma run_preserves `{JSNumber Num} (P : World → Prop) :
  (∀ w (a : Action Num) w' effects,
     Inv w → P w → step w a = Some (w', effects) → P w') →
  ∀ (actions : list (Action Num)) w w' effects,
    Inv w → P w → run w actions = Some (w', effects) → P w'.
Proof.
  intros Hstep. induction actions as [|a actions IH]; intros w w' effects HI HP.
  - cbn [run]. by intros [= <- <-].
  - cbn [run]. destruct (step_Inv w a HI) as (w1 & e1 & Hs & HI1). rewrite Hs.
    cbn [mbind option_bind].
    destruct (run w1 actions) as [[w2 e2]|] eqn:Hr; [|done].
    cbn [mbind option_bind]. intros [= <- <-].
    apply (IH w1 w2 e2 HI1); [|done]. by apply (Hstep w a w1 e1).
Qed.

(** X22: when the module is evaluated after the document was parsed, then
    in every session the five handlers are registered exactly while the
    module is initialized and no other listener of the module ever is, the
    children of head and body are those of the page followed by the five
    elements of the current overlay while the module is initialized and
    those of the page as they were while it is not, and the module variable
    [bridge] is [null] while it is not.  So [destroySolidGrab] takes the
    listeners and the elements of [initSolidGrab] away again; the bridge it
    disconnects is dropped from the variable, not stopped (X19). *)
Theorem lifecycle_after_parsing `{JSNumber Num} d cur obj (actions : list (Action Num)) :
  page_only d →
  ∃ w effects o,
    session false d cur obj actions = Some (w, effects)
    ∧ overlay w = Some o
    ∧ Overlay._mounted o = initialized w
    ∧ listeners w = (if initialized w then handlers else [])
    ∧ document w = (if initialized w then mounted_doc d (Overlay.ident o) else d)
    ∧ (initialized w = false → bridge w = None).
Proof.
  intros Hp.
  destruct (session_run false d cur obj actions) as (w & effects & more & Hs & Hr & _ & HI).
  assert (HC : Clean d (loaded false d cur obj)).
  { split; [done|]. unfold loaded. fields.
    rewrite (mount_page d (Overlay.new obj)) by done.
    eexists. split; [reflexivity|]. by repeat split. }
  destruct (run_preserves (Clean d) (λ w a w' e, step_Clean d w a w' e Hp)
              actions _ w more (loaded_Inv false d cur obj) HC Hr)
    as (_ & o & Ho & Hm & Hl & Hd & Hb).
  exists w, (effects ++ more), o. do 3 (split; [done|]).
  split; [|done]. rewrite Hl. by destruct (initialized w).
Qed.

Lemma lifecycle_after_parsing_witness :
  let d := Overlay.mkDocument [Overlay.PageNode 0] [Overlay.PageNode 1] in
  ∃ w effects,
    @session Z Overlay.Z_JSNumber false d [] 0 [call_destroySolidGrab] = Some (w, effects)
    ∧ document w = d ∧ listeners w = [].
Proof.
  cbv zeta.
  destruct (@lifecycle_after_parsing Z Overlay.Z_JSNumber
              (Overlay.mkDocument [Overlay.PageNode 0] [Overlay.PageNode 1]) [] 0
              [call_destroySolidGrab])
    as (w & effects & o & Hs & _ & _ & Hl & Hd & _).
  { intros n Hn. cbn in Hn.
    repeat (apply elem_of_cons in Hn as [-> | Hn]; [by eexists|]).
    by apply elem_of_nil in Hn. }
  exists w, effects. split; [exact Hs|].
  assert (Hi : initialized w = false).
  { revert Hs. vm_compute. by intros [= <- _]. }
  rewrite Hi in Hl, Hd. done.
Defined.

(** ** The end of parsing *)

(** While the document is loading the one listener of the module is the
    one for the end of parsing. *)
Definition Waiting (w : World) : Prop :=
  loading w = true → listeners w = [DOMContentLoaded_listener].

Lemma step_Waiting `{JSNumber Num} w (a : Action Num) w' effects :
  Inv w → Waiting w → step w a = Some (w', effects) → Waiting w'.
Proof.
  intros HI HW Hstep.
  destruct HI as (o & k & dcl & reg & Ho & Hk & Hl & Hm & Hidle & Hload & Hinit).
  destruct (event a) eqn:Ha.
  { destruct (event_handled w a o k _ _ Ho Hk Hl Hidle Ha)
      as (w1 & e1 & o' & Hs & (F1 & F2 & F3 & F4 & F5 & F6) & _).
    rewrite Hs in Hstep. injection Hstep as <- <-.
    unfold Waiting. rewrite F3, F4. exact HW. }
  destruct a as [options newSocket | | newSocket | | | | | | | | | | ];
    try discriminate Ha.
  - cbn [step] in Hstep. rewrite initSolidGrab_cases in Hstep.
    destruct (initialized w); [by injection Hstep as <- <-|].
    destruct (loading w) eqn:Hld.
    + injection Hstep as <- <-. intros _. unfold fresh. fields.
      rewrite (HW Hld). by vm_compute.
    + rewrite (bootstrap_Some (fresh w options) newSocket
                 (Overlay.new (objects w)) (optsOf options) dcl reg) in Hstep by done.
      injection Hstep as <- <-. unfold Waiting, fresh. fields. by rewrite Hld.
  - cbn [step] in Hstep. destruct (initialized w) eqn:Hi.
    2:{ unfold destroySolidGrab in Hstep. rewrite Hi in Hstep. by injection Hstep as <- <-. }
    rewrite (destroySolidGrab_Some w o dcl reg) in Hstep by done.
    injection Hstep as <- <-. unfold Waiting. fields. intros Hld.
    specialize (HW Hld). rewrite (Hload Hld) in Hl. rewrite Hl in HW.
    by destruct dcl.
  - rewrite (DOMContentLoaded_cases w newSocket o k dcl reg) in Hstep by done.
    destruct (loading w) eqn:Hld; [|by injection Hstep as <- <-].
    rewrite (Hload eq_refl) in *. destruct dcl.
    + rewrite (bootstrap_Some (set_loading false w) newSocket o k true false)
        in Hstep by done.
      by injection Hstep as <- <-.
    + by injection Hstep as <- <-.
Qed.

(** X23: when the module is evaluated while the document is loading, the
    listener for the end of parsing is registered and nothing removes it.
    So in every session, as long as the document is loading, the end of
    parsing runs [bootstrap], which mounts the overlay and registers the five
    handlers, whether or not the module is still initialized; if
    [destroySolidGrab] was called in between, the module is then running
    without being initialized and [destroySolidGrab] does nothing any more.
    A call of [destroySolidGrab] right after the evaluation is such a
    case. *)
Theorem parsed_starts_runtime `{JSNumber Num} d cur obj (actions : list (Action Num))
    newSocket :
  (∃ w effects,
     session true d cur obj actions = Some (w, effects)
     ∧ (loading w = true →
        ∃ w' effects' o',
          step w (DOMContentLoaded newSocket) = Some (w', effects')
          ∧ initialized w' = initialized w
          ∧ listeners w' = DOMContentLoaded_listener :: handlers
          ∧ overlay w' = Some o'
          ∧ Overlay._mounted o' = true
          ∧ (initialized w = false →
             step (Num := Num) w' call_destroySolidGrab = Some (w', []))))
  ∧ (∃ w effects,
       session (Num := Num) true d cur obj [call_destroySolidGrab] = Some (w, effects)
       ∧ loading w = true ∧ initialized w = false).
Proof.
  split.
  - destruct (session_run true d cur obj actions)
      as (w & effects & more & Hs & Hr & _ & HI).
    assert (HW : Waiting w).
    { apply (run_preserves Waiting step_Waiting actions _ w more
               (loaded_Inv true d cur obj)); [by intros _|done]. }
    exists w, (effects ++ more). split; [done|]. intros Hld.
    destruct HI as (o & k & dcl & reg & Ho & Hk & Hl & Hm & Hidle & Hload & Hinit).
    rewrite (DOMContentLoaded_cases w newSocket o k dcl reg) by done.
    rewrite Hld. rewrite (Hload Hld) in Hl. specialize (HW Hld). rewrite Hl in HW.
    destruct dcl; [|discriminate HW].
    rewrite (bootstrap_Some (set_loading false w) newSocket o k true false) by done.
    eexists _, _, _. split; [reflexivity|]. fields.
    pose proof (mount_fields o (document w)) as (Hm1 & _).
    do 4 (split; [done|]).
    intros Hi. cbn [step]. unfold destroySolidGrab. fields. by rewrite Hi.
  - exists (mkWorld false (Some (Overlay.new obj)) None (Some defaults) false None true
              [DOMContentLoaded_listener] [] d (S obj)), [].
    by repeat split.
Qed.

(** ** The options after the module is evaluated *)

(** Neither the callback nor a socket. *)
Definition quiet (e : Effect) : Prop :=
  match e with
  | call_onGrab _ | socket _ => False
  | _ => True
  end.

Lemma step_defaults `{JSNumber Num} w (a : Action Num) w' effects :
  Inv w →
  initialized w = true → opts w = Some defaults → bridge w = None →
  a ≠ call_destroySolidGrab →
  step w a = Some (w', effects) →
  initialized w' = true ∧ opts w' = Some defaults ∧ bridge w' = None
  ∧ Forall quiet effects.
Proof.
  intros HI Hi Hk Hb Ha Hstep.
  destruct HI as (o & k & dcl & reg & Ho & Hk' & Hl & Hm & Hidle & Hload & Hinit).
  assert (k = defaults) as -> by congruence.
  destruct (event a) eqn:He.
  { destruct (event_handled w a o defaults _ _ Ho Hk Hl Hidle He)
      as (w1 & e1 & o' & Hs & (F1 & F2 & F3 & F4 & F5 & F6) & Fb & Ho' & Hm' & Hi' & Hall & _).
    rewrite Hs in Hstep. injection Hstep as <- <-.
    rewrite F1, F2. do 2 (split; [done|]). split; [by apply Fb|].
    eapply Forall_impl; [exact Hall|]. intros [] Hx; try done; cbn in Hx.
    - destruct Hx as (k0 & Hk0 & [f Hf]). rewrite Hk in Hk0. by injection Hk0 as <-.
    - rewrite Hb in Hx. by destruct Hx. }
  destruct a as [options newSocket | | newSocket | | | | | | | | | | ];
    try discriminate He.
  - cbn [step] in Hstep. rewrite initSolidGrab_cases, Hi in Hstep. injection Hstep as <- <-.
    do 3 (split; [done|]). constructor.
  - done.
  - rewrite (DOMContentLoaded_cases w newSocket o defaults dcl reg) in Hstep by done.
    destruct (loading w) eqn:Hld.
    2:{ injection Hstep as <- <-. do 3 (split; [done|]). constructor. }
    rewrite (Hload eq_refl) in *. destruct dcl.
    + rewrite (bootstrap_Some (set_loading false w) newSocket o defaults true false)
        in Hstep by done.
      injection Hstep as <- <-. fields. unfold bootstrap_bridge. cbn [Opts.agentUrl defaults].
      fields. do 3 (split; [done|]). by repeat constructor.
    + injection Hstep as <- <-. do 3 (split; [done|]). constructor.
Qed.

Lemma run_defaults `{JSNumber Num} w (actions : list (Action Num)) w' effects :
  Inv w →
  initialized w = true → opts w = Some defaults → bridge w = None →
  (∀ a, a ∈ actions → a ≠ call_destroySolidGrab) →
  run w actions = Some (w', effects) →
  initialized w' = true ∧ opts w' = Some defaults ∧ bridge w' = None
  ∧ Forall quiet effects.
Proof.
  revert w effects. induction actions as [|a actions IH];
    intros w effects HI Hi Hk Hb Ha.
  - cbn [run]. intros [= <- <-]. do 3 (split; [done|]). constructor.
  - cbn [run]. destruct (step_Inv w a HI) as (w1 & e1 & Hs & HI1). rewrite Hs.
    cbn [mbind option_bind].
    destruct (run w1 actions) as [[w2 e2]|] eqn:Hr; [|done].
    cbn [mbind option_bind]. intros [= <- <-].
    destruct (step_defaults w a w1 e1 HI Hi Hk Hb) as (Hi1 & Hk1 & Hb1 & Hq1);
      [apply Ha; by left|done|].
    destruct (IH w1 e2 HI1 Hi1 Hk1 Hb1) as (Hi2 & Hk2 & Hb2 & Hq2);
      [intros a' Ha'; apply Ha; by right|done|].
    do 3 (split; [done|]). by apply Forall_app.
Qed.

(** X24: evaluating the module calls [initSolidGrab()] with no options.
    In every session in which [destroySolidGrab] is not called the module
    therefore stays initialized with the default options, whatever options
    later calls of [initSolidGrab] pass: the key is Alt, the toast is shown,
    no callback is ever called, there is no bridge and no socket is ever
    made or used. *)
Theorem options_after_load `{JSNumber Num} ld d cur obj (actions : list (Action Num)) :
  (∀ a, a ∈ actions → a ≠ call_destroySolidGrab) →
  ∃ w effects,
    session ld d cur obj actions = Some (w, effects)
    ∧ initialized w = true
    ∧ opts w = Some defaults
    ∧ bridge w = None
    ∧ Forall quiet effects.
Proof.
  intros Ha.
  destruct (session_run ld d cur obj actions) as (w & effects & more & Hs & Hr & He & HI).
  exists w, (effects ++ more). split; [done|].
  destruct (run_defaults _ actions w more (loaded_Inv ld d cur obj)) as (Hi & Hk & Hb & Hq);
    [by destruct ld..|done|done|].
  do 3 (split; [done|]). apply Forall_app. split; [|done].
  eapply Forall_impl; [exact He|]. by intros e [text ->].
Qed.

Lemma options_after_load_witness :
  ∃ w effects,
    @session Z Overlay.Z_JSNumber false (Overlay.mkDocument [] []) [] 0
      [call_initSolidGrab
         (SolidGrabOptions.mk (Some (js "Control")) None (Some (js "ws://localhost:4567"))
            (Some false))
         (Some 0)]
    = Some (w, effects)
    ∧ opts w = Some defaults.
Proof.
  destruct (@options_after_load Z Overlay.Z_JSNumber false (Overlay.mkDocument [] []) [] 0
    [call_initSolidGrab
       (SolidGrabOptions.mk (Some (js "Control")) None (Some (js "ws://localhost:4567"))
          (Some false))
       (Some 0)]) as (w & effects & Hs & _ & Hk & _).
  { intros a Ha%list_elem_of_singleton. by subst a. }
  by exists w, effects.
Defined.

(** ** What a click does *)



End RuntimeProps.
